(** * Privacy budget accounting (pipeline_dp/budget_accounting.py)

    A shallow embedding of the budget accountants of PipelineDP and the
    properties of their specification.

    Modelling conventions.
    - Python floats are read as real numbers ([R], exact arithmetic);
      [math.sqrt(2)] is [sqrt 2].  Python's [/] raises [ZeroDivisionError]
      on a zero divisor: division is the fallible [pdiv].
    - Whether the search of the PLD accountant ends, and where, depends on
      rounding and on the overflow of the conversion of integers to
      floats: the two loops of the search are modelled a second time in
      binary64 arithmetic (module [Binary64], on primitive floats), and the
      properties of the search are stated for that model.
    - Objects that the program shares and mutates live in stores.  The
      accountant's [_mechanisms] list is append-only and owns every
      [MechanismSpecInternal] ever created, so it doubles as the store of
      mechanisms: a reference to a mechanism (held by scopes, and by the
      caller as the [MechanismSpec] handle) is its position in that list.
      Scope objects live in [scope_objects]; the scope stack holds
      references into it.
    - Methods are state transformers that return an [outcome]: a value, a
      raised exception (the state mutated so far is kept, as in Python), or
      [Diverge] when the fuel of a [while] loop ran out. *)

From Stdlib Require Import String Reals Lra ZArith Bool Lia Arith List.
From Stdlib Require PrimFloat SpecFloat FloatOps.
Import ListNotations.
Open Scope R_scope.

(** ** Exceptions and outcomes *)

Inductive exn : Type :=
| AssertionError (msg : string)
| ValueError (msg : string)
| Exception_ (msg : string)
| NotImplementedError (msg : string)
| ZeroDivisionError
| IndexError
| AttributeError
| OverflowError
| InvalidReference.   (* model only: a reference to no object *)

Inductive outcome (A : Type) : Type :=
| Return (a : A)
| Raise (e : exn)
| Diverge.
Arguments Return {A} a.
Arguments Raise {A} e.
Arguments Diverge {A}.

Definition is_return {A} (o : outcome A) : bool :=
  match o with Return _ => true | _ => false end.

Definition is_raise {A} (o : outcome A) : bool :=
  match o with Raise _ => true | _ => false end.

(** State-and-exception monad over a state [S]. *)
Definition M (S A : Type) : Type := S -> outcome A * S.

Definition ret {S A} (a : A) : M S A := fun s => (Return a, s).
Definition raise {S A} (e : exn) : M S A := fun s => (Raise e, s).
Definition bind {S A B} (m : M S A) (k : A -> M S B) : M S B :=
  fun s => match m s with
           | (Return a, s') => k a s'
           | (Raise e, s') => (Raise e, s')
           | (Diverge, s') => (Diverge, s')
           end.
Definition get {S} : M S S := fun s => (Return s, s).
Definition put {S} (s : S) : M S unit := fun _ => (Return tt, s).
Definition modify {S} (f : S -> S) : M S unit := fun s => (Return tt, f s).
Definition lift {S A} (o : outcome A) : M S A := fun s => (o, s).

Declare Scope py_scope.
Delimit Scope py_scope with py.
Notation "x <- m ;; k" := (bind m (fun x => k))
  (at level 61, m at next level, right associativity) : py_scope.
Notation "m ;;; k" := (bind m (fun _ => k))
  (at level 61, right associativity) : py_scope.

(** Exceptions without state, for the methods that only read. *)
Definition obind {A B} (o : outcome A) (k : A -> outcome B) : outcome B :=
  match o with
  | Return a => k a
  | Raise e => Raise e
  | Diverge => Diverge
  end.
Notation "x <~ o ;; k" := (obind o (fun x => k))
  (at level 61, o at next level, right associativity) : py_scope.

(** ** Numbers *)

(** Truth value of a Python number: non-zero. *)
Definition truthy (x : R) : bool := if Req_dec_T x 0 then false else true.

Definition Req_bool (x y : R) : bool := if Req_dec_T x y then true else false.
Definition Rle_bool (x y : R) : bool := if Rle_dec x y then true else false.
Definition Rlt_bool (x y : R) : bool := if Rlt_dec x y then true else false.

(** [x / y]: raises [ZeroDivisionError] when [y] is zero. *)
Definition pdiv (x y : R) : outcome R :=
  if Req_dec_T y 0 then Raise ZeroDivisionError else Return (x / y).

(** [sum(l)] *)
Definition sum (l : list R) : R := fold_left Rplus l 0.

(** [l.pop()]: the list without its last element, and that element. *)
Fixpoint pop {A} (l : list A) : option (list A * A) :=
  match l with
  | [] => None
  | x :: l' => match pop l' with
               | None => Some ([], x)
               | Some (r, y) => Some (x :: r, y)
               end
  end.

(** [l[i] = v] for a position [i] of [l]. *)
Fixpoint update {A} (l : list A) (i : nat) (v : A) : list A :=
  match l, i with
  | [], _ => []
  | _ :: l', O => v :: l'
  | x :: l', S i' => x :: update l' i' v
  end.

(** ** MechanismType, MechanismSpec, MechanismSpecInternal *)

Inductive MechanismType : Type := LAPLACE | GAUSSIAN | GENERIC.

Definition MechanismType_eqb (a b : MechanismType) : bool :=
  match a, b with
  | LAPLACE, LAPLACE | GAUSSIAN, GAUSSIAN | GENERIC, GENERIC => true
  | _, _ => false
  end.

Record MechanismSpec : Type := mkMechanismSpec {
  mechanism_type : MechanismType;
  _noise_standard_deviation : option R;
  _eps : option R;
  _delta : option R;
  _count : Z
}.

Definition not_calculated_noise : string :=
  "Noise standard deviation is not calculated yet.".
Definition not_calculated_budget : string :=
  "Privacy budget is not calculated yet.".

(** The properties [noise_standard_deviation], [eps], [delta], [count]. *)
Definition noise_standard_deviation (self : MechanismSpec) : outcome R :=
  match _noise_standard_deviation self with
  | None => Raise (AssertionError not_calculated_noise)
  | Some v => Return v
  end.

Definition eps (self : MechanismSpec) : outcome R :=
  match _eps self with
  | None => Raise (AssertionError not_calculated_budget)
  | Some v => Return v
  end.

Definition delta (self : MechanismSpec) : outcome R :=
  match _delta self with
  | None => Raise (AssertionError not_calculated_budget)
  | Some v => Return v
  end.

Definition count (self : MechanismSpec) : Z := _count self.

Definition set_eps_delta (eps : option R) (delta : option R)
    (self : MechanismSpec) : outcome MechanismSpec :=
  match eps with
  | None => Raise (AssertionError "eps must not be None.")
  | Some e =>
      Return (mkMechanismSpec (mechanism_type self)
                (_noise_standard_deviation self) (Some e) delta (_count self))
  end.

Definition set_noise_standard_deviation (v : R) (self : MechanismSpec)
    : MechanismSpec :=
  mkMechanismSpec (mechanism_type self) (Some v) (_eps self) (_delta self)
    (_count self).

Definition use_delta (self : MechanismSpec) : bool :=
  negb (MechanismType_eqb (mechanism_type self) LAPLACE).

Record MechanismSpecInternal : Type := mkMechanismSpecInternal {
  sensitivity : R;
  weight : R;
  mechanism_spec : MechanismSpec
}.

Definition set_weight (w : R) (m : MechanismSpecInternal)
    : MechanismSpecInternal :=
  mkMechanismSpecInternal (sensitivity m) w (mechanism_spec m).

Definition set_mechanism_spec (sp : MechanismSpec) (m : MechanismSpecInternal)
    : MechanismSpecInternal :=
  mkMechanismSpecInternal (sensitivity m) (weight m) sp.

(** ** BudgetAccountantScope and BudgetAccountant: the objects *)

(** [BudgetAccountantScope].  [s_weight] is the attribute [weight] and
    [s_delta] the attribute [_delta] (the names are taken by the mechanism
    records); [mechanisms] holds references into [_mechanisms].  The
    attribute [accountant] is the one accountant of the heap. *)
Record BudgetAccountantScope : Type := mkScope {
  s_weight : R;
  _index_aggregation_scope : option nat;
  _epsilon : option R;
  s_delta : option R;
  mechanisms : list nat
}.

(** The attributes of [BudgetAccountant] and of its two subclasses
    ([minimum_noise_std] and [_pld_discretization] are those of
    [PLDBudgetAccountant]).  [_scopes_stack] holds references into
    [scope_objects], in the order of the Python list (last = innermost). *)
Record BudgetAccountant : Type := mkAccountant {
  _scopes_stack : list nat;
  _mechanisms : list MechanismSpecInternal;
  _finalized : bool;
  _n_aggregations : option Z;
  _aggregation_weights : option (list R);
  _next_aggregation_index : nat;
  _inside_aggregation_scope : bool;
  _total_epsilon : R;
  _total_delta : R;
  minimum_noise_std : option R;
  _pld_discretization : R
}.

Record Heap : Type := mkHeap {
  self : BudgetAccountant;
  scope_objects : list BudgetAccountantScope
}.

(** Attribute assignments. *)
Definition set_scopes_stack (v : list nat) (a : BudgetAccountant) :=
  mkAccountant v (_mechanisms a) (_finalized a) (_n_aggregations a)
    (_aggregation_weights a) (_next_aggregation_index a)
    (_inside_aggregation_scope a) (_total_epsilon a) (_total_delta a)
    (minimum_noise_std a) (_pld_discretization a).
Definition set_mechanisms (v : list MechanismSpecInternal) (a : BudgetAccountant) :=
  mkAccountant (_scopes_stack a) v (_finalized a) (_n_aggregations a)
    (_aggregation_weights a) (_next_aggregation_index a)
    (_inside_aggregation_scope a) (_total_epsilon a) (_total_delta a)
    (minimum_noise_std a) (_pld_discretization a).
Definition set_finalized (v : bool) (a : BudgetAccountant) :=
  mkAccountant (_scopes_stack a) (_mechanisms a) v (_n_aggregations a)
    (_aggregation_weights a) (_next_aggregation_index a)
    (_inside_aggregation_scope a) (_total_epsilon a) (_total_delta a)
    (minimum_noise_std a) (_pld_discretization a).
Definition set_next_aggregation_index (v : nat) (a : BudgetAccountant) :=
  mkAccountant (_scopes_stack a) (_mechanisms a) (_finalized a)
    (_n_aggregations a) (_aggregation_weights a) v
    (_inside_aggregation_scope a) (_total_epsilon a) (_total_delta a)
    (minimum_noise_std a) (_pld_discretization a).
Definition set_inside_aggregation_scope (v : bool) (a : BudgetAccountant) :=
  mkAccountant (_scopes_stack a) (_mechanisms a) (_finalized a)
    (_n_aggregations a) (_aggregation_weights a) (_next_aggregation_index a)
    v (_total_epsilon a) (_total_delta a)
    (minimum_noise_std a) (_pld_discretization a).
Definition set_minimum_noise_std (v : option R) (a : BudgetAccountant) :=
  mkAccountant (_scopes_stack a) (_mechanisms a) (_finalized a)
    (_n_aggregations a) (_aggregation_weights a) (_next_aggregation_index a)
    (_inside_aggregation_scope a) (_total_epsilon a) (_total_delta a)
    v (_pld_discretization a).

Definition set_scope_mechanisms (v : list nat) (s : BudgetAccountantScope) :=
  mkScope (s_weight s) (_index_aggregation_scope s) (_epsilon s) (s_delta s) v.

(** Access to the heap. *)
Definition modify_self (f : BudgetAccountant -> BudgetAccountant) : M Heap unit :=
  modify (fun h => mkHeap (f (self h)) (scope_objects h)).
Definition get_self : M Heap BudgetAccountant :=
  fun h => (Return (self h), h).

Definition deref_scope (sid : nat) : M Heap BudgetAccountantScope :=
  fun h => match nth_error (scope_objects h) sid with
           | Some sc => (Return sc, h)
           | None => (Raise InvalidReference, h)
           end.
Definition assign_scope (sid : nat) (sc : BudgetAccountantScope) : M Heap unit :=
  modify (fun h => mkHeap (self h) (update (scope_objects h) sid sc)).
Definition new_scope (sc : BudgetAccountantScope) : M Heap nat :=
  fun h => (Return (length (scope_objects h)),
            mkHeap (self h) (scope_objects h ++ [sc])).

Definition deref_mechanism (ref : nat) : M Heap MechanismSpecInternal :=
  fun h => match nth_error (_mechanisms (self h)) ref with
           | Some m => (Return m, h)
           | None => (Raise InvalidReference, h)
           end.
Definition assign_mechanism (ref : nat) (m : MechanismSpecInternal) : M Heap unit :=
  modify_self (fun a => set_mechanisms (update (_mechanisms a) ref m) a).

(** [for x in l: body(x)] *)
Fixpoint for_each {S A} (l : list A) (body : A -> M S unit) : M S unit :=
  match l with
  | [] => ret tt
  | x :: rest => (body x ;;; for_each rest body)%py
  end.

(** [[f(x) for x in l]] *)
Fixpoint comprehension {S A B} (l : list A) (f : A -> M S B) : M S (list B) :=
  match l with
  | [] => ret []
  | x :: rest => (y <- f x ;; ys <- comprehension rest f ;; ret (y :: ys))%py
  end.

(** [for obj in objs: body(obj)] where the body mutates the visited object
    only: the objects before the one whose body raises are mutated, that one
    is left as the body left it, the rest is untouched. *)
Fixpoint for_each_object {A} (body : M A unit) (objs : list A)
    : outcome unit * list A :=
  match objs with
  | [] => (Return tt, [])
  | x :: rest =>
      match body x with
      | (Return _, x') =>
          let (o, rest') := for_each_object body rest in (o, x' :: rest')
      | (Raise e, x') => (Raise e, x' :: rest)
      | (Diverge, x') => (Diverge, x' :: rest)
      end
  end.

(** Truth values of the optional attributes. *)
Definition truthy_int (o : option Z) : bool :=
  match o with Some n => negb (n =? 0)%Z | None => false end.
Definition truthy_list {A} (o : option (list A)) : bool :=
  match o with Some (_ :: _) => true | _ => false end.

(** ** BudgetAccountantScope: construction *)

Definition is_aggregation_scope (s : BudgetAccountantScope) : bool :=
  match _index_aggregation_scope s with Some _ => true | None => false end.

(** [_compute_budget_for_aggregation_scope]: the pair ([_epsilon], [_delta])
    it leaves in the scope. *)
Definition _compute_budget_for_aggregation_scope
    (accountant : BudgetAccountant) (index : nat)
    : outcome (option R * option R) :=
  match _n_aggregations accountant with
  | Some n =>
      (budget_ratio <~ pdiv 1 (IZR n) ;;
       Return (Some (_total_epsilon accountant * budget_ratio),
               Some (_total_delta accountant * budget_ratio)))%py
  | None =>
      match _aggregation_weights accountant with
      | Some weights =>
          let sum_weights := sum weights in
          match nth_error weights index with
          | None => Raise IndexError
          | Some wi =>
              (budget_ratio <~ pdiv wi sum_weights ;;
               Return (Some (_total_epsilon accountant * budget_ratio),
                       Some (_total_delta accountant * budget_ratio)))%py
          end
      | None => Return (None, None)
      end
  end.

(** [BudgetAccountantScope(accountant, weight, index_aggregation_scope)]:
    allocates the scope and returns its reference. *)
Definition BudgetAccountantScope__init__ (weight : R)
    (index_aggregation_scope : option nat) : M Heap nat :=
  (accountant <- get_self ;;
   budget <- lift (match index_aggregation_scope with
                   | Some i => _compute_budget_for_aggregation_scope accountant i
                   | None => Return (None, None)
                   end) ;;
   new_scope (mkScope weight index_aggregation_scope (fst budget) (snd budget) []))%py.

Definition _validate_epsilon_delta_scope (s : BudgetAccountantScope) : outcome unit :=
  match _index_aggregation_scope s with
  | None => Raise (ValueError "Only aggregation scopes have computed budget.")
  | Some _ =>
      match _epsilon s with
      | None => Raise (ValueError "The budget per aggregation could not be computed.")
      | Some _ => Return tt
      end
  end.

(** ** BudgetAccountant: the methods of the base class *)

Definition BudgetAccountant__init__ (n_aggregations : option Z)
    (aggregation_weights : option (list R)) : outcome BudgetAccountant :=
  match n_aggregations, aggregation_weights with
  | Some _, Some _ =>
      Raise (ValueError "'n_aggregations' and 'aggregation_weights' can not be set simultaneously.")
  | _, _ =>
      if match n_aggregations with Some n => (n <=? 0)%Z | None => false end
      then Raise (ValueError "'n_aggregations' has to be positive.")
      else Return (mkAccountant [] [] false n_aggregations aggregation_weights
                     0%nat false 0 0 None 0)
  end.

Definition _get_next_aggregation_index : M Heap nat :=
  (modify_self (fun a => set_next_aggregation_index
                           (_next_aggregation_index a + 1) a) ;;;
   a <- get_self ;;
   ret (_next_aggregation_index a - 1)%nat)%py.

Definition nested_msg : string := "Aggregation scopes can not be nested.".

Definition scope (weight : R) (aggregation_scope : bool) : M Heap nat :=
  (a <- get_self ;;
   aggregation_index <-
     (if aggregation_scope &&
           (truthy_int (_n_aggregations a) || truthy_list (_aggregation_weights a))
      then
        (if _inside_aggregation_scope a
         then raise (ValueError nested_msg)
         else
           aggregation_index <- _get_next_aggregation_index ;;
           (if truthy_int (_n_aggregations a) then
              match _n_aggregations a with
              | Some n =>
                  if (n <=? Z.of_nat aggregation_index)%Z
                  then raise (ValueError "Exceeded the number of allowed aggregations.")
                  else if Req_bool weight 1 then ret tt
                  else raise (ValueError "all aggregation weights have to be 1")
              | None => ret tt
              end
            else
              match _aggregation_weights a with
              | Some ws =>
                  if (length ws <=? aggregation_index)%nat
                  then raise (ValueError "Exceeded the number of allowed aggregations.")
                  else match nth_error ws aggregation_index with
                       | None => raise IndexError
                       | Some expected_weight =>
                           if Req_bool weight expected_weight then ret tt
                           else raise (ValueError "The provided weight differs from 'aggregation_weights'")
                       end
              | None => raise (AssertionError "It should not happen.")
              end) ;;;
           ret (Some aggregation_index))
      else ret None) ;;
   BudgetAccountantScope__init__ weight aggregation_index)%py.

(** [_register_mechanism]: returns the reference of the new mechanism. *)
Definition _register_mechanism (mechanism : MechanismSpecInternal) : M Heap nat :=
  (a <- get_self ;;
   let ref := length (_mechanisms a) in
   modify_self (set_mechanisms (_mechanisms a ++ [mechanism])) ;;;
   for_each (_scopes_stack a)
     (fun sid => sc <- deref_scope sid ;;
                 assign_scope sid (set_scope_mechanisms (mechanisms sc ++ [ref]) sc)) ;;;
   ret ref)%py.

Definition _enter_scope (sid : nat) : M Heap unit :=
  (sc <- deref_scope sid ;;
   (if is_aggregation_scope sc
    then modify_self (set_inside_aggregation_scope true)
    else ret tt) ;;;
   modify_self (fun a => set_scopes_stack (_scopes_stack a ++ [sid]) a))%py.

Definition _exit_scope : M Heap unit :=
  (a <- get_self ;;
   match pop (_scopes_stack a) with
   | None => raise IndexError
   | Some (stack, sid) =>
       modify_self (set_scopes_stack stack) ;;;
       sc <- deref_scope sid ;;
       if is_aggregation_scope sc
       then modify_self (set_inside_aggregation_scope false)
       else ret tt
   end)%py.

Definition _check_number_aggregation_scopes : M Heap unit :=
  (a <- get_self ;;
   let aggregation_scopes := _next_aggregation_index a in
   (if truthy_int (_n_aggregations a) &&
         negb (match _n_aggregations a with
               | Some n => (n =? Z.of_nat aggregation_scopes)%Z
               | None => true
               end)
    then raise (ValueError "'n_aggregations' differs from the actual number of aggregations.")
    else ret tt) ;;;
   match _aggregation_weights a with
   | Some ws =>
       if negb (aggregation_scopes =? length ws)%nat
       then raise (ValueError "'len(aggregation_weights)' differs from the actual number of aggregations.")
       else ret tt
   | None => ret tt
   end)%py.

Definition twice_msg : string := "compute_budgets can not be called twice.".

Definition _finalize : M Heap unit :=
  (_check_number_aggregation_scopes ;;;
   a <- get_self ;;
   (if _finalized a then raise (Exception_ twice_msg) else ret tt) ;;;
   modify_self (set_finalized true))%py.

(** ** BudgetAccountantScope: entering and leaving *)

Definition __enter__ (sid : nat) : M Heap nat :=
  (_enter_scope sid ;;; ret sid)%py.

Definition _normalise_mechanism_weights (sid : nat) : M Heap unit :=
  (sc <- deref_scope sid ;;
   match mechanisms sc with
   | [] => ret tt
   | _ :: _ =>
       ws <- comprehension (mechanisms sc)
               (fun ref => m <- deref_mechanism ref ;; ret (weight m)) ;;
       let total_weight := sum ws in
       normalisation_factor <- lift (pdiv (s_weight sc) total_weight) ;;
       for_each (mechanisms sc)
         (fun ref => m <- deref_mechanism ref ;;
                     assign_mechanism ref
                       (set_weight (weight m * normalisation_factor) m))
   end)%py.

Definition __exit__ (sid : nat) : M Heap unit :=
  (_exit_scope ;;; _normalise_mechanism_weights sid)%py.

(** [_validate_epsilon_delta], the module-level helper. *)
Definition _validate_epsilon_delta (epsilon delta : R) : outcome unit :=
  if Rle_bool epsilon 0 then Raise (ValueError "Epsilon must be positive.")
  else if Rlt_bool delta 0 then Raise (ValueError "Delta must be non-negative.")
  else Return tt.

Definition after_compute_msg : string :=
  "request_budget() is called after compute_budgets().".
Definition in_scope_msg : string :=
  "Cannot call compute_budgets from within a budget scope.".
Definition not_implemented_msg : string :=
  "Count and noise standard deviation have not been implemented yet.".
Definition gaussian_msg : string :=
  "The Gaussian mechanism requires that the pipeline delta is greater than 0".

(** [for mechanism in self._mechanisms: body(mechanism)] *)
Definition for_mechanisms (body : M MechanismSpecInternal unit) : M Heap unit :=
  fun h =>
    let (o, ms') := for_each_object body (_mechanisms (self h)) in
    (o, mkHeap (set_mechanisms ms' (self h)) (scope_objects h)).

(** [mechanism.mechanism_spec.set_eps_delta(eps, delta)] *)
Definition call_set_eps_delta (eps delta : option R) : M MechanismSpecInternal unit :=
  fun m => match set_eps_delta eps delta (mechanism_spec m) with
           | Return sp => (Return tt, set_mechanism_spec sp m)
           | Raise e => (Raise e, m)
           | Diverge => (Diverge, m)
           end.

(** ** NaiveBudgetAccountant *)

Module Naive.

Definition __init__ (total_epsilon total_delta : R)
    (n_aggregations : option Z) (aggregation_weights : option (list R))
    : outcome Heap :=
  (a <~ BudgetAccountant__init__ n_aggregations aggregation_weights ;;
   _ <~ _validate_epsilon_delta total_epsilon total_delta ;;
   Return (mkHeap
             (mkAccountant (_scopes_stack a) (_mechanisms a) false
                (_n_aggregations a) (_aggregation_weights a)
                (_next_aggregation_index a) (_inside_aggregation_scope a)
                total_epsilon total_delta None 0)
             []))%py.

Definition request_budget (mechanism_type : MechanismType)
    (sensitivity weight : R) (count : Z)
    (noise_standard_deviation : option R) : M Heap nat :=
  (a <- get_self ;;
   if _finalized a then raise (Exception_ after_compute_msg)
   else
     match noise_standard_deviation with
     | Some _ => raise (NotImplementedError not_implemented_msg)
     | None =>
         if MechanismType_eqb mechanism_type GAUSSIAN
            && Req_bool (_total_delta a) 0
         then raise (ValueError gaussian_msg)
         else
           let mechanism_spec :=
             mkMechanismSpec mechanism_type None None None count in
           let mechanism_spec_internal :=
             mkMechanismSpecInternal sensitivity weight mechanism_spec in
           _register_mechanism mechanism_spec_internal
     end)%py.

(** The first loop of [compute_budgets]:
    ([total_weight_eps], [total_weight_delta]). *)
Definition total_weights (ms : list MechanismSpecInternal) : R * R :=
  fold_left
    (fun acc mechanism =>
       let total_weight_eps :=
         fst acc + weight mechanism * IZR (count (mechanism_spec mechanism)) in
       let total_weight_delta :=
         if use_delta (mechanism_spec mechanism)
         then snd acc + weight mechanism * IZR (count (mechanism_spec mechanism))
         else snd acc in
       (total_weight_eps, total_weight_delta))
    ms (0, 0).

(** The body of the second loop of [compute_budgets]. *)
Definition assign_budget (total_epsilon total_delta : R)
    (total_weight_eps total_weight_delta : R) : M MechanismSpecInternal unit :=
  (mechanism <- get ;;
   eps <- (if truthy total_weight_eps
           then lift (pdiv (total_epsilon * weight mechanism) total_weight_eps)
           else ret 0) ;;
   delta <- (if use_delta (mechanism_spec mechanism)
             then if truthy total_weight_delta
                  then lift (pdiv (total_delta * weight mechanism) total_weight_delta)
                  else ret 0
             else ret 0) ;;
   call_set_eps_delta (Some eps) (Some delta))%py.

Definition compute_budgets : M Heap unit :=
  (_finalize ;;;
   a <- get_self ;;
   match _mechanisms a with
   | [] => ret tt   (* logging.warning("No budgets were requested.") *)
   | _ :: _ =>
       match _scopes_stack a with
       | _ :: _ => raise (Exception_ in_scope_msg)
       | [] =>
           let w := total_weights (_mechanisms a) in
           for_mechanisms
             (assign_budget (_total_epsilon a) (_total_delta a) (fst w) (snd w))
       end
   end)%py.

End Naive.

(** ** The privacy-loss-distribution library (dp_accounting)

    The library is outside this repository; the accountant uses it through
    these five operations.  [from_privacy_parameters eps delta] stands for
    [from_privacy_parameters(DifferentialPrivacyParameters(eps, delta))];
    the last argument of each constructor is
    [value_discretization_interval]. *)
Class PrivacyLossDistributionLib : Type := {
  PrivacyLossDistribution : Type;
  from_laplace_mechanism : R -> R -> PrivacyLossDistribution;
  from_gaussian_mechanism : R -> R -> PrivacyLossDistribution;
  from_privacy_parameters : R -> R -> R -> PrivacyLossDistribution;
  compose : PrivacyLossDistribution -> PrivacyLossDistribution
            -> PrivacyLossDistribution;
  get_epsilon_for_delta : PrivacyLossDistribution -> R -> R
}.

(** ** PLDBudgetAccountant *)

Module PLD.

Definition __init__ (total_epsilon total_delta : R) (pld_discretization : R)
    (n_aggregations : option Z) (aggregation_weights : option (list R))
    : outcome Heap :=
  (a <~ BudgetAccountant__init__ n_aggregations aggregation_weights ;;
   _ <~ _validate_epsilon_delta total_epsilon total_delta ;;
   Return (mkHeap
             (mkAccountant (_scopes_stack a) (_mechanisms a) (_finalized a)
                (_n_aggregations a) (_aggregation_weights a)
                (_next_aggregation_index a) (_inside_aggregation_scope a)
                total_epsilon total_delta None pld_discretization)
             []))%py.

Definition request_budget (mechanism_type : MechanismType)
    (sensitivity weight : R) (count : Z)
    (noise_standard_deviation : option R) : M Heap nat :=
  (a <- get_self ;;
   if _finalized a then raise (Exception_ after_compute_msg)
   else
     if negb (count =? 1)%Z
        || match noise_standard_deviation with Some _ => true | None => false end
     then raise (NotImplementedError not_implemented_msg)
     else
       if MechanismType_eqb mechanism_type GAUSSIAN
          && Req_bool (_total_delta a) 0
       then raise (AssertionError gaussian_msg)
       else
         let mechanism_spec :=
           mkMechanismSpec mechanism_type None None None 1 in
         let mechanism_spec_internal :=
           mkMechanismSpecInternal sensitivity weight mechanism_spec in
         _register_mechanism mechanism_spec_internal)%py.

Section WithLibrary.
Context {pldlib : PrivacyLossDistributionLib}.

(** One turn of the loop of [_compose_distributions]: the distribution of
    one mechanism at the trial [noise_standard_deviation]. *)
Definition mechanism_distribution (a : BudgetAccountant)
    (noise_standard_deviation : R) (m : MechanismSpecInternal)
    : outcome PrivacyLossDistribution :=
  match mechanism_type (mechanism_spec m) with
  | LAPLACE =>
      (parameter <~ pdiv (sensitivity m * noise_standard_deviation / sqrt 2)
                         (weight m) ;;
       Return (from_laplace_mechanism parameter (_pld_discretization a)))%py
  | GAUSSIAN =>
      (standard_deviation <~ pdiv (sensitivity m * noise_standard_deviation)
                                  (weight m) ;;
       Return (from_gaussian_mechanism standard_deviation (_pld_discretization a)))%py
  | GENERIC =>
      (epsilon_0_interim <~ pdiv (sqrt 2) noise_standard_deviation ;;
       ratio <~ pdiv epsilon_0_interim (_total_epsilon a) ;;
       let delta_0_interim := ratio * _total_delta a in
       Return (from_privacy_parameters epsilon_0_interim delta_0_interim
                 (_pld_discretization a)))%py
  end.

Fixpoint compose_loop (a : BudgetAccountant) (noise_standard_deviation : R)
    (ms : list MechanismSpecInternal)
    (composed : option PrivacyLossDistribution)
    : outcome (option PrivacyLossDistribution) :=
  match ms with
  | [] => Return composed
  | m :: rest =>
      (pld <~ mechanism_distribution a noise_standard_deviation m ;;
       compose_loop a noise_standard_deviation rest
         (Some (match composed with
                | None => pld
                | Some c => compose c pld
                end)))%py
  end.

Definition _compose_distributions (a : BudgetAccountant)
    (noise_standard_deviation : R) : outcome (option PrivacyLossDistribution) :=
  compose_loop a noise_standard_deviation (_mechanisms a) None.

(** [self._compose_distributions(x).get_epsilon_for_delta(self._total_delta)] *)
Definition composed_epsilon (a : BudgetAccountant) (x : R) : outcome R :=
  (composed <~ _compose_distributions a x ;;
   match composed with
   | None => Raise AttributeError
   | Some pld => Return (get_epsilon_for_delta pld (_total_delta a))
   end)%py.

(** The loop of [_calculate_max_noise_std], entered with the current
    [max_noise_std] and [pld_epsilon]. *)
Fixpoint max_noise_loop (fuel : nat) (a : BudgetAccountant)
    (max_noise_std pld_epsilon : R) : outcome R :=
  if Rlt_bool (_total_epsilon a) pld_epsilon then
    match fuel with
    | O => Diverge
    | S fuel' =>
        let max_noise_std := max_noise_std * 2 in
        (pld_epsilon <~ composed_epsilon a max_noise_std ;;
         max_noise_loop fuel' a max_noise_std pld_epsilon)%py
    end
  else Return max_noise_std.

Definition _calculate_max_noise_std (fuel : nat) (a : BudgetAccountant)
    : outcome R :=
  max_noise_loop fuel a 1 (_total_epsilon a + 1).

Definition threshold : R := 1 / 10000.

(** The loop of [_find_minimum_noise_std]: the values of ([low], [high])
    when it ends. *)
Fixpoint search_loop (fuel : nat) (a : BudgetAccountant) (low high : R)
    : outcome (R * R) :=
  if Rlt_bool (low + threshold) high then
    match fuel with
    | O => Diverge
    | S fuel' =>
        let mid := (high - low) / 2 + low in
        (pld_epsilon <~ composed_epsilon a mid ;;
         if Rle_bool pld_epsilon (_total_epsilon a)
         then search_loop fuel' a low mid
         else if Rlt_bool (_total_epsilon a) pld_epsilon
              then search_loop fuel' a mid high
              else search_loop fuel' a low high)%py
    end
  else Return (low, high).

Definition _find_minimum_noise_std (fuel : nat) (a : BudgetAccountant)
    : outcome R :=
  (maximum_noise_std <~ _calculate_max_noise_std fuel a ;;
   low_high <~ search_loop fuel a 0 maximum_noise_std ;;
   Return (snd low_high))%py.

(** The body of the last loop of [compute_budgets]. *)
Definition calibrate (total_epsilon total_delta minimum_noise_std : R)
    : M MechanismSpecInternal unit :=
  (mechanism <- get ;;
   mechanism_noise_std <-
     lift (pdiv (sensitivity mechanism * minimum_noise_std) (weight mechanism)) ;;
   modify (fun m => set_mechanism_spec
                      (set_noise_standard_deviation mechanism_noise_std
                         (mechanism_spec m)) m) ;;;
   match mechanism_type (mechanism_spec mechanism) with
   | GENERIC =>
       epsilon_0 <- lift (pdiv (sqrt 2) mechanism_noise_std) ;;
       ratio <- lift (pdiv epsilon_0 total_epsilon) ;;
       let delta_0 := ratio * total_delta in
       call_set_eps_delta (Some epsilon_0) (Some delta_0)
   | _ => ret tt
   end)%py.

Definition sum_of_weights (ms : list MechanismSpecInternal) : R :=
  fold_left (fun sum_weights mechanism => sum_weights + weight mechanism) ms 0.

(** The [if]/[else] of [compute_budgets] that computes
    [minimum_noise_std]: the closed form when [total_delta] is 0, the search
    otherwise. *)
Definition closed_form_or_search (fuel : nat) (a : BudgetAccountant)
    : outcome R :=
  if Req_bool (_total_delta a) 0
  then
    let sum_weights := sum_of_weights (_mechanisms a) in
    (q <~ pdiv sum_weights (_total_epsilon a) ;;
     Return (q * sqrt 2))%py
  else _find_minimum_noise_std fuel a.

Definition compute_budgets (fuel : nat) : M Heap unit :=
  (_finalize ;;;
   a <- get_self ;;
   match _mechanisms a with
   | [] => ret tt   (* logging.warning("No budgets were requested.") *)
   | _ :: _ =>
       match _scopes_stack a with
       | _ :: _ => raise (Exception_ in_scope_msg)
       | [] =>
           minimum_noise_std <- lift (closed_form_or_search fuel a) ;;
           modify_self (set_minimum_noise_std (Some minimum_noise_std)) ;;;
           for_mechanisms
             (calibrate (_total_epsilon a) (_total_delta a) minimum_noise_std)
       end
   end)%py.

End WithLibrary.
End PLD.

(** ** The search of the PLD accountant in binary64 arithmetic

    [_calculate_max_noise_std] and [_find_minimum_noise_std] on primitive
    floats (IEEE 754 binary64, rounding to nearest even, as Python's
    [float]).  [total_epsilon] is a float and [composed_epsilon] is the
    collaborator: the value of
    [self._compose_distributions(noise).get_epsilon_for_delta(self._total_delta)]
    as a function of the trial noise.
    - [max_noise_std] is a Python [int].  [_compose_distributions] converts
      it to a float where it first meets a float
      ([sensitivity * noise_standard_deviation] for a float sensitivity,
      [... / math.sqrt(2)], [math.sqrt(2) / noise_standard_deviation]),
      which raises [OverflowError] when the int is too large, for a power
      of two from [2^1024] on; sensitivities and weights are floats, as
      annotated, or the default 1.  The collaborator depends on the trial
      noise through its float value.
    - The bisection starts on the ints [0] and [maximum_noise_std], which
      its arithmetic converts to floats; 0 and the powers of two that the
      doubling loop returns convert exactly, so that the bisection is
      modelled on floats from the start.
    - [a > b] is [b <? a]; [threshold] is the float of the literal [1e-4]. *)

Module Binary64.
Import PrimFloat.
Local Open Scope float_scope.

(** [float(n)] for a Python [int]: rounded to the nearest float,
    [OverflowError] when that is beyond the largest one. *)
Definition float_of_int (n : Z) : outcome float :=
  match SpecFloat.binary_normalize FloatOps.prec FloatOps.emax n 0 false with
  | SpecFloat.S754_infinity _ => Raise OverflowError
  | s => Return (FloatOps.SF2Prim s)
  end.

(** [threshold = 1e-4] *)
Definition threshold : float := 0x1.a36e2eb1c432dp-14.

Section WithEpsilon.
Variable total_epsilon : float.
Variable composed_epsilon : float -> float.

(** The loop of [_calculate_max_noise_std], from the current
    [max_noise_std] and [pld_epsilon]. *)
Fixpoint max_noise_loop (fuel : nat) (max_noise_std : Z) (pld_epsilon : float)
    : outcome Z :=
  if total_epsilon <? pld_epsilon then
    match fuel with
    | O => Diverge
    | S fuel' =>
        let max_noise_std := (max_noise_std * 2)%Z in
        (noise <~ float_of_int max_noise_std ;;
         max_noise_loop fuel' max_noise_std (composed_epsilon noise))%py
    end
  else Return max_noise_std.

Definition _calculate_max_noise_std (fuel : nat) : outcome Z :=
  max_noise_loop fuel 1 (total_epsilon + 1).

(** The loop of [_find_minimum_noise_std]: returns the final
    [(low, high)]. *)
Fixpoint search_loop (fuel : nat) (low high : float) : outcome (float * float) :=
  if low + threshold <? high then
    match fuel with
    | O => Diverge
    | S fuel' =>
        let mid := (high - low) / 2 + low in
        let pld_epsilon := composed_epsilon mid in
        if pld_epsilon <=? total_epsilon then search_loop fuel' low mid
        else if total_epsilon <? pld_epsilon then search_loop fuel' mid high
        else search_loop fuel' low high
    end
  else Return (low, high).

Definition _find_minimum_noise_std (fuel : nat) : outcome float :=
  (maximum_noise_std <~ _calculate_max_noise_std fuel ;;
   high <~ float_of_int maximum_noise_std ;;
   bracket <~ search_loop fuel 0 high ;;
   Return (snd bracket))%py.

(** The test of the doubling loop holds on entry:
    [total_epsilon + 1 > total_epsilon]. *)
Definition doubling_starts : bool := total_epsilon <? total_epsilon + 1.

(** The test of the bisection loop: [low + threshold < high]. *)
Definition still_apart (low high : float) : bool := low + threshold <? high.

(** [pld_epsilon <= total_epsilon] at a trial noise. *)
Definition within_total_epsilon (noise : float) : bool :=
  composed_epsilon noise <=? total_epsilon.

(** The composed epsilon is never NaN: where [pld_epsilon > total_epsilon]
    is false, [pld_epsilon <= total_epsilon] is true. *)
Definition comparable : Prop :=
  forall noise,
    (total_epsilon <? composed_epsilon noise) = false ->
    within_total_epsilon noise = true.

(** The doubling loop stops at [2^j]. *)
Definition sufficient_at (j : nat) : bool :=
  match float_of_int (2 ^ Z.of_nat j) with
  | Return noise => negb (total_epsilon <? composed_epsilon noise)
  | _ => false
  end.

(** One pass through the body of the bisection loop. *)
Definition bisect (low high : float) : float * float :=
  let mid := (high - low) / 2 + low in
  let pld_epsilon := composed_epsilon mid in
  if pld_epsilon <=? total_epsilon then (low, mid)
  else if total_epsilon <? pld_epsilon then (mid, high)
  else (low, high).

(** The bracket after [n] passes. *)
Fixpoint bisections (n : nat) (low high : float) : float * float :=
  match n with
  | O => (low, high)
  | S n' => let (l, h) := bisect low high in bisections n' l h
  end.

(** The loop test holds before each of the first [n] passes. *)
Fixpoint keeps_searching (n : nat) (low high : float) : bool :=
  match n with
  | O => true
  | S n' => (low + threshold <? high) &&
            let (l, h) := bisect low high in keeps_searching n' l h
  end.

End WithEpsilon.

(** [float(2 ** j)] does not overflow. *)
Definition convertible (j : nat) : bool :=
  is_return (float_of_int (2 ^ Z.of_nat j)).

(** Composed epsilons for examples: constantly 3, and a step from 2 down to
    1/2 at a given noise (both non-increasing in the noise). *)
Definition constant_epsilon : float -> float := fun _ => 3.
Definition step_epsilon (at_least : float) : float -> float :=
  fun noise => if noise <? at_least then 2 else 0.5.

(** The bracket [2^42] of the step at [3e12], and the two neighbouring
    floats at which its bisection arrives: [3e12 - 2^-11] and [3e12]. *)
Definition far_bracket : float := 0x1p+42.
Definition stalled_low : float := 3e12 - 0x1p-11.
Definition stalled_high : float := 3e12.
(** The bracket [2^39] of the step at [3e11], and the final bracket of its
    bisection: [3e11 - 2^-13] and [3e11]. *)
Definition wide_bracket : float := 0x1p+39.
Definition wide_low : float := 3e11 - 0x1p-13.
Definition wide_high : float := 3e11.
(** A step at the noise 3. *)
Definition near_step : float := 3.

End Binary64.

(** ** Callers: sequences of method calls *)

(** The two concrete classes. *)
Inductive strategy : Type := NaiveBudgetAccountant | PLDBudgetAccountant.

(** A call of the public protocol: [accountant.scope(...)], entering and
    leaving a scope object ([with] blocks), [request_budget] and
    [compute_budgets] (with the fuel given to the loops of the PLD search). *)
Inductive call : Type :=
| call_scope (weight : R) (aggregation_scope : bool)
| call_enter (sid : nat)
| call_exit (sid : nat)
| call_request_budget (mechanism_type : MechanismType)
    (sensitivity weight : R) (count : Z) (noise_standard_deviation : option R)
| call_compute_budgets (fuel : nat).

Definition is_compute (c : call) : bool :=
  match c with call_compute_budgets _ => true | _ => false end.

Definition ignore {S A} (m : M S A) : M S unit := (m ;;; ret tt)%py.

Section Callers.
Context {pldlib : PrivacyLossDistributionLib}.

Definition request_budget (k : strategy) :=
  match k with
  | NaiveBudgetAccountant => Naive.request_budget
  | PLDBudgetAccountant => PLD.request_budget
  end.

Definition compute_budgets (k : strategy) (fuel : nat) : M Heap unit :=
  match k with
  | NaiveBudgetAccountant => Naive.compute_budgets
  | PLDBudgetAccountant => PLD.compute_budgets fuel
  end.

Definition perform (k : strategy) (c : call) : M Heap unit :=
  match c with
  | call_scope w agg => ignore (scope w agg)
  | call_enter sid => ignore (__enter__ sid)
  | call_exit sid => __exit__ sid
  | call_request_budget mt s w n nsd => ignore (request_budget k mt s w n nsd)
  | call_compute_budgets fuel => compute_budgets k fuel
  end.

(** The heap after a sequence of calls, each of which returned or raised
    (the caller may catch the exception and go on); [None] when a call ran
    out of fuel. *)
Fixpoint run (k : strategy) (cs : list call) (h : Heap) : option Heap :=
  match cs with
  | [] => Some h
  | c :: cs' =>
      match perform k c h with
      | (Diverge, _) => None
      | (_, h') => run k cs' h'
      end
  end.

Definition construct (k : strategy) (total_epsilon total_delta : R)
    (pld_discretization : R) (n_aggregations : option Z)
    (aggregation_weights : option (list R)) : outcome Heap :=
  match k with
  | NaiveBudgetAccountant =>
      Naive.__init__ total_epsilon total_delta n_aggregations aggregation_weights
  | PLDBudgetAccountant =>
      PLD.__init__ total_epsilon total_delta pld_discretization
        n_aggregations aggregation_weights
  end.

(** The heaps a caller can produce: a constructed accountant followed by
    calls. *)
Definition reachable (k : strategy) (h : Heap) : Prop :=
  exists e d disc n ws h0 cs,
    construct k e d disc n ws = Return h0 /\ run k cs h0 = Some h.

End Callers.

(** ** Callers that use scopes in [with] blocks

    [with accountant.scope(weight, aggregation_scope): ...], as the
    docstring of [scope] prescribes: the scope is entered as soon as [scope]
    has returned it (nothing is entered when [scope] raises), and the end of
    a block leaves the innermost scope entered and not yet left, the last
    of the scope stack.  The calls inside a block may raise and be caught
    there. *)
Inductive block_call : Type :=
| block_open (weight : R) (aggregation_scope : bool)
| block_close
| block_request_budget (mechanism_type : MechanismType)
    (sensitivity weight : R) (count : Z) (noise_standard_deviation : option R)
| block_compute_budgets (fuel : nat).

(** Entering a block: [scope(weight, aggregation_scope)], then [__enter__]
    of the scope returned. *)
Definition open_block (weight : R) (aggregation_scope : bool) : M Heap unit :=
  (sid <- scope weight aggregation_scope ;; ignore (__enter__ sid))%py.

(** The end of the innermost block: [__exit__] of the scope entered last
    (nothing to leave when no block is open). *)
Definition close_block : M Heap unit :=
  (a <- get_self ;;
   match pop (_scopes_stack a) with
   | Some (_, sid) => __exit__ sid
   | None => ret tt
   end)%py.

Section Blocks.
Context {pldlib : PrivacyLossDistributionLib}.

Definition perform_block (k : strategy) (c : block_call) : M Heap unit :=
  match c with
  | block_open w agg => open_block w agg
  | block_close => close_block
  | block_request_budget mt s w n nsd => ignore (request_budget k mt s w n nsd)
  | block_compute_budgets fuel => compute_budgets k fuel
  end.

(** The heap after a sequence of such calls, as [run]. *)
Fixpoint run_blocks (k : strategy) (cs : list block_call) (h : Heap) : option Heap :=
  match cs with
  | [] => Some h
  | c :: cs' =>
      match perform_block k c h with
      | (Diverge, _) => None
      | (_, h') => run_blocks k cs' h'
      end
  end.

End Blocks.

(** ** Quantities of the specification *)

(** [W_eps]: the sum of [weight(m) * count(m)] over all mechanisms;
    [W_delta]: the same over the mechanisms that use delta. *)
Definition weighted_count (m : MechanismSpecInternal) : R :=
  weight m * IZR (count (mechanism_spec m)).
Definition W_eps (ms : list MechanismSpecInternal) : R :=
  sum (map weighted_count ms).
Definition W_delta (ms : list MechanismSpecInternal) : R :=
  sum (map weighted_count (filter (fun m => use_delta (mechanism_spec m)) ms)).

(** The budget the specification assigns to a mechanism. *)
Definition spec_eps (total_epsilon : R) (ms : list MechanismSpecInternal)
    (m : MechanismSpecInternal) : R :=
  if Req_dec_T (W_eps ms) 0 then 0 else total_epsilon * weight m / W_eps ms.
Definition spec_delta (total_delta : R) (ms : list MechanismSpecInternal)
    (m : MechanismSpecInternal) : R :=
  if use_delta (mechanism_spec m)
  then if Req_dec_T (W_delta ms) 0 then 0
       else total_delta * weight m / W_delta ms
  else 0.

(** The value of a field once written (0 while unset). *)
Definition written (o : option R) : R :=
  match o with Some v => v | None => 0 end.

(** The sums of the assigned budgets: plain, and weighted by the number of
    applications of each mechanism. *)
Definition sum_eps (ms : list MechanismSpecInternal) : R :=
  sum (map (fun m => written (_eps (mechanism_spec m))) ms).
Definition sum_eps_counted (ms : list MechanismSpecInternal) : R :=
  sum (map (fun m => written (_eps (mechanism_spec m))
                     * IZR (count (mechanism_spec m))) ms).
Definition sum_delta_counted (ms : list MechanismSpecInternal) : R :=
  sum (map (fun m => written (_delta (mechanism_spec m))
                     * IZR (count (mechanism_spec m)))
         (filter (fun m => use_delta (mechanism_spec m)) ms)).

(** The weight of the mechanism behind a reference. *)
Definition weight_at (h : Heap) (ref : nat) : R :=
  match nth_error (_mechanisms (self h)) ref with
  | Some m => weight m
  | None => 0
  end.

(** [S]: the sum of the weights of the mechanisms of a scope. *)
Definition scope_total (h : Heap) (sc : BudgetAccountantScope) : R :=
  sum (map (weight_at h) (mechanisms sc)).

(** All three lazy fields of a descriptor are unset. *)
Definition unset (sp : MechanismSpec) : Prop :=
  _noise_standard_deviation sp = None /\ _eps sp = None /\ _delta sp = None.

(** The descriptors of the registered mechanisms, in order. *)
Definition specs (h : Heap) : list MechanismSpec :=
  map mechanism_spec (_mechanisms (self h)).

(** Two heaps with the same finalisation flag and the same descriptors. *)
Definition same_specs (h h' : Heap) : Prop :=
  _finalized (self h') = _finalized (self h) /\ specs h' = specs h.

(** The lazy fields stay unset until the accountant is finalized. *)
Definition lazy_inv (h : Heap) : Prop :=
  _finalized (self h) = false -> Forall unset (specs h).

(** The accountant was given a number of aggregations or a non-empty list
    of aggregation weights: the test of [scope]. *)
Definition constrained (a : BudgetAccountant) : bool :=
  truthy_int (_n_aggregations a) || truthy_list (_aggregation_weights a).

(** A mechanism whose weight was multiplied by [factor] once for each
    occurrence of its reference in [refs]. *)
Definition rescaled (factor : R) (refs : list nat) (ref : nat)
    (m : MechanismSpecInternal) : MechanismSpecInternal :=
  set_weight (weight m * factor ^ count_occ Nat.eq_dec refs ref) m.

(** The references point to registered mechanisms. *)
Definition valid_refs (h : Heap) (refs : list nat) : Prop :=
  Forall (fun ref => (ref < length (_mechanisms (self h)))%nat) refs.

(** A mechanism with the budget of the specification written into its
    descriptor. *)
Definition assigned (total_epsilon total_delta : R)
    (ms : list MechanismSpecInternal) (m : MechanismSpecInternal)
    : MechanismSpecInternal :=
  set_mechanism_spec
    (mkMechanismSpec (mechanism_type (mechanism_spec m))
       (_noise_standard_deviation (mechanism_spec m))
       (Some (spec_eps total_epsilon ms m))
       (Some (spec_delta total_delta ms m))
       (_count (mechanism_spec m)))
    m.

(** A mechanism calibrated at the minimum noise [sigma]: its noise, and
    for a GENERIC mechanism its (eps, delta), as the specification gives
    them. *)
Definition calibrated (total_epsilon total_delta sigma : R)
    (m : MechanismSpecInternal) : MechanismSpecInternal :=
  let noise := sensitivity m * sigma / weight m in
  set_mechanism_spec
    (match mechanism_type (mechanism_spec m) with
     | GENERIC =>
         mkMechanismSpec GENERIC (Some noise) (Some (sqrt 2 / noise))
           (Some (sqrt 2 / noise / total_epsilon * total_delta))
           (_count (mechanism_spec m))
     | _ => set_noise_standard_deviation noise (mechanism_spec m)
     end)
    m.

(** ** Example heaps

    Heaps as the protocol produces them: a requested mechanism of
    sensitivity 1, an accountant without aggregation constraints, a scope
    without aggregation index. *)

Definition mechanism (t : MechanismType) (w : R) (c : Z) : MechanismSpecInternal :=
  mkMechanismSpecInternal 1 w (mkMechanismSpec t None None None c).

Definition accountant_of (total_epsilon total_delta : R)
    (stack : list nat) (ms : list MechanismSpecInternal) : BudgetAccountant :=
  mkAccountant stack ms false None None 0 false total_epsilon total_delta None 0.

Definition plain_scope (w : R) (refs : list nat) : BudgetAccountantScope :=
  mkScope w None None None refs.

(** Accountants with their totals, open scopes and requested mechanisms. *)
Definition counted_heap : Heap :=
  mkHeap (accountant_of 1 0 [] [mechanism LAPLACE 1 2]) [].
Definition negative_heap : Heap :=
  mkHeap (accountant_of 1 1 [] [mechanism GAUSSIAN (-1) 1]) [].
Definition split_heap : Heap :=
  mkHeap (accountant_of 1 (1/2) [] [mechanism LAPLACE 1 1; mechanism GAUSSIAN 3 1]) [].
Definition counted_split_heap : Heap :=
  mkHeap (accountant_of 1 (1/2) [] [mechanism LAPLACE 1 2; mechanism GAUSSIAN 3 5]) [].
Definition zero_weight_heap : Heap :=
  mkHeap (accountant_of 1 0 [0%nat] [mechanism LAPLACE 0 1]) [plain_scope 1 [0%nat]].
Definition two_in_scope_heap : Heap :=
  mkHeap (accountant_of 1 0 [0%nat] [mechanism LAPLACE 1 1; mechanism LAPLACE 3 1])
    [plain_scope 1 [0%nat; 1%nat]].
Definition open_scope_heap : Heap :=
  mkHeap (accountant_of 1 0 [0%nat] []) [plain_scope 1 []].
Definition laplace_heap : Heap :=
  mkHeap (accountant_of 2 0 [] [mechanism LAPLACE 1 1]) [].
Definition generic_heap : Heap :=
  mkHeap (accountant_of 2 0 [] [mechanism GENERIC 1 1]) [].
(** ** A library for examples

    A collaborator whose composed epsilon is constantly 3. *)
Definition constant_lib : PrivacyLossDistributionLib :=
  {| PrivacyLossDistribution := unit;
     from_laplace_mechanism := fun _ _ => tt;
     from_gaussian_mechanism := fun _ _ => tt;
     from_privacy_parameters := fun _ _ _ => tt;
     compose := fun _ _ => tt;
     get_epsilon_for_delta := fun _ _ => 3 |}.

(** ** Further quantities and examples *)

(** The totals and constraints a constructor accepts. *)
Definition valid_arguments (e d : R) (n : option Z) (ws : option (list R)) : Prop :=
  0 < e /\ 0 <= d /\ (n = None \/ ws = None) /\
  (forall z, n = Some z -> (0 < z)%Z).

(** Every scope on the stack was created, and every mechanism listed in a
    scope is registered. *)
Definition well_formed (h : Heap) : Prop :=
  Forall (fun sid => (sid < length (scope_objects h))%nat) (_scopes_stack (self h)) /\
  Forall (fun sc => valid_refs h (mechanisms sc)) (scope_objects h).

(** A scope in whose list [ref] was appended once for each occurrence of the
    scope on the stack. *)
Definition registered (ref : nat) (stack : list nat) (sid : nat)
    (sc : BudgetAccountantScope) : BudgetAccountantScope :=
  set_scope_mechanisms
    (mechanisms sc ++ repeat ref (count_occ Nat.eq_dec stack sid)) sc.

(** The arguments and the state in which [request_budget] is accepted. *)
Definition request_accepted (k : strategy) (h : Heap) (mt : MechanismType)
    (c : Z) (nsd : option R) : Prop :=
  _finalized (self h) = false /\ nsd = None /\
  (k = PLDBudgetAccountant -> c = 1%Z) /\
  ~ (mt = GAUSSIAN /\ _total_delta (self h) = 0).

(** The checks of [scope] on the weight and the index of an aggregation
    scope, as [scope] writes them. *)
Definition aggregation_checks (a : BudgetAccountant) (weight : R)
    (aggregation_index : nat) : M Heap unit :=
  if truthy_int (_n_aggregations a) then
    match _n_aggregations a with
    | Some n =>
        if (n <=? Z.of_nat aggregation_index)%Z
        then raise (ValueError "Exceeded the number of allowed aggregations.")
        else if Req_bool weight 1 then ret tt
        else raise (ValueError "all aggregation weights have to be 1")
    | None => ret tt
    end
  else
    match _aggregation_weights a with
    | Some ws =>
        if (length ws <=? aggregation_index)%nat
        then raise (ValueError "Exceeded the number of allowed aggregations.")
        else match nth_error ws aggregation_index with
             | None => raise IndexError
             | Some expected_weight =>
                 if Req_bool weight expected_weight then ret tt
                 else raise (ValueError "The provided weight differs from 'aggregation_weights'")
             end
    | None => raise (AssertionError "It should not happen.")
    end.

(** The properties [epsilon] and [delta] of a scope ([None] is Python's
    [None]). *)
Definition scope_epsilon (s : BudgetAccountantScope) : outcome (option R) :=
  (_ <~ _validate_epsilon_delta_scope s ;; Return (_epsilon s))%py.
Definition scope_delta (s : BudgetAccountantScope) : outcome (option R) :=
  (_ <~ _validate_epsilon_delta_scope s ;; Return (s_delta s))%py.

(** The accountant after [_get_next_aggregation_index]. *)
Definition index_consumed (h : Heap) : Heap :=
  mkHeap (set_next_aggregation_index (_next_aggregation_index (self h) + 1) (self h))
    (scope_objects h).

(** The eager epsilon of the aggregation scope of index [i] (0 when it
    cannot be computed). *)
Definition eager_epsilon (a : BudgetAccountant) (i : nat) : R :=
  match _compute_budget_for_aggregation_scope a i with
  | Return (Some e, _) => e
  | _ => 0
  end.
Definition eager_delta (a : BudgetAccountant) (i : nat) : R :=
  match _compute_budget_for_aggregation_scope a i with
  | Return (_, Some d) => d
  | _ => 0
  end.

(** What no call changes of a registered mechanism. *)
Definition identity_of (m : MechanismSpecInternal) : R * MechanismType * Z :=
  (sensitivity m, mechanism_type (mechanism_spec m), _count (mechanism_spec m)).

(** What the PLD calibration needs of a mechanism. *)
Definition calibratable (total_epsilon sigma : R) (m : MechanismSpecInternal)
    : Prop :=
  weight m <> 0 /\
  (mechanism_type (mechanism_spec m) = GENERIC ->
   sensitivity m <> 0 /\ sigma <> 0 /\ total_epsilon <> 0).

(** [h'] keeps every mechanism of [h], with its sensitivity, type and count. *)
Definition extends_registry (h h' : Heap) : Prop :=
  exists suffix,
    map identity_of (_mechanisms (self h'))
    = map identity_of (_mechanisms (self h)) ++ suffix.

(** A fresh accountant, one with a scope created, one with a mechanism
    requested inside an entered scope, and accountants that declare two
    aggregations, by number and by weights. *)
Definition fresh_heap : Heap := mkHeap (accountant_of 1 0 [] []) [].
Definition scope_created_heap : Heap :=
  mkHeap (accountant_of 1 0 [] []) [plain_scope 1 []].
Definition one_in_scope_heap : Heap :=
  mkHeap (accountant_of 1 0 [0%nat] [mechanism LAPLACE 1 1])
    [plain_scope 1 [0%nat]].
Definition two_aggregations_heap : Heap :=
  mkHeap (mkAccountant [] [] false (Some 2%Z) None 0 false 1 0 None 0) [].
Definition weighted_aggregations_heap : Heap :=
  mkHeap (mkAccountant [] [] false None (Some [1; 3]) 0 false 1 0 None 0) [].

(** The weight of a mechanism counted once per application, and the eps
    assigned to it counted likewise, by reference. *)
Definition weighted_count_at (h : Heap) (ref : nat) : R :=
  match nth_error (_mechanisms (self h)) ref with
  | Some m => weighted_count m
  | None => 0
  end.
Definition eps_counted_at (h : Heap) (ref : nat) : R :=
  match nth_error (_mechanisms (self h)) ref with
  | Some m => written (_eps (mechanism_spec m)) * IZR (count (mechanism_spec m))
  | None => 0
  end.

(** The scope behind a reference is an aggregation scope. *)
Definition aggregation_scope_at (h : Heap) (sid : nat) : bool :=
  match nth_error (scope_objects h) sid with
  | Some sc => is_aggregation_scope sc
  | None => false
  end.

(** The entries of the scope stack that are aggregation scopes. *)
Definition open_aggregation_scopes (h : Heap) : list nat :=
  filter (aggregation_scope_at h) (_scopes_stack (self h)).

(** Inside an open aggregation scope: one is on the scope stack. *)
Definition in_open_aggregation_scope (h : Heap) : Prop :=
  exists sid sc,
    In sid (_scopes_stack (self h)) /\
    nth_error (scope_objects h) sid = Some sc /\
    is_aggregation_scope sc = true.

(** The scope stack refers to created scopes, it holds at most one
    aggregation scope, and the flag [_inside_aggregation_scope] says whether
    it holds one. *)
Definition nesting_inv (h : Heap) : Prop :=
  Forall (fun sid => (sid < length (scope_objects h))%nat) (_scopes_stack (self h)) /\
  length (open_aggregation_scopes h)
  = (if _inside_aggregation_scope (self h) then 1 else 0)%nat.

(** Two heaps with the same scope stack, flag, kinds of scopes and
    constraint. *)
Definition same_nesting (h h' : Heap) : Prop :=
  _scopes_stack (self h') = _scopes_stack (self h) /\
  _inside_aggregation_scope (self h') = _inside_aggregation_scope (self h) /\
  map is_aggregation_scope (scope_objects h') = map is_aggregation_scope (scope_objects h) /\
  constrained (self h') = constrained (self h).

(** * Properties *)

(** ** Numbers and lists *)

Lemma Req_bool_true x y : x = y -> Req_bool x y = true.
Proof. unfold Req_bool. destruct (Req_dec_T x y); congruence. Qed.

Lemma Req_bool_false x y : x <> y -> Req_bool x y = false.
Proof. unfold Req_bool. destruct (Req_dec_T x y); congruence. Qed.

Lemma Rle_bool_true x y : x <= y -> Rle_bool x y = true.
Proof. unfold Rle_bool. destruct (Rle_dec x y); tauto. Qed.

Lemma Rle_bool_false x y : y < x -> Rle_bool x y = false.
Proof. unfold Rle_bool. destruct (Rle_dec x y); auto; lra. Qed.

Lemma Rlt_bool_true x y : x < y -> Rlt_bool x y = true.
Proof. unfold Rlt_bool. destruct (Rlt_dec x y); tauto. Qed.

Lemma Rlt_bool_false x y : y <= x -> Rlt_bool x y = false.
Proof. unfold Rlt_bool. destruct (Rlt_dec x y); auto; lra. Qed.

Lemma truthy_true x : x <> 0 -> truthy x = true.
Proof. unfold truthy. destruct (Req_dec_T x 0); congruence. Qed.

Lemma truthy_false x : x = 0 -> truthy x = false.
Proof. unfold truthy. destruct (Req_dec_T x 0); congruence. Qed.

Lemma pdiv_ok x y : y <> 0 -> pdiv x y = Return (x / y).
Proof. unfold pdiv. destruct (Req_dec_T y 0); congruence. Qed.

Lemma pdiv_zero x y : y = 0 -> pdiv x y = Raise ZeroDivisionError.
Proof. unfold pdiv. destruct (Req_dec_T y 0); congruence. Qed.

Lemma sqrt2_neq_0 : sqrt 2 <> 0.
Proof. apply Rgt_not_eq. apply sqrt_lt_R0. lra. Qed.

Arguments Req_bool : simpl never.
Arguments Rle_bool : simpl never.
Arguments Rlt_bool : simpl never.
Arguments truthy : simpl never.
Arguments pdiv : simpl never.

(** Evaluation of the tests and divisions on concrete numbers. *)
Ltac eval_R :=
  repeat match goal with
  | |- context [Req_bool ?x ?y] =>
      first [rewrite (Req_bool_true x y) by lra
            | rewrite (Req_bool_false x y) by lra]
  | |- context [Rle_bool ?x ?y] =>
      first [rewrite (Rle_bool_true x y) by lra
            | rewrite (Rle_bool_false x y) by lra]
  | |- context [Rlt_bool ?x ?y] =>
      first [rewrite (Rlt_bool_true x y) by lra
            | rewrite (Rlt_bool_false x y) by lra]
  | |- context [truthy ?x] =>
      first [rewrite (truthy_true x) by lra
            | rewrite (truthy_false x) by lra]
  | |- context [pdiv ?x ?y] =>
      first [rewrite (pdiv_ok x y) by lra
            | rewrite (pdiv_zero x y) by lra]
  end.

Ltac break_match :=
  match goal with
  | H : context [match ?x with _ => _ end] |- _ => destruct x eqn:?
  | |- context [match ?x with _ => _ end] => destruct x eqn:?
  end.

Ltac inv H := inversion H; subst; clear H.

Lemma fold_left_Rplus_acc (l : list R) (a : R) :
  fold_left Rplus l a = a + fold_left Rplus l 0.
Proof.
  revert a; induction l as [|x l IH]; intros a; cbn.
  - lra.
  - rewrite IH, (IH (0 + x)). lra.
Qed.

Lemma sum_nil : sum [] = 0.
Proof. reflexivity. Qed.

Lemma sum_cons x l : sum (x :: l) = x + sum l.
Proof. unfold sum; cbn. rewrite fold_left_Rplus_acc. lra. Qed.

Lemma sum_map_scale {A} (f : A -> R) (c : R) (l : list A) :
  sum (map (fun x => c * f x) l) = c * sum (map f l).
Proof.
  induction l as [|x l IH]; cbn [map].
  - rewrite sum_nil. lra.
  - rewrite !sum_cons, IH. lra.
Qed.

Lemma sum_map_ext {A} (f g : A -> R) (l : list A) :
  (forall x, In x l -> f x = g x) -> sum (map f l) = sum (map g l).
Proof.
  intros H. f_equal. apply map_ext_in. exact H.
Qed.

Lemma update_length {A} (l : list A) i v : length (update l i v) = length l.
Proof.
  revert i; induction l as [|x l IH]; intros [|i]; cbn; auto.
Qed.

Lemma nth_error_update_eq {A} (l : list A) i v :
  (i < length l)%nat -> nth_error (update l i v) i = Some v.
Proof.
  revert i; induction l as [|x l IH]; intros [|i] H; cbn in *; try lia; auto.
  apply IH. lia.
Qed.

Lemma nth_error_update_neq {A} (l : list A) i j v :
  i <> j -> nth_error (update l i v) j = nth_error l j.
Proof.
  revert i j; induction l as [|x l IH]; intros [|i] [|j] H; cbn; auto.
  congruence.
Qed.

Lemma update_map_same {A B} (f : A -> B) (l : list A) i v x :
  nth_error l i = Some x -> f v = f x -> map f (update l i v) = map f l.
Proof.
  revert i; induction l as [|y l IH]; intros [|i] H E; cbn in *; try discriminate.
  - inv H. now rewrite E.
  - f_equal. eauto.
Qed.

Lemma pop_nil_iff {A} (l : list A) : pop l = None <-> l = [].
Proof.
  destruct l as [|x l]; cbn; [tauto|].
  split; [|discriminate].
  destruct (pop l) as [[r y]|]; discriminate.
Qed.

Lemma pop_app {A} (l : list A) (x : A) : pop (l ++ [x]) = Some (l, x).
Proof.
  induction l as [|y l IH]; cbn; auto. now rewrite IH.
Qed.

(** ** The effect of each method on the heap *)

Ltac inv_pairs :=
  repeat match goal with
         | H : (_, _) = (_, _) |- _ => inv H
         | H : Return _ = Return _ |- _ => inv H
         | H : Some _ = Some _ |- _ => inv H
         end.

Ltac unfold_M :=
  unfold ignore, get_self, modify_self, deref_scope, assign_scope, new_scope,
    deref_mechanism, assign_mechanism in *;
  unfold bind, ret, raise, get, put, modify, lift, obind in *.

Ltac simp_M :=
  repeat (cbn in *; inv_pairs; try discriminate; try break_match).

Lemma same_specs_refl h : same_specs h h.
Proof. split; reflexivity. Qed.

Lemma same_specs_trans h1 h2 h3 :
  same_specs h1 h2 -> same_specs h2 h3 -> same_specs h1 h3.
Proof. intros [A B] [C D]. split; congruence. Qed.

Lemma _finalize_cases h :
  (exists e, _finalize h = (Raise e, h)) \/
  (_finalized (self h) = false /\
   _finalize h = (Return tt, mkHeap (set_finalized true (self h)) (scope_objects h))).
Proof.
  destruct h as [a objs].
  unfold _finalize, _check_number_aggregation_scopes. unfold_M.
  simp_M; eauto.
Qed.

Lemma scope_effect w agg h o h' :
  scope w agg h = (o, h') -> same_specs h h'.
Proof.
  destruct h as [a objs].
  unfold scope, BudgetAccountantScope__init__, _get_next_aggregation_index.
  unfold_M. intros H.
  simp_M; split; reflexivity.
Qed.

Lemma enter_effect sid h o h' :
  __enter__ sid h = (o, h') -> same_specs h h'.
Proof.
  destruct h as [a objs].
  unfold __enter__, _enter_scope. unfold_M. intros H.
  simp_M; split; reflexivity.
Qed.

Lemma _exit_scope_effect h o h' :
  _exit_scope h = (o, h') ->
  _finalized (self h') = _finalized (self h) /\
  _mechanisms (self h') = _mechanisms (self h).
Proof.
  destruct h as [a objs].
  unfold _exit_scope. unfold_M. intros H.
  simp_M; split; reflexivity.
Qed.

(** Reading the weights does not change the heap. *)
Lemma comprehension_weights refs h o h' :
  comprehension refs
    (fun ref => (m <- deref_mechanism ref ;; ret (weight m))%py) h = (o, h') ->
  h' = h.
Proof.
  revert o; induction refs as [|r refs IH]; intros o H; cbn in H.
  - unfold_M. now inv H.
  - unfold bind at 1 in H. unfold bind at 1 in H.
    unfold deref_mechanism at 1 in H.
    destruct (nth_error (_mechanisms (self h)) r); cbn in H; [|now inv H].
    unfold bind at 1 in H.
    destruct (comprehension refs _ h) as [[ws| |] h1] eqn:E; cbn in H;
      inv H; eauto.
Qed.

(** The loop of [_normalise_mechanism_weights] rescales weights only. *)
Lemma rescale_loop_effect factor refs h o h' :
  for_each refs
    (fun ref => (m <- deref_mechanism ref ;;
                 assign_mechanism ref (set_weight (weight m * factor) m))%py) h
  = (o, h') ->
  same_specs h h' /\ scope_objects h' = scope_objects h.
Proof.
  revert h; induction refs as [|r refs IH]; intros h H; cbn in H.
  - unfold_M. inv H. split; [apply same_specs_refl|reflexivity].
  - unfold bind at 1 in H. unfold bind at 1 in H.
    unfold deref_mechanism at 1 in H.
    destruct (nth_error (_mechanisms (self h)) r) as [m|] eqn:E; cbn in H.
    + apply IH in H. destruct H as [[F S] O]. cbn in *.
      split; [split|]; auto.
      rewrite S. unfold specs; cbn.
      eapply update_map_same; eauto.
    + inv H. split; [apply same_specs_refl|reflexivity].
Qed.

Lemma normalise_effect sid h o h' :
  _normalise_mechanism_weights sid h = (o, h') -> same_specs h h'.
Proof.
  unfold _normalise_mechanism_weights.
  unfold bind at 1. unfold deref_scope.
  destruct (nth_error (scope_objects h) sid) as [sc|]; cbn.
  2:{ intros H; inv H. apply same_specs_refl. }
  destruct (mechanisms sc) as [|r refs] eqn:Em.
  - unfold_M. intros H; inv H. apply same_specs_refl.
  - unfold bind at 1.
    destruct (comprehension (r :: refs) _ h) as [[ws| |] h1] eqn:E;
      apply comprehension_weights in E; subst h1;
      try (intros H; inv H; apply same_specs_refl).
    unfold bind at 1. unfold lift.
    destruct (pdiv (s_weight sc) (sum ws)) as [f| |];
      try (intros H; inv H; apply same_specs_refl).
    intros H. apply rescale_loop_effect in H. tauto.
Qed.

Lemma exit_effect sid h o h' :
  __exit__ sid h = (o, h') -> same_specs h h'.
Proof.
  unfold __exit__. unfold bind at 1.
  destruct (_exit_scope h) as [[[]| |] h1] eqn:E; intros H;
    apply _exit_scope_effect in E; destruct E as [F S].
  - apply normalise_effect in H. destruct H as [F' S'].
    split; [congruence|]. rewrite S'. unfold specs. now rewrite S.
  - inv H. split; auto. unfold specs. now rewrite S.
  - inv H. split; auto. unfold specs. now rewrite S.
Qed.

(** Registration appends the mechanism and touches scope objects only. *)
Lemma register_loop_effect ref stack h o h' :
  for_each stack
    (fun sid => (sc <- deref_scope sid ;;
                 assign_scope sid
                   (set_scope_mechanisms (mechanisms sc ++ [ref]) sc))%py) h
  = (o, h') ->
  self h' = self h.
Proof.
  revert h; induction stack as [|s stack IH]; intros h H; cbn in H.
  - unfold_M. now inv H.
  - unfold bind at 1 in H. unfold bind at 1 in H.
    unfold deref_scope at 1 in H.
    destruct (nth_error (scope_objects h) s) as [sc|]; cbn in H.
    + apply IH in H. exact H.
    + now inv H.
Qed.

Lemma _register_mechanism_effect m h o h' :
  _register_mechanism m h = (o, h') ->
  self h' = set_mechanisms (_mechanisms (self h) ++ [m]) (self h) /\
  (forall ref, o = Return ref -> ref = length (_mechanisms (self h))).
Proof.
  unfold _register_mechanism. intros H.
  unfold bind at 1 in H. unfold get_self at 1 in H.
  unfold bind at 1 in H. unfold modify_self at 1 in H. unfold modify at 1 in H.
  unfold bind at 1 in H.
  match type of H with context [for_each ?l ?b ?x] =>
    destruct (for_each l b x) as [[[]| |] h1] eqn:E end;
    apply register_loop_effect in E; cbn in E; unfold_M; inv H;
    split; auto; intros ref Hr; now inv Hr.
Qed.

Section Protocol.
Context {pldlib : PrivacyLossDistributionLib}.

Lemma request_budget_effect k mt s w n nsd h o h' :
  request_budget k mt s w n nsd h = (o, h') ->
  (is_raise o = true /\ h' = h) \/
  (_finalized (self h) = false /\
   (forall ref, o = Return ref -> ref = length (_mechanisms (self h))) /\
   exists c,
     self h' =
     set_mechanisms
       (_mechanisms (self h) ++
        [mkMechanismSpecInternal s w (mkMechanismSpec mt None None None c)])
       (self h)).
Proof.
  destruct k; unfold request_budget, Naive.request_budget, PLD.request_budget;
    unfold bind at 1; unfold get_self at 1;
    destruct (_finalized (self h)) eqn:F; unfold raise;
    try (intros H; inv H; left; split; reflexivity).
  - destruct nsd; [intros H; inv H; left; split; reflexivity|].
    destruct (_ && _); [intros H; inv H; left; split; reflexivity|].
    intros H. right. split; auto.
    pose proof (_register_mechanism_effect _ _ _ _ H) as [E R]. eauto.
  - destruct (_ || _); [intros H; inv H; left; split; reflexivity|].
    destruct (_ && _); [intros H; inv H; left; split; reflexivity|].
    intros H. right. split; auto.
    pose proof (_register_mechanism_effect _ _ _ _ H) as [E R]. eauto.
Qed.

Lemma for_each_object_length {A} (body : M A unit) (objs : list A) :
  length (snd (for_each_object body objs)) = length objs.
Proof.
  induction objs as [|x rest IH]; cbn; auto.
  destruct (body x) as [[[]| |] x']; cbn; auto.
  destruct (for_each_object body rest) as [o rest']; cbn in *. now rewrite IH.
Qed.

Lemma for_mechanisms_effect body h o h' :
  for_mechanisms body h = (o, h') ->
  _finalized (self h') = _finalized (self h) /\
  length (_mechanisms (self h')) = length (_mechanisms (self h)).
Proof.
  unfold for_mechanisms.
  pose proof (for_each_object_length body (_mechanisms (self h))) as L.
  destruct (for_each_object body (_mechanisms (self h))) as [o2 ms'].
  intros H; inv H. split; [reflexivity|exact L].
Qed.

Lemma compute_budgets_effect k fuel h o h' :
  compute_budgets k fuel h = (o, h') ->
  (is_raise o = true /\ h' = h) \/
  (_finalized (self h) = false /\ _finalized (self h') = true /\
   length (_mechanisms (self h')) = length (_mechanisms (self h))).
Proof.
  destruct (_finalize_cases h) as [[e E]|[F E]].
  - destruct k; unfold compute_budgets, Naive.compute_budgets, PLD.compute_budgets;
      unfold bind at 1; rewrite E; intros H; inv H; left; auto.
  - intros H. right. split; auto. revert H.
    destruct k; unfold compute_budgets, Naive.compute_budgets, PLD.compute_budgets;
      unfold bind at 1; rewrite E; unfold bind at 1; unfold get_self at 1;
      cbn [self _mechanisms set_finalized _scopes_stack];
      destruct (_mechanisms (self h)) eqn:Ms; unfold_M;
      try (intros H; inv H; cbn; rewrite Ms; split; reflexivity);
      destruct (_scopes_stack (self h));
      try (intros H; inv H; cbn; rewrite Ms; split; reflexivity).
    + intros H. apply for_mechanisms_effect in H. cbn in H. now rewrite Ms in H.
    + match goal with |- context [PLD.closed_form_or_search ?f ?a] =>
        destruct (PLD.closed_form_or_search f a) end;
        intros H; try (inv H; cbn; rewrite Ms; split; reflexivity).
      apply for_mechanisms_effect in H. cbn in H. now rewrite Ms in H.
Qed.

End Protocol.

(** ** The life cycle of the accountant *)

Section Lifecycle.
Context {pldlib : PrivacyLossDistributionLib}.

Lemma ignore_eq {A} (m : M Heap A) h o h' :
  ignore m h = (o, h') -> exists o', m h = (o', h').
Proof.
  unfold ignore, bind, ret. destruct (m h) as [[a| |] h1]; intros H; inv H; eauto.
Qed.

Lemma perform_effect k c h o h' :
  perform k c h = (o, h') ->
  same_specs h h' \/
  (is_compute c = false /\ _finalized (self h) = false /\
   _finalized (self h') = false /\
   exists sp, unset sp /\ specs h' = specs h ++ [sp]) \/
  (is_compute c = true /\ _finalized (self h) = false /\
   _finalized (self h') = true /\ length (specs h') = length (specs h)).
Proof.
  destruct c; cbn [perform]; intros H.
  - apply ignore_eq in H. destruct H as [o' H]. left. eapply scope_effect; eauto.
  - apply ignore_eq in H. destruct H as [o' H]. left. eapply enter_effect; eauto.
  - left. eapply exit_effect; eauto.
  - apply ignore_eq in H. destruct H as [o' H].
    apply request_budget_effect in H. destruct H as [[_ ->]|(F & _ & c & E)].
    + left. apply same_specs_refl.
    + right; left. repeat split; auto.
      * rewrite E. exact F.
      * eexists. split; [|unfold specs; rewrite E; cbn; rewrite map_app; reflexivity].
        repeat split.
  - apply compute_budgets_effect in H. destruct H as [[_ ->]|(F & F' & L)].
    + left. apply same_specs_refl.
    + right; right. unfold specs. rewrite !length_map. auto.
Qed.

Lemma perform_finalized k c h o h' :
  perform k c h = (o, h') ->
  _finalized (self h) = true -> _finalized (self h') = true.
Proof.
  intros H F. apply perform_effect in H.
  destruct H as [[E _]|[(_ & F' & _)|(_ & F' & _)]]; congruence.
Qed.

Lemma run_finalized k cs h h' :
  run k cs h = Some h' ->
  _finalized (self h) = true -> _finalized (self h') = true.
Proof.
  revert h; induction cs as [|c cs IH]; intros h H F; cbn in H.
  - now inv H.
  - destruct (perform k c h) as [[[]| |] h1] eqn:E; try discriminate;
      apply (IH h1 H); eapply perform_finalized; eauto.
Qed.

Lemma perform_lazy_inv k c h o h' :
  perform k c h = (o, h') -> lazy_inv h -> lazy_inv h'.
Proof.
  intros H I. apply perform_effect in H. unfold lazy_inv in *.
  destruct H as [[E S]|[(_ & F & _ & sp & U & S)|(_ & _ & F' & _)]]; intros F0.
  - rewrite S. apply I. congruence.
  - rewrite S. apply Forall_app. split; auto.
  - congruence.
Qed.

Lemma BudgetAccountant__init___fresh n ws a :
  BudgetAccountant__init__ n ws = Return a ->
  a = mkAccountant [] [] false n ws 0%nat false 0 0 None 0.
Proof.
  unfold BudgetAccountant__init__.
  destruct n as [z|], ws; try discriminate;
    try destruct (z <=? 0)%Z; try discriminate; intros H; now inv H.
Qed.

Lemma construct_fresh k e d disc n ws h0 :
  construct k e d disc n ws = Return h0 ->
  _mechanisms (self h0) = [] /\ _scopes_stack (self h0) = [] /\
  _finalized (self h0) = false /\ scope_objects h0 = [] /\
  _n_aggregations (self h0) = n /\ _aggregation_weights (self h0) = ws /\
  _total_epsilon (self h0) = e /\ _total_delta (self h0) = d /\
  0 < e /\ 0 <= d.
Proof.
  destruct k; cbn [construct]; unfold Naive.__init__, PLD.__init__, obind;
    destruct (BudgetAccountant__init__ n ws) as [a| |] eqn:E; try discriminate;
    apply BudgetAccountant__init___fresh in E; subst a;
    unfold _validate_epsilon_delta;
    unfold Rle_bool, Rlt_bool;
    destruct (Rle_dec e 0); try discriminate;
    destruct (Rlt_dec d 0); try discriminate;
    intros H; inv H; cbn; repeat split; auto; lra.
Qed.

Lemma construct_lazy_inv k e d disc n ws h0 :
  construct k e d disc n ws = Return h0 -> lazy_inv h0.
Proof.
  intros H. apply construct_fresh in H. destruct H as (Ms & _).
  intros _. unfold specs. rewrite Ms. constructor.
Qed.

Lemma run_lazy_inv k cs h h' :
  run k cs h = Some h' -> lazy_inv h -> lazy_inv h'.
Proof.
  revert h; induction cs as [|c cs IH]; intros h H I; cbn in H.
  - now inv H.
  - destruct (perform k c h) as [[[]| |] h1] eqn:E; try discriminate;
      apply (IH h1 H); eapply perform_lazy_inv; eauto.
Qed.

Lemma reachable_lazy_inv k h : reachable k h -> lazy_inv h.
Proof.
  intros (e & d & disc & n & ws & h0 & cs & C & R).
  eapply run_lazy_inv; eauto. eapply construct_lazy_inv; eauto.
Qed.

Lemma compute_budgets_finalized k fuel h :
  _finalized (self h) = true ->
  exists e, compute_budgets k fuel h = (Raise e, h).
Proof.
  intros F. destruct (_finalize_cases h) as [[e E]|[F' _]]; [|congruence].
  exists e.
  destruct k; unfold compute_budgets, Naive.compute_budgets, PLD.compute_budgets;
    unfold bind at 1; rewrite E; reflexivity.
Qed.

Lemma request_budget_finalized k mt s w n nsd h :
  _finalized (self h) = true ->
  request_budget k mt s w n nsd h = (Raise (Exception_ after_compute_msg), h).
Proof.
  intros F.
  destruct k; unfold request_budget, Naive.request_budget, PLD.request_budget;
    unfold bind at 1; unfold get_self at 1; rewrite F; reflexivity.
Qed.

(** C8.  Once [compute_budgets] has returned, of either accountant, the
    accountant stays finalized whatever the caller does next: after any
    further sequence of calls, every [request_budget] raises and every
    [compute_budgets] raises, both leaving the heap as it is. *)
Theorem finalized_irreversibly k fuel h h1 :
    compute_budgets k fuel h = (Return tt, h1) ->
    forall cs h2, run k cs h1 = Some h2 ->
      (forall mt s w n nsd,
          request_budget k mt s w n nsd h2
          = (Raise (Exception_ after_compute_msg), h2)) /\
      (forall fuel', exists e, compute_budgets k fuel' h2 = (Raise e, h2)).
Proof.
  intros C cs h2 R.
  assert (F1 : _finalized (self h1) = true).
  { apply compute_budgets_effect in C. destruct C as [[X _]|(_ & F & _)]; [discriminate|exact F]. }
  pose proof (run_finalized _ _ _ _ R F1) as F2.
  split.
  - intros. now apply request_budget_finalized.
  - intros. now apply compute_budgets_finalized.
Qed.

(** C3, as amended.  With a scope still open, [compute_budgets] of either
    accountant starts with [_finalize]; when [_finalize] raises, so does
    [compute_budgets], with the same exception and the heap unchanged.
    When [_finalize] passes and at least one mechanism is registered,
    [compute_budgets] raises the exception about the open scope and leaves
    the accountant finalized, nothing else changed.  When [_finalize]
    passes and no mechanism is registered, the scope stack is not looked
    at: [compute_budgets] returns, the accountant finalized. *)
Theorem compute_budgets_in_open_scope k fuel h :
    _scopes_stack (self h) <> [] ->
    let finalized := mkHeap (set_finalized true (self h)) (scope_objects h) in
    (_mechanisms (self h) <> [] ->
       (exists e, _finalize h = (Raise e, h) /\
                  compute_budgets k fuel h = (Raise e, h)) \/
       (_finalized (self h) = false /\
        _finalize h = (Return tt, finalized) /\
        compute_budgets k fuel h = (Raise (Exception_ in_scope_msg), finalized))) /\
    (_mechanisms (self h) = [] ->
       (exists e, _finalize h = (Raise e, h) /\
                  compute_budgets k fuel h = (Raise e, h)) \/
       (_finalized (self h) = false /\
        _finalize h = (Return tt, finalized) /\
        compute_budgets k fuel h = (Return tt, finalized))).
Proof.
  intros S finalized. subst finalized.
  split; intros Ms;
    (destruct (_finalize_cases h) as [[e E]|[F E]];
     [ left; exists e; split; [exact E|];
       destruct k; unfold compute_budgets, Naive.compute_budgets, PLD.compute_budgets;
         unfold bind at 1; rewrite E; reflexivity
     | right; split; [exact F|]; split; [exact E|];
       destruct k; unfold compute_budgets, Naive.compute_budgets, PLD.compute_budgets;
         unfold bind at 1; rewrite E; unfold bind at 1; unfold get_self at 1;
         cbn [self _mechanisms set_finalized _scopes_stack];
         destruct (_mechanisms (self h)); try congruence;
         destruct (_scopes_stack (self h)); try congruence; reflexivity ]).
Qed.


Lemma unset_reads sp :
  unset sp ->
  noise_standard_deviation sp = Raise (AssertionError not_calculated_noise) /\
  eps sp = Raise (AssertionError not_calculated_budget) /\
  delta sp = Raise (AssertionError not_calculated_budget).
Proof.
  intros (A & B & C). unfold noise_standard_deviation, eps, delta.
  now rewrite A, B, C.
Qed.

(** C9.  On every heap a caller can reach: the descriptor returned by
    [request_budget] has its three lazy fields unset and reading any of them
    raises the not-calculated-yet assertion; as long as [compute_budgets]
    has not run, this holds of every registered descriptor; a call other
    than [compute_budgets] leaves every descriptor as it is, and no call
    ever changes a field that has been written. *)
Theorem lazy_fields_written_once k h :
    reachable k h ->
    (forall mt s w n nsd ref h',
        request_budget k mt s w n nsd h = (Return ref, h') ->
        exists sp, nth_error (specs h') ref = Some sp /\
          noise_standard_deviation sp = Raise (AssertionError not_calculated_noise) /\
          eps sp = Raise (AssertionError not_calculated_budget) /\
          delta sp = Raise (AssertionError not_calculated_budget)) /\
    (_finalized (self h) = false ->
     forall sp, In sp (specs h) ->
       noise_standard_deviation sp = Raise (AssertionError not_calculated_noise) /\
       eps sp = Raise (AssertionError not_calculated_budget) /\
       delta sp = Raise (AssertionError not_calculated_budget)) /\
    (forall c o h' ref sp,
        perform k c h = (o, h') ->
        nth_error (specs h) ref = Some sp ->
        exists sp', nth_error (specs h') ref = Some sp' /\
          (is_compute c = false -> sp' = sp) /\
          (forall v, _noise_standard_deviation sp = Some v ->
                     _noise_standard_deviation sp' = Some v) /\
          (forall v, _eps sp = Some v -> _eps sp' = Some v) /\
          (forall v, _delta sp = Some v -> _delta sp' = Some v)).
Proof.
  intros Rh. pose proof (reachable_lazy_inv _ _ Rh) as I.
  split; [|split].
  - intros mt s w n nsd ref h' H.
    apply request_budget_effect in H.
    destruct H as [[X _]|(F & Href & c & E)].
    + discriminate.
    + rewrite (Href ref eq_refl). eexists. split.
      * unfold specs. rewrite E. cbn. rewrite map_app, nth_error_app2; rewrite length_map; [|lia].
        rewrite Nat.sub_diag. reflexivity.
      * apply unset_reads. repeat split.
  - intros F sp Hin. apply unset_reads.
    specialize (I F). rewrite Forall_forall in I. auto.
  - intros c o h' ref sp H Hn.
    apply perform_effect in H.
    destruct H as [[_ S]|[(Hc & F & _ & sp0 & U & S)|(Hc & F & _ & L)]].
    + exists sp. rewrite S. repeat split; auto.
    + exists sp. rewrite S. repeat split; auto.
      rewrite nth_error_app1; auto. apply nth_error_Some. congruence.
    + destruct (nth_error (specs h') ref) as [sp'|] eqn:E.
      * exists sp'. specialize (I F). rewrite Forall_forall in I.
        apply nth_error_In in Hn. destruct (I _ Hn) as (A & B & C).
        repeat split; auto; try congruence.
      * apply nth_error_None in E.
        assert (ref < length (specs h))%nat by (apply nth_error_Some; congruence).
        lia.
Qed.

End Lifecycle.

(** ** Scopes *)

Lemma scope_nested_raises h w :
  constrained (self h) = true ->
  _inside_aggregation_scope (self h) = true ->
  scope w true h = (Raise (ValueError nested_msg), h).
Proof.
  unfold constrained. intros C I.
  unfold scope. unfold bind at 1. unfold get_self at 1.
  cbn [andb]. rewrite C, I. reflexivity.
Qed.

Lemma _exit_scope_ok h stack top tsc :
  pop (_scopes_stack (self h)) = Some (stack, top) ->
  nth_error (scope_objects h) top = Some tsc ->
  exists h1, _exit_scope h = (Return tt, h1) /\
    _mechanisms (self h1) = _mechanisms (self h) /\
    scope_objects h1 = scope_objects h.
Proof.
  intros P N. unfold _exit_scope. unfold_M. rewrite P. cbn. rewrite N.
  destruct (is_aggregation_scope tsc); eexists; (split; [reflexivity|]); cbn; auto.
Qed.

Lemma comprehension_weights_ok refs h :
  valid_refs h refs ->
  comprehension refs
    (fun ref => (m <- deref_mechanism ref ;; ret (weight m))%py) h
  = (Return (map (weight_at h) refs), h).
Proof.
  induction 1 as [|r refs Hr _ IH]; cbn.
  - reflexivity.
  - unfold bind at 1. unfold bind at 1. unfold deref_mechanism at 1.
    unfold weight_at at 1.
    destruct (nth_error (_mechanisms (self h)) r) as [m|] eqn:E.
    + unfold ret at 1. unfold bind at 1. rewrite IH. reflexivity.
    + apply nth_error_None in E. lia.
Qed.

Lemma rescale_loop_ok factor refs : forall h,
  valid_refs h refs ->
  exists h',
    for_each refs
      (fun ref => (m <- deref_mechanism ref ;;
                   assign_mechanism ref (set_weight (weight m * factor) m))%py) h
    = (Return tt, h') /\
    scope_objects h' = scope_objects h /\
    forall ref, nth_error (_mechanisms (self h')) ref
                = option_map (rescaled factor refs ref)
                    (nth_error (_mechanisms (self h)) ref).
Proof.
  induction refs as [|r refs IH]; intros h V.
  - exists h. cbn. repeat split; auto.
    intros ref. destruct (nth_error _ ref) as [m|]; cbn; auto.
    unfold rescaled. cbn. destruct m; unfold set_weight; cbn. f_equal. f_equal. lra.
  - inv V. cbn [for_each]. unfold bind at 1. unfold bind at 1.
    unfold deref_mechanism at 1.
    destruct (nth_error (_mechanisms (self h)) r) as [m|] eqn:E.
    2:{ apply nth_error_None in E. lia. }
    unfold assign_mechanism at 1, modify_self, modify.
    match goal with |- context [for_each refs ?b ?x] =>
      destruct (IH x) as (h' & L & O & W) end.
    { unfold valid_refs. cbn. rewrite update_length. assumption. }
    exists h'. split; [exact L|]. split; [rewrite O; reflexivity|].
    intros ref. rewrite W. cbn [self _mechanisms set_mechanisms].
    destruct (Nat.eq_dec r ref) as [->|Hne].
    + rewrite nth_error_update_eq by assumption. rewrite E. cbn.
      unfold rescaled. cbn [count_occ]. destruct (Nat.eq_dec ref ref); [|congruence].
      unfold set_weight; cbn. f_equal. f_equal. cbn. ring.
    + rewrite nth_error_update_neq by assumption.
      destruct (nth_error (_mechanisms (self h)) ref); cbn; auto.
      unfold rescaled. cbn [count_occ]. destruct (Nat.eq_dec r ref); [congruence|].
      reflexivity.
Qed.

Lemma weight_at_rescaled h h' factor refs :
  (forall ref, nth_error (_mechanisms (self h')) ref
               = option_map (rescaled factor refs ref)
                   (nth_error (_mechanisms (self h)) ref)) ->
  forall ref, weight_at h' ref
              = weight_at h ref * factor ^ count_occ Nat.eq_dec refs ref.
Proof.
  intros W ref. unfold weight_at. rewrite W.
  destruct (nth_error (_mechanisms (self h)) ref); cbn; lra.
Qed.

Lemma normalise_empty h sid sc :
  nth_error (scope_objects h) sid = Some sc ->
  mechanisms sc = [] ->
  _normalise_mechanism_weights sid h = (Return tt, h).
Proof.
  intros N E. unfold _normalise_mechanism_weights. unfold_M. now rewrite N, E.
Qed.

Lemma normalise_zero h sid sc :
  nth_error (scope_objects h) sid = Some sc ->
  valid_refs h (mechanisms sc) ->
  mechanisms sc <> [] ->
  scope_total h sc = 0 ->
  _normalise_mechanism_weights sid h = (Raise ZeroDivisionError, h).
Proof.
  intros N V Ne Z. unfold _normalise_mechanism_weights.
  unfold bind at 1. unfold deref_scope. rewrite N.
  destruct (mechanisms sc) as [|r refs] eqn:Em; [congruence|].
  unfold bind at 1. rewrite comprehension_weights_ok by assumption.
  unfold bind at 1, lift. unfold scope_total in Z. rewrite Em in Z.
  now rewrite pdiv_zero.
Qed.

Lemma normalise_nonzero h sid sc :
  nth_error (scope_objects h) sid = Some sc ->
  valid_refs h (mechanisms sc) ->
  mechanisms sc <> [] ->
  scope_total h sc <> 0 ->
  exists h',
    _normalise_mechanism_weights sid h = (Return tt, h') /\
    forall ref, nth_error (_mechanisms (self h')) ref
                = option_map
                    (rescaled (s_weight sc / scope_total h sc) (mechanisms sc) ref)
                    (nth_error (_mechanisms (self h)) ref).
Proof.
  intros N V Ne Z. unfold _normalise_mechanism_weights.
  unfold bind at 1. unfold deref_scope. rewrite N.
  unfold scope_total in *.
  destruct (mechanisms sc) as [|r refs] eqn:Em; [congruence|].
  unfold bind at 1. rewrite comprehension_weights_ok by assumption.
  unfold bind at 1, lift. rewrite pdiv_ok by assumption.
  destruct (rescale_loop_ok (s_weight sc / sum (map (weight_at h) (r :: refs)))
              (r :: refs) h V) as (h' & L & _ & W).
  exists h'. split; auto.
Qed.

(** C2, as amended.  Leaving a scope [sid] of weight [w] (the stack is
    not empty and the references of the scope are valid), with [S] the sum
    of the weights of its mechanisms: with no mechanism the exit returns and
    changes no mechanism; with mechanisms and [S = 0] it raises
    [ZeroDivisionError] and changes no mechanism; with mechanisms and
    [S <> 0] it returns and has multiplied the weight of each mechanism by
    [w / S] once per occurrence in the scope's list (exactly once when the
    list has no duplicates), leaving everything else of the mechanisms as it
    was; so weights [a, b] become [w*a/(a+b), w*b/(a+b)]. *)
Theorem scope_exit_normalises h sid sc stack top tsc :
    pop (_scopes_stack (self h)) = Some (stack, top) ->
    nth_error (scope_objects h) top = Some tsc ->
    nth_error (scope_objects h) sid = Some sc ->
    valid_refs h (mechanisms sc) ->
    (mechanisms sc = [] ->
     exists h', __exit__ sid h = (Return tt, h') /\
       _mechanisms (self h') = _mechanisms (self h)) /\
    (mechanisms sc <> [] -> scope_total h sc = 0 ->
     exists h', __exit__ sid h = (Raise ZeroDivisionError, h') /\
       _mechanisms (self h') = _mechanisms (self h)) /\
    (mechanisms sc <> [] -> scope_total h sc <> 0 ->
     exists h', __exit__ sid h = (Return tt, h') /\
       (forall ref,
           nth_error (_mechanisms (self h')) ref
           = option_map
               (rescaled (s_weight sc / scope_total h sc) (mechanisms sc) ref)
               (nth_error (_mechanisms (self h)) ref)) /\
       (forall ref,
           weight_at h' ref
           = weight_at h ref
             * (s_weight sc / scope_total h sc)
               ^ count_occ Nat.eq_dec (mechanisms sc) ref) /\
       (NoDup (mechanisms sc) ->
        forall ref,
          weight_at h' ref
          = if in_dec Nat.eq_dec ref (mechanisms sc)
            then weight_at h ref * (s_weight sc / scope_total h sc)
            else weight_at h ref)) /\
    (forall i j,
        mechanisms sc = [i; j] -> i <> j ->
        weight_at h i + weight_at h j <> 0 ->
        exists h', __exit__ sid h = (Return tt, h') /\
          weight_at h' i
          = s_weight sc * weight_at h i / (weight_at h i + weight_at h j) /\
          weight_at h' j
          = s_weight sc * weight_at h j / (weight_at h i + weight_at h j)).
Proof.
  intros P Nt Ns V.
  destruct (_exit_scope_ok h stack top tsc P Nt) as (h1 & E & Ms & Os).
  assert (Ns1 : nth_error (scope_objects h1) sid = Some sc) by now rewrite Os.
  assert (V1 : valid_refs h1 (mechanisms sc)) by (unfold valid_refs; now rewrite Ms).
  assert (T : scope_total h1 sc = scope_total h sc).
  { unfold scope_total. f_equal. apply map_ext. intros r. unfold weight_at. now rewrite Ms. }
  assert (X : forall o h', _normalise_mechanism_weights sid h1 = (o, h') ->
                           __exit__ sid h = (o, h')).
  { intros o h' H. unfold __exit__. unfold bind at 1. now rewrite E. }
  assert (Third : mechanisms sc <> [] -> scope_total h sc <> 0 ->
     exists h', __exit__ sid h = (Return tt, h') /\
       (forall ref,
           nth_error (_mechanisms (self h')) ref
           = option_map
               (rescaled (s_weight sc / scope_total h sc) (mechanisms sc) ref)
               (nth_error (_mechanisms (self h)) ref)) /\
       (forall ref,
           weight_at h' ref
           = weight_at h ref
             * (s_weight sc / scope_total h sc)
               ^ count_occ Nat.eq_dec (mechanisms sc) ref) /\
       (NoDup (mechanisms sc) ->
        forall ref,
          weight_at h' ref
          = if in_dec Nat.eq_dec ref (mechanisms sc)
            then weight_at h ref * (s_weight sc / scope_total h sc)
            else weight_at h ref)).
  { intros Ne Z. rewrite <- T in Z.
    destruct (normalise_nonzero h1 sid sc Ns1 V1 Ne Z) as (h' & L & W).
    rewrite T, Ms in W.
    exists h'. split; [now apply X|]. split; [exact W|].
    assert (W' := weight_at_rescaled h h' _ _ W).
    split; [exact W'|].
    intros ND ref. rewrite W'.
    destruct (in_dec Nat.eq_dec ref (mechanisms sc)) as [Hin|Hnin].
    - rewrite (proj1 (NoDup_count_occ' Nat.eq_dec (mechanisms sc)) ND ref Hin).
      cbn. lra.
    - rewrite (proj1 (count_occ_not_In Nat.eq_dec (mechanisms sc) ref) Hnin).
      cbn. lra. }
  split; [|split; [|split]].
  - intros Em. exists h1. split; auto.
    apply X. now apply normalise_empty with sc.
  - intros Ne Z. exists h1. split; auto.
    apply X. apply normalise_zero with sc; auto. now rewrite T.
  - exact Third.
  - intros i j Em Hij Hs.
    assert (St : scope_total h sc = weight_at h i + weight_at h j).
    { unfold scope_total. rewrite Em. cbn [map]. rewrite !sum_cons, sum_nil. lra. }
    destruct Third as (h' & L & _ & W & _); [rewrite Em; discriminate|now rewrite St|].
    exists h'. split; auto. rewrite !W, Em, St. cbn [count_occ].
    destruct (Nat.eq_dec i i); [|congruence].
    destruct (Nat.eq_dec j j); [|congruence].
    destruct (Nat.eq_dec j i); [congruence|].
    destruct (Nat.eq_dec i j); [congruence|].
    cbn. split; field; assumption.
Qed.

(** ** The proportional split of the naive accountant *)

Lemma total_weights_acc ms : forall a b,
  fold_left
    (fun acc mechanism =>
       (fst acc + weight mechanism * IZR (count (mechanism_spec mechanism)),
        if use_delta (mechanism_spec mechanism)
        then snd acc + weight mechanism * IZR (count (mechanism_spec mechanism))
        else snd acc))
    ms (a, b)
  = (a + W_eps ms, b + W_delta ms).
Proof.
  induction ms as [|m ms IH]; intros a b; cbn [fold_left fst snd].
  - unfold W_eps, W_delta. cbn [map filter]. rewrite !sum_nil. f_equal; lra.
  - rewrite IH. unfold W_eps, W_delta. cbn [map filter].
    destruct (use_delta (mechanism_spec m)); cbn [map];
      rewrite ?sum_cons; unfold weighted_count; f_equal; lra.
Qed.

Lemma total_weights_spec ms :
  Naive.total_weights ms = (W_eps ms, W_delta ms).
Proof.
  unfold Naive.total_weights. rewrite total_weights_acc. f_equal; lra.
Qed.

Lemma assign_budget_assigned e d ms m :
  Naive.assign_budget e d (W_eps ms) (W_delta ms) m
  = (Return tt, assigned e d ms m).
Proof.
  unfold Naive.assign_budget, assigned, spec_eps, spec_delta,
    call_set_eps_delta, set_eps_delta, truthy, pdiv.
  unfold_M.
  destruct (Req_dec_T (W_eps ms) 0); destruct (use_delta (mechanism_spec m));
    try destruct (Req_dec_T (W_delta ms) 0); reflexivity.
Qed.

Lemma for_each_object_total {A} (body : M A unit) (f : A -> A) objs :
  (forall x, body x = (Return tt, f x)) ->
  for_each_object body objs = (Return tt, map f objs).
Proof.
  intros Hb. induction objs as [|x rest IH]; cbn; auto.
  now rewrite Hb, IH.
Qed.

Lemma filter_map_preserved {A} (p : A -> bool) (f : A -> A) l :
  (forall x, p (f x) = p x) -> filter p (map f l) = map f (filter p l).
Proof.
  intros Hp. induction l as [|x l IH]; cbn; auto.
  rewrite Hp. destruct (p x); cbn; now rewrite IH.
Qed.

Lemma sum_eps_counted_assigned e d ms :
  W_eps ms <> 0 -> sum_eps_counted (map (assigned e d ms) ms) = e.
Proof.
  intros Z. unfold sum_eps_counted. rewrite map_map.
  rewrite (sum_map_ext _ (fun m => e / W_eps ms * weighted_count m)).
  - rewrite sum_map_scale. fold (W_eps ms). now field.
  - intros m _. cbn. unfold spec_eps, weighted_count, count.
    destruct (Req_dec_T (W_eps ms) 0); [contradiction|]. now field.
Qed.

Lemma sum_delta_counted_assigned e d ms :
  W_delta ms <> 0 -> sum_delta_counted (map (assigned e d ms) ms) = d.
Proof.
  intros Z. unfold sum_delta_counted.
  rewrite filter_map_preserved by reflexivity. rewrite map_map.
  rewrite (sum_map_ext _ (fun m => d / W_delta ms * weighted_count m)).
  - rewrite sum_map_scale. fold (W_delta ms). now field.
  - intros m Hin. apply filter_In in Hin. destruct Hin as [_ U].
    cbn. unfold spec_delta, weighted_count, count. rewrite U.
    destruct (Req_dec_T (W_delta ms) 0); [contradiction|]. now field.
Qed.

Lemma naive_compute_budgets_returns h h' :
  Naive.compute_budgets h = (Return tt, h') ->
  _mechanisms (self h) <> [] ->
  _finalized (self h) = false /\ _scopes_stack (self h) = [] /\
  h' = mkHeap
         (set_mechanisms
            (map (assigned (_total_epsilon (self h)) (_total_delta (self h))
                    (_mechanisms (self h)))
               (_mechanisms (self h)))
            (set_finalized true (self h)))
         (scope_objects h).
Proof.
  intros H Ne. unfold Naive.compute_budgets in H.
  unfold bind at 1 in H.
  destruct (_finalize_cases h) as [[e E]|[F E]]; rewrite E in H; [discriminate|].
  unfold bind at 1 in H. unfold get_self at 1 in H.
  cbn [self _mechanisms set_finalized _scopes_stack _total_epsilon _total_delta] in H.
  destruct (_mechanisms (self h)) as [|m ms] eqn:Ms; [congruence|].
  destruct (_scopes_stack (self h)); [|discriminate].
  rewrite total_weights_spec in H. cbn [fst snd] in H.
  unfold for_mechanisms in H. cbn [self _mechanisms] in H.
  rewrite (for_each_object_total _ _ _ (assign_budget_assigned _ _ (m :: ms))) in H.
  inv H. rewrite Ms. auto.
Qed.

(** C1, as amended.  When [compute_budgets] of the naive accountant returns
    and a mechanism is registered, every mechanism has been assigned
    [eps = total_epsilon * weight / W_eps] (0 if [W_eps = 0]) and
    [delta = total_delta * weight / W_delta] if it uses delta and
    [W_delta <> 0], else 0, nothing else of it changing; hence the eps
    values, each counted [count] times, sum to [total_epsilon] when
    [W_eps <> 0], and the delta values of the delta-using mechanisms, each
    counted [count] times, sum to [total_delta] when [W_delta <> 0]. *)
Theorem naive_budget_split h h' :
    Naive.compute_budgets h = (Return tt, h') ->
    _mechanisms (self h) <> [] ->
    let ms := _mechanisms (self h) in
    let ms' := _mechanisms (self h') in
    ms' = map (assigned (_total_epsilon (self h)) (_total_delta (self h)) ms) ms /\
    (forall i m, nth_error ms i = Some m ->
       exists m', nth_error ms' i = Some m' /\
         eps (mechanism_spec m') = Return (spec_eps (_total_epsilon (self h)) ms m) /\
         delta (mechanism_spec m') = Return (spec_delta (_total_delta (self h)) ms m)) /\
    (W_eps ms <> 0 -> sum_eps_counted ms' = _total_epsilon (self h)) /\
    (W_delta ms <> 0 -> sum_delta_counted ms' = _total_delta (self h)).
Proof.
  intros H Ne ms ms'.
  destruct (naive_compute_budgets_returns h h' H Ne) as (_ & _ & E).
  assert (Ems : ms' = map (assigned (_total_epsilon (self h)) (_total_delta (self h)) ms) ms).
  { unfold ms'. rewrite E. reflexivity. }
  split; [exact Ems|]. split; [|split].
  - intros i m Hi. rewrite Ems. eexists. split.
    + rewrite nth_error_map, Hi. reflexivity.
    + split; reflexivity.
  - intros Z. rewrite Ems. now apply sum_eps_counted_assigned.
  - intros Z. rewrite Ems. now apply sum_delta_counted_assigned.
Qed.

(** ** The calibration of the PLD accountant *)

Section Calibration.
Context {pldlib : PrivacyLossDistributionLib}.

Lemma calibrate_returns e d sigma m m' :
  PLD.calibrate e d sigma m = (Return tt, m') -> m' = calibrated e d sigma m.
Proof.
  unfold PLD.calibrate, calibrated, call_set_eps_delta, set_eps_delta, pdiv.
  unfold_M.
  destruct (Req_dec_T (weight m) 0); [discriminate|].
  destruct (mechanism_type (mechanism_spec m)) eqn:T; cbn;
    try (intros H; inv H; reflexivity).
  destruct (Req_dec_T (sensitivity m * sigma / weight m) 0); [discriminate|].
  destruct (Req_dec_T e 0); [discriminate|].
  intros H; inv H. unfold set_mechanism_spec; cbn. rewrite T. reflexivity.
Qed.

Lemma for_each_object_returns {A} (body : M A unit) (f : A -> A) objs objs' :
  (forall x x', body x = (Return tt, x') -> x' = f x) ->
  for_each_object body objs = (Return tt, objs') -> objs' = map f objs.
Proof.
  intros Hb. revert objs'. induction objs as [|x rest IH]; intros objs' H; cbn in H.
  - now inv H.
  - destruct (body x) as [[[]| |] x'] eqn:E; try discriminate.
    destruct (for_each_object body rest) as [o rest'] eqn:E'.
    inv H. cbn. f_equal; auto.
Qed.

Lemma sum_of_weights_acc ms : forall a,
  fold_left (fun s m => s + weight m) ms a = a + sum (map weight ms).
Proof.
  induction ms as [|m ms IH]; intros a; cbn [fold_left map].
  - rewrite sum_nil. lra.
  - rewrite IH, sum_cons. lra.
Qed.

Lemma sum_of_weights_spec ms : PLD.sum_of_weights ms = sum (map weight ms).
Proof. unfold PLD.sum_of_weights. rewrite sum_of_weights_acc. lra. Qed.

Lemma pld_compute_budgets_returns fuel h h' :
  PLD.compute_budgets fuel h = (Return tt, h') ->
  _mechanisms (self h) <> [] ->
  _finalized (self h) = false /\ _scopes_stack (self h) = [] /\
  exists sigma,
    PLD.closed_form_or_search fuel (set_finalized true (self h)) = Return sigma /\
    h' = mkHeap
           (set_mechanisms
              (map (calibrated (_total_epsilon (self h)) (_total_delta (self h)) sigma)
                 (_mechanisms (self h)))
              (set_minimum_noise_std (Some sigma) (set_finalized true (self h))))
           (scope_objects h).
Proof.
  intros H Ne. unfold PLD.compute_budgets in H.
  unfold bind at 1 in H.
  destruct (_finalize_cases h) as [[e E]|[F E]]; rewrite E in H; [discriminate|].
  unfold bind at 1 in H. unfold get_self at 1 in H.
  cbn [self _mechanisms set_finalized _scopes_stack _total_epsilon _total_delta] in H.
  destruct (_mechanisms (self h)) as [|m ms] eqn:Ms; [congruence|].
  destruct (_scopes_stack (self h)); [|discriminate].
  split; auto. split; auto.
  unfold bind at 1 in H. unfold lift at 1 in H.
  match type of H with context [PLD.closed_form_or_search ?f ?a] =>
    destruct (PLD.closed_form_or_search f a) as [sigma| |] eqn:Es end;
    try discriminate.
  exists sigma. split.
  - reflexivity.
  - unfold bind at 1 in H. unfold modify_self, modify in H.
    unfold for_mechanisms in H.
    cbn [self _mechanisms set_minimum_noise_std set_finalized scope_objects] in H.
    rewrite Ms in H.
    match type of H with context [for_each_object ?b ?l] =>
      destruct (for_each_object b l) as [o ms'] eqn:El end.
    inv H.
    apply (for_each_object_returns _ _ _ _ (calibrate_returns _ _ sigma)) in El.
    subst ms'. reflexivity.
Qed.


Lemma pld_compute_budgets_unfold fuel h :
  PLD.compute_budgets fuel h
  = match _finalize h with
    | (Return _, h1) =>
        match _mechanisms (self h1), _scopes_stack (self h1) with
        | [], _ => (Return tt, h1)
        | _ :: _, _ :: _ => (Raise (Exception_ in_scope_msg), h1)
        | _ :: _, [] =>
            match PLD.closed_form_or_search fuel (self h1) with
            | Return sigma =>
                for_mechanisms
                  (PLD.calibrate (_total_epsilon (self h1))
                     (_total_delta (self h1)) sigma)
                  (mkHeap (set_minimum_noise_std (Some sigma) (self h1))
                     (scope_objects h1))
            | Raise e => (Raise e, h1)
            | Diverge => (Diverge, h1)
            end
        end
    | (Raise e, h1) => (Raise e, h1)
    | (Diverge, h1) => (Diverge, h1)
    end.
Proof.
  unfold PLD.compute_budgets. unfold bind at 1.
  destruct (_finalize h) as [[[]| |] h1]; try reflexivity.
  unfold bind at 1. unfold get_self at 1.
  destruct (_mechanisms (self h1)); [reflexivity|].
  destruct (_scopes_stack (self h1)); [|reflexivity].
  unfold bind at 1. unfold lift at 1.
  destruct (PLD.closed_form_or_search fuel (self h1)); reflexivity.
Qed.

(** C6.  When [compute_budgets] of the PLD accountant returns and a
    mechanism is registered, [minimum_noise_std] is set to some [sigma] and
    every mechanism [m] keeps its sensitivity, weight and type and has
    [noise_standard_deviation = sensitivity(m) * sigma / weight(m)]; a
    GENERIC mechanism has moreover [eps = sqrt 2 / noise] and
    [delta = eps / total_epsilon * total_delta]; the [_eps] and [_delta] of
    every other mechanism are left as they were. *)
Theorem pld_calibration fuel h h' :
    PLD.compute_budgets fuel h = (Return tt, h') ->
    _mechanisms (self h) <> [] ->
    exists sigma,
      minimum_noise_std (self h') = Some sigma /\
      forall i m,
        nth_error (_mechanisms (self h)) i = Some m ->
        let noise := sensitivity m * sigma / weight m in
        exists m',
          nth_error (_mechanisms (self h')) i = Some m' /\
          sensitivity m' = sensitivity m /\ weight m' = weight m /\
          mechanism_type (mechanism_spec m') = mechanism_type (mechanism_spec m) /\
          noise_standard_deviation (mechanism_spec m') = Return noise /\
          (mechanism_type (mechanism_spec m) = GENERIC ->
           eps (mechanism_spec m') = Return (sqrt 2 / noise) /\
           delta (mechanism_spec m')
           = Return (sqrt 2 / noise / _total_epsilon (self h)
                     * _total_delta (self h))) /\
          (mechanism_type (mechanism_spec m) <> GENERIC ->
           _eps (mechanism_spec m') = _eps (mechanism_spec m) /\
           _delta (mechanism_spec m') = _delta (mechanism_spec m)).
Proof.
  intros H Ne.
  destruct (pld_compute_budgets_returns fuel h h' H Ne) as (_ & _ & sigma & _ & E).
  exists sigma. subst h'. split; [reflexivity|].
  intros i m Hi noise.
  exists (calibrated (_total_epsilon (self h)) (_total_delta (self h)) sigma m).
  split; [cbn; rewrite nth_error_map, Hi; reflexivity|].
  unfold calibrated. fold noise.
  destruct (mechanism_type (mechanism_spec m)) eqn:T; cbn; rewrite ?T;
    repeat split; auto; try congruence; intros; discriminate.
Qed.

(** C10.  On a heap a caller can reach, when [compute_budgets] of the PLD
    accountant returns and a mechanism is registered: reading [eps] or
    [delta] of a LAPLACE or GAUSSIAN mechanism still raises the
    not-calculated-yet assertion, the [eps] and [delta] of a GENERIC
    mechanism are readable, and the noise of every mechanism is readable. *)
Theorem pld_budget_fields_stay_unset fuel h h' :
    reachable PLDBudgetAccountant h ->
    PLD.compute_budgets fuel h = (Return tt, h') ->
    _mechanisms (self h) <> [] ->
    forall i m',
      nth_error (_mechanisms (self h')) i = Some m' ->
      (mechanism_type (mechanism_spec m') = LAPLACE \/
       mechanism_type (mechanism_spec m') = GAUSSIAN ->
       eps (mechanism_spec m') = Raise (AssertionError not_calculated_budget) /\
       delta (mechanism_spec m') = Raise (AssertionError not_calculated_budget)) /\
      (mechanism_type (mechanism_spec m') = GENERIC ->
       exists e d, eps (mechanism_spec m') = Return e /\
                   delta (mechanism_spec m') = Return d) /\
      (exists s, noise_standard_deviation (mechanism_spec m') = Return s).
Proof.
  intros Rh H Ne i m' Hi.
  pose proof (reachable_lazy_inv _ _ Rh) as I.
  destruct (pld_compute_budgets_returns fuel h h' H Ne) as (F & _ & sigma & _ & E).
  specialize (I F). rewrite Forall_forall in I.
  subst h'. cbn in Hi. rewrite nth_error_map in Hi.
  destruct (nth_error (_mechanisms (self h)) i) as [m|] eqn:Hm; [|discriminate].
  cbn in Hi. inv Hi.
  assert (U : unset (mechanism_spec m)).
  { apply I. unfold specs. apply in_map. eapply nth_error_In; eauto. }
  destruct U as (_ & Ue & Ud).
  unfold calibrated, eps, delta, noise_standard_deviation.
  destruct (mechanism_type (mechanism_spec m)) eqn:T; cbn; rewrite ?T, ?Ue, ?Ud;
    (split; [|split]); eauto; try (intros [X|X]; discriminate); try discriminate.
Qed.

End Calibration.

Lemma closed_form_no_search (lib other : PrivacyLossDistributionLib) fuel fuel' a :
  _total_delta a = 0 ->
  @PLD.closed_form_or_search other fuel' a = @PLD.closed_form_or_search lib fuel a.
Proof.
  intros D. unfold PLD.closed_form_or_search.
  now rewrite D, Req_bool_true by reflexivity.
Qed.

Lemma pld_compute_budgets_no_search (lib other : PrivacyLossDistributionLib)
    fuel fuel' h :
  _total_delta (self h) = 0 ->
  @PLD.compute_budgets other fuel' h = @PLD.compute_budgets lib fuel h.
Proof.
  intros D. rewrite !pld_compute_budgets_unfold.
  destruct (_finalize_cases h) as [[e E]|[F E]]; rewrite E; [reflexivity|].
  cbn [self _mechanisms set_finalized _scopes_stack].
  destruct (_mechanisms (self h)); [reflexivity|].
  destruct (_scopes_stack (self h)); [|reflexivity].
  rewrite (closed_form_no_search lib other fuel fuel'); auto.
Qed.

(** C5.  When [compute_budgets] of the PLD accountant returns with
    [total_delta = 0] and a mechanism registered, [minimum_noise_std] is
    (the sum of the weights) / [total_epsilon] * sqrt 2, and no search took
    place: the call returns the same heap with any library and any fuel,
    zero included.  For one Laplace mechanism of sensitivity 1 and weight 1
    with [total_epsilon = 2] and [total_delta = 0] the call returns and
    [minimum_noise_std] is sqrt 2 / 2. *)
Theorem pld_closed_form {pldlib : PrivacyLossDistributionLib} :
    (forall fuel h h',
        PLD.compute_budgets fuel h = (Return tt, h') ->
        _mechanisms (self h) <> [] ->
        _total_delta (self h) = 0 ->
        minimum_noise_std (self h')
        = Some (sum (map weight (_mechanisms (self h)))
                / _total_epsilon (self h) * sqrt 2) /\
        forall (other : PrivacyLossDistributionLib) fuel',
          @PLD.compute_budgets other fuel' h = (Return tt, h')) /\
    (forall fuel disc,
        exists h0 h1 h2,
          PLD.__init__ 2 0 disc None None = Return h0 /\
          PLD.request_budget LAPLACE 1 1 1 None h0 = (Return 0%nat, h1) /\
          PLD.compute_budgets fuel h1 = (Return tt, h2) /\
          minimum_noise_std (self h2) = Some (sqrt 2 / 2)).
Proof.
  split.
  - intros fuel h h' H Ne D. split.
    + destruct (pld_compute_budgets_returns fuel h h' H Ne) as (_ & _ & sigma & S & E).
      subst h'. cbn. unfold PLD.closed_form_or_search in S.
      cbn [_total_delta _total_epsilon set_finalized _mechanisms] in S.
      rewrite D, Req_bool_true in S by reflexivity.
      unfold obind, pdiv in S.
      destruct (Req_dec_T (_total_epsilon (self h)) 0); [discriminate|].
      inv S. now rewrite sum_of_weights_spec.
    + intros other fuel'. rewrite <- H. now apply pld_compute_budgets_no_search.
  - intros fuel disc.
    unfold PLD.__init__, _validate_epsilon_delta. cbn. eval_R. cbn.
    eexists. eexists. eexists. split; [reflexivity|].
    unfold PLD.request_budget, _register_mechanism. unfold_M. cbn. eval_R. cbn.
    split; [reflexivity|].
    unfold PLD.compute_budgets, _finalize, _check_number_aggregation_scopes,
      for_mechanisms, PLD.calibrate, PLD.closed_form_or_search. unfold_M. cbn. eval_R. cbn.
    split; [reflexivity|]. cbn. f_equal. lra.
Qed.

(** ** The search of the PLD accountant, in binary64 arithmetic *)

(** Integers to floats: the powers of two up to [2^1023] convert, [2^1024]
    overflows. *)
Lemma powers_convert :
  forallb Binary64.convertible (seq 0 1024) = true.
Proof. vm_compute. reflexivity. Qed.

Lemma power_overflows :
  Binary64.float_of_int (2 ^ Z.of_nat 1024) = Raise OverflowError.
Proof. vm_compute. reflexivity. Qed.

Lemma power_converts j :
  (j <= 1023)%nat -> exists x, Binary64.float_of_int (2 ^ Z.of_nat j) = Return x.
Proof.
  intros L. pose proof powers_convert as P.
  rewrite forallb_forall in P.
  assert (I : In j (seq 0 1024)) by (apply in_seq; lia).
  specialize (P j I). unfold Binary64.convertible in P.
  destruct (Binary64.float_of_int (2 ^ Z.of_nat j)) as [x| |]; try discriminate.
  eauto.
Qed.

Lemma power_double j : (2 ^ Z.of_nat j * 2 = 2 ^ Z.of_nat (S j))%Z.
Proof. rewrite Nat2Z.inj_succ, Z.pow_succ_r by lia. lia. Qed.

Section SearchBinary64.
Variable total_epsilon : PrimFloat.float.
Variable composed_epsilon : PrimFloat.float -> PrimFloat.float.

Local Abbreviation max_noise_loop := (Binary64.max_noise_loop total_epsilon composed_epsilon).
Local Abbreviation search_loop := (Binary64.search_loop total_epsilon composed_epsilon).
Local Abbreviation sufficient_at := (Binary64.sufficient_at total_epsilon composed_epsilon).
Local Abbreviation bisect := (Binary64.bisect total_epsilon composed_epsilon).
Local Abbreviation bisections := (Binary64.bisections total_epsilon composed_epsilon).
Local Abbreviation keeps_searching := (Binary64.keeps_searching total_epsilon composed_epsilon).
Local Abbreviation _calculate_max_noise_std :=
  (Binary64._calculate_max_noise_std total_epsilon composed_epsilon).
Local Abbreviation _find_minimum_noise_std :=
  (Binary64._find_minimum_noise_std total_epsilon composed_epsilon).

Lemma max_noise_loop_stop fuel m e :
  PrimFloat.ltb total_epsilon e = false -> max_noise_loop fuel m e = Return m.
Proof. intros H. destruct fuel; cbn; rewrite H; reflexivity. Qed.

Lemma max_noise_loop_step fuel m e :
  PrimFloat.ltb total_epsilon e = true ->
  max_noise_loop (S fuel) m e
  = (noise <~ Binary64.float_of_int (m * 2) ;;
     max_noise_loop fuel (m * 2)%Z (composed_epsilon noise))%py.
Proof. intros H. cbn. rewrite H. reflexivity. Qed.

Lemma sufficient_at_true j x :
  Binary64.float_of_int (2 ^ Z.of_nat j) = Return x ->
  sufficient_at j = negb (PrimFloat.ltb total_epsilon (composed_epsilon x)).
Proof. intros E. unfold Binary64.sufficient_at. now rewrite E. Qed.

(** Whenever the doubling loop returns, it stopped where it started or at a
    power of two at which the loop test fails. *)
Lemma max_noise_loop_returns fuel : forall i e r,
  max_noise_loop fuel (2 ^ Z.of_nat i) e = Return r ->
  (PrimFloat.ltb total_epsilon e = false /\ r = (2 ^ Z.of_nat i)%Z) \/
  (exists j, (i < j)%nat /\ r = (2 ^ Z.of_nat j)%Z /\ sufficient_at j = true).
Proof.
  induction fuel as [|fuel IH]; intros i e r H.
  - cbn in H. destruct (PrimFloat.ltb total_epsilon e); [discriminate|].
    inv H. auto.
  - destruct (PrimFloat.ltb total_epsilon e) eqn:C.
    + rewrite max_noise_loop_step in H by exact C.
      rewrite power_double in H.
      destruct (Binary64.float_of_int (2 ^ Z.of_nat (S i))) as [x| |] eqn:F;
        cbn [obind] in H; try discriminate.
      apply IH in H. destruct H as [[C' ->]|(j & L & -> & S)].
      * right. exists (S i). split; [lia|]. split; [reflexivity|].
        rewrite (sufficient_at_true _ _ F), C'. reflexivity.
      * right. exists j. split; [lia|]. auto.
    + rewrite max_noise_loop_stop in H by exact C. inv H. auto.
Qed.

(** The doubling loop returns the least sufficient power of two. *)
Lemma max_noise_loop_least d : forall i e fuel,
  PrimFloat.ltb total_epsilon e = true ->
  sufficient_at (i + S d) = true ->
  (forall m, (i < m < i + S d)%nat -> sufficient_at m = false) ->
  (i + S d <= 1023)%nat ->
  (S d <= fuel)%nat ->
  max_noise_loop fuel (2 ^ Z.of_nat i) e = Return (2 ^ Z.of_nat (i + S d))%Z.
Proof.
  induction d as [|d IH]; intros i e fuel C Su Lo B Fu;
    (destruct fuel as [|fuel]; [lia|]);
    rewrite max_noise_loop_step by exact C; rewrite power_double;
    (destruct (power_converts (S i)) as [x F]; [lia|]);
    rewrite F; cbn [obind].
  - replace (i + 1)%nat with (S i) in * by lia.
    rewrite (sufficient_at_true _ _ F) in Su.
    apply max_noise_loop_stop. now apply negb_true_iff in Su.
  - replace (i + S (S d))%nat with (S i + S d)%nat in * by lia.
    apply IH; auto; try lia.
    + assert (X : sufficient_at (S i) = false) by (apply Lo; lia).
      rewrite (sufficient_at_true _ _ F) in X.
      now apply negb_false_iff in X.
    + intros m Hm. apply Lo. lia.
Qed.

(** Without a sufficient power of two the doubling ends in [OverflowError]. *)
Lemma max_noise_loop_overflows d : forall i e fuel,
  (forall j, (1 <= j)%nat -> sufficient_at j = false) ->
  PrimFloat.ltb total_epsilon e = true ->
  (i + d = 1023)%nat ->
  (S d <= fuel)%nat ->
  max_noise_loop fuel (2 ^ Z.of_nat i) e = Raise OverflowError.
Proof.
  induction d as [|d IH]; intros i e fuel N C B Fu;
    (destruct fuel as [|fuel]; [lia|]);
    rewrite max_noise_loop_step by exact C; rewrite power_double.
  - replace (S i) with 1024%nat by lia. rewrite power_overflows. reflexivity.
  - destruct (power_converts (S i)) as [x F]; [lia|].
    rewrite F; cbn [obind]. apply IH; auto; try lia.
    assert (X : sufficient_at (S i) = false) by (apply N; lia).
    rewrite (sufficient_at_true _ _ F) in X.
    now apply negb_false_iff in X.
Qed.

(** More fuel does not change a result. *)
Lemma max_noise_loop_fuel n : forall k m e r,
  max_noise_loop n m e = Return r -> max_noise_loop (n + k) m e = Return r.
Proof.
  induction n as [|n IH]; intros k m e r H.
  - cbn in H. destruct (PrimFloat.ltb total_epsilon e) eqn:C; [discriminate|].
    inv H. now apply max_noise_loop_stop.
  - destruct (PrimFloat.ltb total_epsilon e) eqn:C.
    + rewrite max_noise_loop_step in H by exact C.
      cbn [Nat.add]. rewrite max_noise_loop_step by exact C.
      destruct (Binary64.float_of_int (m * 2)) as [x| |]; cbn [obind] in *;
        try discriminate.
      now apply IH.
    + rewrite max_noise_loop_stop in H by exact C. inv H.
      now apply max_noise_loop_stop.
Qed.

Lemma search_loop_stop fuel low high :
  Binary64.still_apart low high = false ->
  search_loop fuel low high = Return (low, high).
Proof.
  unfold Binary64.still_apart. intros H. destruct fuel; cbn; rewrite H; reflexivity.
Qed.

Lemma search_loop_step fuel low high :
  Binary64.still_apart low high = true ->
  search_loop (S fuel) low high
  = search_loop fuel (fst (bisect low high)) (snd (bisect low high)).
Proof.
  unfold Binary64.still_apart. intros H. cbn. rewrite H. unfold Binary64.bisect.
  destruct (PrimFloat.leb _ _); [reflexivity|].
  destruct (PrimFloat.ltb total_epsilon _); reflexivity.
Qed.

Lemma search_loop_out_of_fuel low high :
  Binary64.still_apart low high = true ->
  search_loop 0 low high = Diverge.
Proof. unfold Binary64.still_apart. intros H. cbn. rewrite H. reflexivity. Qed.

Lemma bisect_high low high :
  snd (bisect low high) = high \/
  Binary64.within_total_epsilon total_epsilon composed_epsilon (snd (bisect low high)) = true.
Proof.
  unfold Binary64.bisect, Binary64.within_total_epsilon.
  destruct (PrimFloat.leb _ _) eqn:L; [right; exact L|].
  destruct (PrimFloat.ltb total_epsilon _); left; reflexivity.
Qed.

(** When the bisection returns, the loop test fails on the final bracket
    and the final [high] is the initial one or a sufficient noise. *)
Lemma search_loop_returns fuel : forall low high l h,
  search_loop fuel low high = Return (l, h) ->
  Binary64.still_apart l h = false /\
  (h = high \/ Binary64.within_total_epsilon total_epsilon composed_epsilon h = true).
Proof.
  induction fuel as [|fuel IH]; intros low high l h H.
  - destruct (Binary64.still_apart low high) eqn:C;
      [now rewrite search_loop_out_of_fuel in H|].
    rewrite search_loop_stop in H by exact C. inv H. auto.
  - destruct (Binary64.still_apart low high) eqn:C.
    + rewrite search_loop_step in H by exact C. apply IH in H.
      destruct H as [E [->|S]]; auto. split; [exact E|].
      destruct (bisect_high low high) as [->|S]; auto.
    + rewrite search_loop_stop in H by exact C. inv H. auto.
Qed.

(** A bisection that keeps its loop test true for [n] passes needs more
    than [n] units of fuel, and then goes on from the bracket reached. *)
Lemma search_loop_prefix n : forall low high,
  keeps_searching n low high = true ->
  (forall fuel, (fuel < n)%nat -> search_loop fuel low high = Diverge) /\
  (forall fuel, search_loop (n + fuel) low high
                = search_loop fuel (fst (bisections n low high))
                    (snd (bisections n low high))).
Proof.
  induction n as [|n IH]; intros low high K; cbn in K.
  - split; [lia|]. reflexivity.
  - apply andb_prop in K. destruct K as [C K].
    cbn [Binary64.bisections].
    destruct (bisect low high) as [l h] eqn:B.
    destruct (IH l h K) as [D R]. split.
    + intros [|fuel] L; [now apply search_loop_out_of_fuel|].
      rewrite search_loop_step, B by exact C. apply D. lia.
    + intros fuel. cbn [Nat.add]. rewrite search_loop_step, B by exact C.
      apply R.
Qed.

(** A bracket that a pass leaves as it is, the loop test true, is never left. *)
Lemma search_loop_stalls low high :
  Binary64.still_apart low high = true ->
  bisect low high = (low, high) ->
  forall fuel, search_loop fuel low high = Diverge.
Proof.
  intros C B fuel. induction fuel as [|fuel IH].
  - now apply search_loop_out_of_fuel.
  - rewrite search_loop_step, B by exact C. exact IH.
Qed.

Lemma find_minimum_noise_std_returns fuel noise :
  Binary64.doubling_starts total_epsilon = true ->
  _find_minimum_noise_std fuel = Return noise ->
  exists j maximum low,
    (1 <= j)%nat /\ sufficient_at j = true /\
    _calculate_max_noise_std fuel = Return (2 ^ Z.of_nat j)%Z /\
    Binary64.float_of_int (2 ^ Z.of_nat j) = Return maximum /\
    search_loop fuel PrimFloat.zero maximum = Return (low, noise) /\
    Binary64.still_apart low noise = false /\
    (noise = maximum \/
     Binary64.within_total_epsilon total_epsilon composed_epsilon noise = true).
Proof.
  intros T1 H. unfold PrimFloat.zero.
  unfold Binary64._find_minimum_noise_std in H.
  destruct (_calculate_max_noise_std fuel) as [m| |] eqn:M; try discriminate.
  cbn [obind] in H.
  pose proof M as M'. unfold Binary64._calculate_max_noise_std in M'.
  apply (max_noise_loop_returns fuel 0) in M'.
  destruct M' as [[X _]|(j & L & -> & Su)];
    [unfold Binary64.doubling_starts in T1; congruence|].
  destruct (Binary64.float_of_int (2 ^ Z.of_nat j)) as [x| |] eqn:F;
    try discriminate.
  cbn [obind] in H.
  match type of H with context [Binary64.search_loop ?t ?f ?n ?z x] =>
    destruct (Binary64.search_loop t f n z x) as [[l h]| |] eqn:B end;
    try discriminate.
  cbn in H. inv H.
  pose proof (search_loop_returns _ _ _ _ _ B) as [E Hh].
  exists j, x, l. split; [lia|]. tauto.
Qed.

(** Without a sufficient power of two the search ends in [OverflowError]
    at the 1024th doubling, and never returns. *)
Lemma find_minimum_noise_std_overflows :
  Binary64.doubling_starts total_epsilon = true ->
  (forall j, (1 <= j)%nat -> sufficient_at j = false) ->
  (forall fuel, (1024 <= fuel)%nat ->
     _find_minimum_noise_std fuel = Raise OverflowError) /\
  (forall fuel noise, _find_minimum_noise_std fuel <> Return noise).
Proof.
  intros T1 N. split.
  - intros fuel Fu.
    assert (C : _calculate_max_noise_std fuel = Raise OverflowError).
    { apply (max_noise_loop_overflows 1023 0); auto. }
    unfold Binary64._find_minimum_noise_std. rewrite C. reflexivity.
  - intros fuel noise H.
    apply find_minimum_noise_std_returns in H; [|exact T1].
    destruct H as (j & _ & _ & J & Su & _). rewrite N in Su by exact J.
    discriminate.
Qed.

(** The doubling loop returns the least sufficient power of two below
    [2^1024], given as much fuel as its exponent. *)
Lemma calculate_max_noise_std_least j fuel :
  Binary64.doubling_starts total_epsilon = true ->
  (1 <= j <= 1023)%nat ->
  sufficient_at j = true ->
  (forall i, (1 <= i < j)%nat -> sufficient_at i = false) ->
  (j <= fuel)%nat ->
  _calculate_max_noise_std fuel = Return (2 ^ Z.of_nat j)%Z.
Proof.
  intros T1 [J1 J2] Su Lo Fu.
  destruct j as [|d]; [lia|].
  apply (max_noise_loop_least d 0); auto; try lia.
Qed.

(** A run of the doubling loop that returned returns the same with any
    other fuel that suffices: its result is the least sufficient power. *)
Lemma calculate_max_noise_std_unique fuel fuel' m m' :
  _calculate_max_noise_std fuel = Return m ->
  _calculate_max_noise_std fuel' = Return m' ->
  m = m'.
Proof.
  unfold Binary64._calculate_max_noise_std. intros H H'.
  apply (max_noise_loop_fuel _ fuel') in H.
  apply (max_noise_loop_fuel _ fuel) in H'.
  rewrite Nat.add_comm in H'. congruence.
Qed.


End SearchBinary64.

(** ** Examples: the claims on concrete heaps *)

(** Evaluation of a method on a concrete heap. *)
Ltac eval_method :=
  unfold construct, Naive.__init__, PLD.__init__, BudgetAccountant__init__,
    _validate_epsilon_delta, perform, compute_budgets, request_budget,
    Naive.compute_budgets, PLD.compute_budgets, Naive.request_budget,
    PLD.request_budget, _register_mechanism, _finalize,
    _check_number_aggregation_scopes, for_mechanisms, Naive.assign_budget,
    PLD.calibrate, PLD.closed_form_or_search, call_set_eps_delta,
    __exit__, __enter__, _exit_scope, _enter_scope, scope,
    BudgetAccountantScope__init__, _compute_budget_for_aggregation_scope,
    _get_next_aggregation_index, _normalise_mechanism_weights,
    Naive.total_weights, PLD.sum_of_weights, sum in *;
  unfold_M;
  repeat (cbn; eval_R).

(** C1, as stated, fails.  One Laplace mechanism of weight 1 applied twice
    ([count = 2]) under [total_epsilon = 1]: [W_eps = 2 > 0] and the
    mechanism gets [eps = 1/2], so the eps values sum to 1/2, not to
    [total_epsilon].  One Gaussian mechanism of weight -1 under
    [total_delta = 1]: [W_delta = -1] is not positive, yet the mechanism gets
    [delta = 1], not 0. *)
Lemma naive_eps_sum_misses_total :
  (run (pldlib := constant_lib) NaiveBudgetAccountant
     [call_request_budget LAPLACE 1 1 2 None]
     (mkHeap (accountant_of 1 0 [] []) []) = Some counted_heap /\
   exists h',
     Naive.compute_budgets counted_heap = (Return tt, h') /\
     W_eps (_mechanisms (self counted_heap)) = 2 /\
     sum_eps (_mechanisms (self h')) = 1 / 2 /\
     sum_eps (_mechanisms (self h')) <> _total_epsilon (self counted_heap)) /\
  (run (pldlib := constant_lib) NaiveBudgetAccountant
     [call_request_budget GAUSSIAN 1 (-1) 1 None]
     (mkHeap (accountant_of 1 1 [] []) []) = Some negative_heap /\
   exists h' m',
     Naive.compute_budgets negative_heap = (Return tt, h') /\
     W_delta (_mechanisms (self negative_heap)) = -1 /\
     nth_error (_mechanisms (self h')) 0 = Some m' /\
     delta (mechanism_spec m') = Return 1).
Proof.
  split.
  - split.
    + cbn [run]. eval_method. reflexivity.
    + eexists. split; [eval_method; reflexivity|].
      unfold W_eps, sum_eps, sum, weighted_count. cbn.
      repeat split; lra.
  - split.
    + cbn [run]. eval_method. reflexivity.
    + eexists. eexists. split; [eval_method; reflexivity|].
      unfold W_delta, sum, weighted_count. cbn.
      repeat split; try lra. unfold delta. cbn. f_equal. lra.
Qed.

(** C2, as stated, fails.  A scope of weight 1 under which one mechanism of
    weight 0 was requested: [S = 0], and leaving the scope raises
    [ZeroDivisionError] (the scope is popped, the weights are untouched). *)
Lemma scope_exit_divides_by_zero :
  run (pldlib := constant_lib) NaiveBudgetAccountant
    [call_scope 1 false; call_enter 0; call_request_budget LAPLACE 1 0 1 None]
    (mkHeap (accountant_of 1 0 [] []) []) = Some zero_weight_heap /\
  scope_total zero_weight_heap (plain_scope 1 [0%nat]) = 0 /\
  __exit__ 0 zero_weight_heap
  = (Raise ZeroDivisionError,
     mkHeap (accountant_of 1 0 [] [mechanism LAPLACE 0 1]) [plain_scope 1 [0%nat]]).
Proof.
  split; [|split].
  - cbn [run]. eval_method. reflexivity.
  - unfold scope_total, sum. cbn. lra.
  - eval_method. reflexivity.
Qed.

(** C3, as stated, fails.  With a scope open and no mechanism registered,
    [compute_budgets] of either accountant returns (and finalizes the
    accountant). *)
Lemma compute_budgets_returns_in_open_scope :
  run (pldlib := constant_lib) NaiveBudgetAccountant
    [call_scope 1 false; call_enter 0]
    (mkHeap (accountant_of 1 0 [] []) []) = Some open_scope_heap /\
  _scopes_stack (self open_scope_heap) = [0%nat] /\
  forall k fuel,
    compute_budgets (pldlib := constant_lib) k fuel open_scope_heap
    = (Return tt,
       mkHeap (set_finalized true (self open_scope_heap))
         (scope_objects open_scope_heap)).
Proof.
  split; [|split].
  - cbn [run]. eval_method. reflexivity.
  - reflexivity.
  - intros [] fuel; eval_method; reflexivity.
Qed.


(** The split of C1 on a Laplace mechanism of weight 1 applied twice and a
    Gaussian mechanism of weight 3 applied five times, with totals
    (1, 1/2): [W_eps = 17] and [W_delta = 15], the budgets are
    [eps = 1/17, 3/17] and [delta = 0, 1/10], and the sums counted by
    application reach the totals ([2/17 + 15/17] and [5/10]); the plain sum
    of the eps values is [4/17]. *)
Lemma naive_budget_split_witness :
  exists h',
    Naive.compute_budgets counted_split_heap = (Return tt, h') /\
    W_eps (_mechanisms (self counted_split_heap)) = 17 /\
    W_delta (_mechanisms (self counted_split_heap)) = 15 /\
    sum_eps_counted (_mechanisms (self h')) = 1 /\
    sum_delta_counted (_mechanisms (self h')) = 1 / 2 /\
    sum_eps (_mechanisms (self h')) = 4 / 17.
Proof.
  assert (We : W_eps (_mechanisms (self counted_split_heap)) = 17).
  { unfold W_eps, sum, weighted_count. cbn. lra. }
  assert (Wd : W_delta (_mechanisms (self counted_split_heap)) = 15).
  { unfold W_delta, sum, weighted_count. cbn. lra. }
  assert (R : exists h', Naive.compute_budgets counted_split_heap = (Return tt, h')).
  { eexists. eval_method; reflexivity. }
  destruct R as [h' R]. exists h'.
  destruct (naive_budget_split counted_split_heap h' R) as (Ms & _ & E & D);
    [discriminate|].
  split; [exact R|]. split; [exact We|]. split; [exact Wd|].
  split; [|split].
  - rewrite E; [reflexivity | rewrite We; lra].
  - rewrite D; [reflexivity | rewrite Wd; lra].
  - rewrite Ms. unfold sum_eps, sum, assigned, spec_eps. rewrite We.
    cbn. destruct (Req_dec_T 17 0); [lra|]. cbn. lra.
Defined.


(** The normalisation of C2 on a scope of weight 1 with weights [1, 3]. *)
Lemma scope_exit_normalises_witness :
  exists h',
    __exit__ 0 two_in_scope_heap = (Return tt, h') /\
    weight_at h' 0 = 1 * 1 / (1 + 3) /\
    weight_at h' 1 = 1 * 3 / (1 + 3).
Proof.
  destruct (scope_exit_normalises two_in_scope_heap 0 (plain_scope 1 [0%nat; 1%nat])
              [] 0%nat (plain_scope 1 [0%nat; 1%nat]))
    as (_ & _ & _ & X); try reflexivity.
  - repeat constructor.
  - destruct (X 0%nat 1%nat) as (h' & E & W0 & W1); try reflexivity.
    + discriminate.
    + cbn. lra.
    + exists h'. auto.
Defined.

(** C3 on an open scope: with two mechanisms registered the PLD accountant
    raises the open-scope exception and is left finalized; with none
    registered the naive accountant returns. *)
Lemma compute_budgets_in_open_scope_witness :
  _scopes_stack (self two_in_scope_heap) = [0%nat] /\
  compute_budgets (pldlib := constant_lib) PLDBudgetAccountant 0 two_in_scope_heap
  = (Raise (Exception_ in_scope_msg),
     mkHeap (set_finalized true (self two_in_scope_heap))
       (scope_objects two_in_scope_heap)) /\
  _scopes_stack (self open_scope_heap) = [0%nat] /\
  compute_budgets (pldlib := constant_lib) NaiveBudgetAccountant 0 open_scope_heap
  = (Return tt,
     mkHeap (set_finalized true (self open_scope_heap))
       (scope_objects open_scope_heap)).
Proof.
  split; [reflexivity|]. split; [|split; [reflexivity|]].
  - destruct (compute_budgets_in_open_scope (pldlib := constant_lib)
                PLDBudgetAccountant 0 two_in_scope_heap) as [A _];
      [discriminate|].
    destruct A as [(e & E & _)|(_ & _ & C)]; [discriminate| |exact C].
    revert E. eval_method. discriminate.
  - destruct (compute_budgets_in_open_scope (pldlib := constant_lib)
                NaiveBudgetAccountant 0 open_scope_heap) as [_ B];
      [discriminate|].
    destruct B as [(e & E & _)|(_ & _ & C)]; [reflexivity| |exact C].
    revert E. eval_method. discriminate.
Defined.

(** C5 on one Laplace mechanism with totals (2, 0). *)
Lemma pld_closed_form_witness :
  exists h',
    PLD.compute_budgets (pldlib := constant_lib) 0 laplace_heap = (Return tt, h') /\
    minimum_noise_std (self h')
    = Some (sum (map weight (_mechanisms (self laplace_heap)))
            / _total_epsilon (self laplace_heap) * sqrt 2).
Proof.
  eexists. split; [eval_method; reflexivity|].
  apply (proj1 (pld_closed_form (pldlib := constant_lib)) 0%nat laplace_heap).
  - eval_method; reflexivity.
  - discriminate.
  - reflexivity.
Defined.

(** C6 on one GENERIC mechanism with totals (2, 0). *)
Lemma pld_calibration_witness :
  exists h' sigma m',
    PLD.compute_budgets (pldlib := constant_lib) 0 generic_heap = (Return tt, h') /\
    minimum_noise_std (self h') = Some sigma /\
    nth_error (_mechanisms (self h')) 0 = Some m' /\
    noise_standard_deviation (mechanism_spec m') = Return (1 * sigma / 1) /\
    eps (mechanism_spec m') = Return (sqrt 2 / (1 * sigma / 1)) /\
    delta (mechanism_spec m') = Return (sqrt 2 / (1 * sigma / 1) / 2 * 0).
Proof.
  assert (P : 0 < sqrt 2) by (apply sqrt_lt_R0; lra).
  assert (E : exists h',
             PLD.compute_budgets (pldlib := constant_lib) 0 generic_heap
             = (Return tt, h')).
  { eexists. eval_method. reflexivity. }
  destruct E as [h' E]. exists h'.
  destruct (pld_calibration 0 generic_heap h' E) as (sigma & S & C); [discriminate|].
  destruct (C 0%nat (mechanism GENERIC 1 1) eq_refl)
    as (m' & N & _ & _ & _ & Hn & Hg & _).
  destruct (Hg eq_refl) as [He Hd].
  exists sigma, m'.
  split; [exact E|]. split; [exact S|]. split; [exact N|].
  split; [exact Hn|]. split; [exact He|exact Hd].
Defined.


(** C8 on the naive accountant, a scope being opened after finalisation. *)
Lemma finalized_irreversibly_witness :
  exists h1 h2,
    compute_budgets (pldlib := constant_lib) NaiveBudgetAccountant 0 split_heap
    = (Return tt, h1) /\
    run (pldlib := constant_lib) NaiveBudgetAccountant
      [call_scope 1 false; call_enter 0] h1 = Some h2 /\
    (forall mt s w n nsd,
        request_budget NaiveBudgetAccountant mt s w n nsd h2
        = (Raise (Exception_ after_compute_msg), h2)) /\
    (forall fuel', exists e,
        compute_budgets (pldlib := constant_lib) NaiveBudgetAccountant fuel' h2
        = (Raise e, h2)).
Proof.
  eexists. eexists.
  split; [eval_method; reflexivity|].
  split; [cbn [run]; eval_method; reflexivity|].
  match goal with |- context [request_budget _ _ _ _ _ _ ?h2] =>
    refine (finalized_irreversibly (pldlib := constant_lib) NaiveBudgetAccountant
              0 split_heap _ _ [call_scope 1 false; call_enter 0] h2 _) end.
  - eval_method; reflexivity.
  - cbn [run]; eval_method; reflexivity.
Defined.

Lemma laplace_heap_reachable k :
  reachable (pldlib := constant_lib) k
    (mkHeap (accountant_of 2 0 [] [mechanism LAPLACE 1 1]) []).
Proof.
  exists 2, 0, 0, None, None, (mkHeap (accountant_of 2 0 [] []) []),
    [call_request_budget LAPLACE 1 1 1 None].
  split.
  - destruct k; eval_method; reflexivity.
  - destruct k; cbn [run]; eval_method; reflexivity.
Defined.

(** C9 after one request on a fresh accountant. *)
Lemma lazy_fields_written_once_witness :
  noise_standard_deviation (mkMechanismSpec LAPLACE None None None 1)
  = Raise (AssertionError not_calculated_noise) /\
  eps (mkMechanismSpec LAPLACE None None None 1)
  = Raise (AssertionError not_calculated_budget) /\
  delta (mkMechanismSpec LAPLACE None None None 1)
  = Raise (AssertionError not_calculated_budget).
Proof.
  apply (proj1 (proj2 (lazy_fields_written_once (pldlib := constant_lib)
                         NaiveBudgetAccountant laplace_heap
                         (laplace_heap_reachable NaiveBudgetAccountant)))
           eq_refl (mkMechanismSpec LAPLACE None None None 1)).
  left. reflexivity.
Defined.

(** C10 on one Laplace mechanism with totals (2, 0). *)
Lemma pld_budget_fields_stay_unset_witness :
  exists h' m',
    PLD.compute_budgets (pldlib := constant_lib) 0 laplace_heap = (Return tt, h') /\
    nth_error (_mechanisms (self h')) 0 = Some m' /\
    eps (mechanism_spec m') = Raise (AssertionError not_calculated_budget) /\
    delta (mechanism_spec m') = Raise (AssertionError not_calculated_budget).
Proof.
  eexists. eexists.
  split; [eval_method; reflexivity|].
  split; [reflexivity|].
  match goal with |- eps (mechanism_spec ?m') = _ /\ _ =>
    refine (proj1 (pld_budget_fields_stay_unset (pldlib := constant_lib) 0
                     laplace_heap _ (laplace_heap_reachable PLDBudgetAccountant)
                     _ _ 0%nat m' _)
              (or_introl eq_refl)) end.
  - eval_method; reflexivity.
  - discriminate.
  - reflexivity.
Defined.

(** * Further properties of the accountants *)

(** X1.  On finite totals (floats other than NaN and the infinities, on
    which the comparisons of the source decide as on the reals), the
    constructors of both accountants accept exactly the arguments with
    [total_epsilon > 0], [total_delta >= 0], at most one of
    [n_aggregations] and [aggregation_weights], and a positive
    [n_aggregations]: they then return a fresh accountant (no scope, no
    mechanism, not finalized); on all other such arguments they raise
    [ValueError]. *)
Theorem construct_validates k e d disc n ws :
    (valid_arguments e d n ws ->
     construct k e d disc n ws
     = Return (mkHeap
                 (mkAccountant [] [] false n ws 0%nat false e d None
                    (match k with
                     | NaiveBudgetAccountant => 0
                     | PLDBudgetAccountant => disc
                     end))
                 [])) /\
    (~ valid_arguments e d n ws ->
     exists msg, construct k e d disc n ws = Raise (ValueError msg)).
Proof.
  unfold valid_arguments. split.
  - intros (He & Hd & Hx & Hn).
    assert (B : BudgetAccountant__init__ n ws
                = Return (mkAccountant [] [] false n ws 0%nat false 0 0 None 0)).
    { unfold BudgetAccountant__init__.
      destruct n as [z|]; destruct ws as [l|]; try reflexivity.
      - destruct Hx; discriminate.
      - specialize (Hn z eq_refl).
        destruct (z <=? 0)%Z eqn:E; [apply Z.leb_le in E; lia|reflexivity]. }
    destruct k; cbn [construct]; unfold Naive.__init__, PLD.__init__;
      rewrite B; cbn [obind]; unfold _validate_epsilon_delta;
      rewrite Rle_bool_false, Rlt_bool_false by lra; reflexivity.
  - intros Hnot.
    destruct (BudgetAccountant__init__ n ws) as [a| |] eqn:B.
    + apply BudgetAccountant__init___fresh in B as Ba.
      assert (Hargs : (n = None \/ ws = None) /\ (forall z, n = Some z -> (0 < z)%Z)).
      { revert B. unfold BudgetAccountant__init__.
        destruct n as [z|]; destruct ws as [l|]; try discriminate.
        - destruct (z <=? 0)%Z eqn:E; [discriminate|]. intros _.
          apply Z.leb_gt in E. split; [now right|]. intros z' Hz; now inv Hz.
        - intros _. split; [now left|]. discriminate.
        - intros _. split; [now left|]. discriminate. }
      destruct Hargs as [Hx Hn].
      assert (V : exists msg, _validate_epsilon_delta e d = Raise (ValueError msg)).
      { unfold _validate_epsilon_delta.
        destruct (Rle_dec e 0) as [He|He].
        - rewrite Rle_bool_true by exact He. eauto.
        - rewrite Rle_bool_false by lra.
          destruct (Rlt_dec d 0) as [Hd|Hd].
          + rewrite Rlt_bool_true by exact Hd. eauto.
          + exfalso. apply Hnot. repeat split; auto; lra. }
      destruct V as [msg V]. exists msg.
      destruct k; cbn [construct]; unfold Naive.__init__, PLD.__init__;
        rewrite B; cbn [obind]; rewrite V; reflexivity.
    + assert (exists msg, e0 = ValueError msg) as [msg ->].
      { revert B. unfold BudgetAccountant__init__.
        destruct n as [z|]; destruct ws as [l|]; try discriminate;
          try solve [intros H; inv H; eauto].
        destruct (z <=? 0)%Z; [|discriminate]. intros H; inv H; eauto. }
      exists msg.
      destruct k; cbn [construct]; unfold Naive.__init__, PLD.__init__;
        rewrite B; reflexivity.
    + exfalso. revert B. unfold BudgetAccountant__init__.
      destruct n as [z|]; destruct ws as [l|]; try discriminate;
        destruct (z <=? 0)%Z; discriminate.
Qed.

Lemma pop_some {A} (l l' : list A) x : pop l = Some (l', x) -> l = l' ++ [x].
Proof.
  revert l' x; induction l as [|y l IH]; intros l' x H; cbn in H; [discriminate|].
  destruct (pop l) as [[r z]|] eqn:E.
  - inv H. cbn. f_equal. now apply IH.
  - inv H. apply pop_nil_iff in E. now subst.
Qed.

Lemma scope_shape w agg h o h' :
  scope w agg h = (o, h') ->
  _scopes_stack (self h') = _scopes_stack (self h) /\
  _mechanisms (self h') = _mechanisms (self h) /\
  (scope_objects h' = scope_objects h \/
   exists sc, scope_objects h' = scope_objects h ++ [sc] /\ mechanisms sc = [] /\
              o = Return (length (scope_objects h))).
Proof.
  destruct h as [a objs].
  unfold scope, BudgetAccountantScope__init__, _get_next_aggregation_index.
  unfold_M. intros H.
  simp_M; repeat split; auto; right; eexists; repeat split; reflexivity.
Qed.

Lemma enter_shape sid h o h' :
  __enter__ sid h = (o, h') ->
  _mechanisms (self h') = _mechanisms (self h) /\
  scope_objects h' = scope_objects h /\
  ((o = Raise InvalidReference /\ h' = h) \/
   (o = Return sid /\
    _scopes_stack (self h') = _scopes_stack (self h) ++ [sid] /\
    (sid < length (scope_objects h))%nat)).
Proof.
  destruct h as [a objs].
  unfold __enter__, _enter_scope. unfold_M. intros H. cbn in H.
  destruct (nth_error objs sid) as [sc|] eqn:N.
  - assert (sid < length objs)%nat by (apply nth_error_Some; congruence).
    simp_M; (split; [reflexivity|]); (split; [reflexivity|]);
      right; repeat split; auto.
  - inv H. cbn. split; [reflexivity|]. split; [reflexivity|]. left; auto.
Qed.

Lemma _exit_scope_shape h o h' :
  _exit_scope h = (o, h') ->
  _mechanisms (self h') = _mechanisms (self h) /\
  scope_objects h' = scope_objects h /\
  ((o = Raise IndexError /\ h' = h) \/
   exists x, pop (_scopes_stack (self h)) = Some (_scopes_stack (self h'), x)).
Proof.
  destruct h as [a objs].
  unfold _exit_scope. unfold_M. intros H. cbn in H.
  destruct (pop (_scopes_stack a)) as [[stack x]|] eqn:P.
  - cbn in H. destruct (nth_error objs x) as [sc|]; cbn in H;
      [destruct (is_aggregation_scope sc)|]; inv H; cbn; eauto.
  - inv H. auto.
Qed.

Lemma rescale_loop_shape factor refs h o h' :
  for_each refs
    (fun ref => (m <- deref_mechanism ref ;;
                 assign_mechanism ref (set_weight (weight m * factor) m))%py) h
  = (o, h') ->
  _scopes_stack (self h') = _scopes_stack (self h) /\
  length (_mechanisms (self h')) = length (_mechanisms (self h)) /\
  scope_objects h' = scope_objects h.
Proof.
  revert h; induction refs as [|r refs IH]; intros h H; cbn in H.
  - unfold_M. inv H. auto.
  - unfold bind at 1 in H. unfold bind at 1 in H.
    unfold deref_mechanism at 1 in H.
    destruct (nth_error (_mechanisms (self h)) r) as [m|] eqn:E; cbn in H.
    + apply IH in H. cbn in H. rewrite update_length in H. exact H.
    + inv H. auto.
Qed.

Lemma normalise_shape sid h o h' :
  _normalise_mechanism_weights sid h = (o, h') ->
  _scopes_stack (self h') = _scopes_stack (self h) /\
  length (_mechanisms (self h')) = length (_mechanisms (self h)) /\
  scope_objects h' = scope_objects h.
Proof.
  unfold _normalise_mechanism_weights.
  unfold bind at 1. unfold deref_scope.
  destruct (nth_error (scope_objects h) sid) as [sc|]; cbn.
  2:{ intros H; inv H. auto. }
  destruct (mechanisms sc) as [|r refs] eqn:Em.
  - unfold_M. intros H; inv H. auto.
  - unfold bind at 1.
    destruct (comprehension (r :: refs) _ h) as [[ws| |] h1] eqn:E;
      apply comprehension_weights in E; subst h1;
      try solve [intros H; inv H; auto].
    unfold bind at 1. unfold lift.
    destruct (pdiv (s_weight sc) (sum ws)) as [f| |];
      try solve [intros H; inv H; auto].
    intros H. now apply rescale_loop_shape in H.
Qed.

Lemma exit_shape sid h o h' :
  __exit__ sid h = (o, h') ->
  length (_mechanisms (self h')) = length (_mechanisms (self h)) /\
  scope_objects h' = scope_objects h /\
  ((o = Raise IndexError /\ h' = h) \/
   exists x, pop (_scopes_stack (self h)) = Some (_scopes_stack (self h'), x)).
Proof.
  unfold __exit__. unfold bind at 1.
  destruct (_exit_scope h) as [[[]| |] h1] eqn:E; intros H;
    apply _exit_scope_shape in E; destruct E as (Ms & Os & St).
  - apply normalise_shape in H. destruct H as (S' & L' & O').
    split; [congruence|]. split; [congruence|].
    destruct St as [[X _]|[x P]]; [discriminate|].
    right. exists x. now rewrite S'.
  - inv H. split; [congruence|]. split; [congruence|].
    destruct St as [[X E']|[x P]]; [left; subst; inv X; auto|right; eauto].
  - inv H. split; [congruence|]. split; [congruence|].
    destruct St as [[X _]|[x P]]; [discriminate|right; eauto].
Qed.

Lemma registered_nil ref sid sc : registered ref [] sid sc = sc.
Proof.
  unfold registered. cbn. rewrite app_nil_r. now destruct sc.
Qed.

(** The loop of [_register_mechanism], whatever its outcome: scope objects are
    neither created nor removed, and each has had [ref] appended some number
    of times. *)
Lemma register_loop_shape ref stack : forall h o h',
  for_each stack
    (fun sid => (sc <- deref_scope sid ;;
                 assign_scope sid
                   (set_scope_mechanisms (mechanisms sc ++ [ref]) sc))%py) h
  = (o, h') ->
  self h' = self h /\
  length (scope_objects h') = length (scope_objects h) /\
  forall i sc', nth_error (scope_objects h') i = Some sc' ->
    exists sc n, nth_error (scope_objects h) i = Some sc /\
      mechanisms sc' = mechanisms sc ++ repeat ref n.
Proof.
  induction stack as [|s stack IH]; intros h o h' H; cbn in H.
  - unfold_M. inv H. repeat split; auto.
    intros i sc' N. exists sc', 0%nat. cbn. now rewrite app_nil_r.
  - unfold bind at 1 in H. unfold bind at 1 in H.
    unfold deref_scope at 1 in H.
    destruct (nth_error (scope_objects h) s) as [sc|] eqn:E; cbn in H.
    + apply IH in H. cbn in H. destruct H as (S' & L & W).
      rewrite update_length in L. repeat split; auto.
      intros i sc' N. destruct (W i sc' N) as (sc1 & n & N1 & M1).
      destruct (Nat.eq_dec s i) as [->|Hne].
      * rewrite nth_error_update_eq in N1
          by (apply nth_error_Some; congruence).
        inv N1. exists sc, (S n). split; auto.
        rewrite M1. cbn. now rewrite <- app_assoc.
      * rewrite nth_error_update_neq in N1 by assumption. eauto.
    + inv H. repeat split; auto.
      intros i sc' N. exists sc', 0%nat. cbn. now rewrite app_nil_r.
Qed.

(** The same loop when it returns: once per occurrence on the stack. *)
Lemma register_loop_returns ref stack : forall h h',
  for_each stack
    (fun sid => (sc <- deref_scope sid ;;
                 assign_scope sid
                   (set_scope_mechanisms (mechanisms sc ++ [ref]) sc))%py) h
  = (Return tt, h') ->
  Forall (fun sid => (sid < length (scope_objects h))%nat) stack /\
  forall i, nth_error (scope_objects h') i
            = option_map (registered ref stack i) (nth_error (scope_objects h) i).
Proof.
  induction stack as [|s stack IH]; intros h h' H; cbn in H.
  - unfold_M. inv H. split; [constructor|].
    intros i. destruct (nth_error _ i); cbn; [now rewrite registered_nil|auto].
  - unfold bind at 1 in H. unfold bind at 1 in H.
    unfold deref_scope at 1 in H.
    destruct (nth_error (scope_objects h) s) as [sc|] eqn:E; cbn in H;
      [|discriminate].
    apply IH in H. cbn in H. destruct H as (V & W).
    rewrite update_length in V.
    assert (Hs : (s < length (scope_objects h))%nat)
      by (apply nth_error_Some; congruence).
    split; [constructor; assumption|].
    intros i. rewrite W.
    destruct (Nat.eq_dec s i) as [->|Hne].
    + rewrite nth_error_update_eq by assumption. rewrite E. cbn.
      unfold registered. cbn [count_occ mechanisms set_scope_mechanisms].
      destruct (Nat.eq_dec i i); [|congruence].
      cbn. now rewrite <- app_assoc.
    + rewrite nth_error_update_neq by assumption.
      destruct (nth_error (scope_objects h) i); cbn; auto.
      unfold registered. cbn [count_occ].
      destruct (Nat.eq_dec s i); [congruence|reflexivity].
Qed.

(** And it does return when the stack holds created scopes only. *)
Lemma register_loop_ok ref stack : forall h,
  Forall (fun sid => (sid < length (scope_objects h))%nat) stack ->
  exists h',
    for_each stack
      (fun sid => (sc <- deref_scope sid ;;
                   assign_scope sid
                     (set_scope_mechanisms (mechanisms sc ++ [ref]) sc))%py) h
    = (Return tt, h').
Proof.
  induction stack as [|s stack IH]; intros h V.
  - eexists. reflexivity.
  - inv V. cbn [for_each]. unfold bind at 1. unfold bind at 1.
    unfold deref_scope at 1.
    destruct (nth_error (scope_objects h) s) as [sc|] eqn:E.
    2:{ apply nth_error_None in E. lia. }
    unfold assign_scope at 1, modify.
    match goal with |- context [for_each stack ?b ?x] =>
      destruct (IH x) as (h' & L) end.
    { cbn. rewrite update_length. assumption. }
    exists h'. exact L.
Qed.

Lemma _register_mechanism_returns m h ref h' :
  _register_mechanism m h = (Return ref, h') ->
  ref = length (_mechanisms (self h)) /\
  self h' = set_mechanisms (_mechanisms (self h) ++ [m]) (self h) /\
  forall i, nth_error (scope_objects h') i
            = option_map (registered ref (_scopes_stack (self h)) i)
                (nth_error (scope_objects h) i).
Proof.
  intros H.
  destruct (_register_mechanism_effect _ _ _ _ H) as [E R].
  specialize (R ref eq_refl). split; [exact R|]. split; [exact E|].
  unfold _register_mechanism in H.
  unfold bind at 1 in H. unfold get_self at 1 in H.
  unfold bind at 1 in H. unfold modify_self at 1 in H. unfold modify at 1 in H.
  unfold bind at 1 in H.
  match type of H with context [for_each ?l ?b ?x] =>
    destruct (for_each l b x) as [[[]| |] h1] eqn:L end; try discriminate.
  unfold ret in H. inv H.
  apply register_loop_returns in L. cbn in L. apply L.
Qed.

Lemma _register_mechanism_ok m h :
  Forall (fun sid => (sid < length (scope_objects h))%nat) (_scopes_stack (self h)) ->
  exists h', _register_mechanism m h
             = (Return (length (_mechanisms (self h))), h').
Proof.
  intros V. unfold _register_mechanism.
  unfold bind at 1. unfold get_self at 1.
  unfold bind at 1. unfold modify_self at 1. unfold modify at 1.
  unfold bind at 1.
  match goal with |- context [for_each ?l ?b ?x] =>
    destruct (register_loop_ok (length (_mechanisms (self h))) l x) as (h' & L) end.
  { exact V. }
  rewrite L. eexists. reflexivity.
Qed.

Section Requests.
Context {pldlib : PrivacyLossDistributionLib}.

Lemma gaussian_test mt d :
  MechanismType_eqb mt GAUSSIAN && Req_bool d 0 = true <-> (mt = GAUSSIAN /\ d = 0).
Proof.
  unfold Req_bool. destruct mt; cbn; destruct (Req_dec_T d 0);
    split; intros H; try discriminate; try tauto; destruct H; discriminate.
Qed.

Lemma request_budget_unfold k mt s w c nsd h :
  request_budget k mt s w c nsd h
  = if _finalized (self h) then (Raise (Exception_ after_compute_msg), h)
    else if match k with
            | NaiveBudgetAccountant => false
            | PLDBudgetAccountant => negb (c =? 1)%Z
            end
            || match nsd with Some _ => true | None => false end
    then (Raise (NotImplementedError not_implemented_msg), h)
    else if MechanismType_eqb mt GAUSSIAN && Req_bool (_total_delta (self h)) 0
    then (Raise (match k with
                 | NaiveBudgetAccountant => ValueError gaussian_msg
                 | PLDBudgetAccountant => AssertionError gaussian_msg
                 end), h)
    else _register_mechanism
           (mkMechanismSpecInternal s w
              (mkMechanismSpec mt None None None
                 (match k with
                  | NaiveBudgetAccountant => c
                  | PLDBudgetAccountant => 1%Z
                  end))) h.
Proof.
  destruct k; unfold request_budget, Naive.request_budget, PLD.request_budget;
    unfold bind at 1; unfold get_self at 1;
    destruct (_finalized (self h)); unfold raise; try reflexivity.
  - destruct nsd; cbn [orb]; try reflexivity.
    destruct (_ && _); reflexivity.
  - destruct (negb (c =? 1)%Z
              || match nsd with Some _ => true | None => false end);
      try reflexivity.
    destruct (_ && _); reflexivity.
Qed.


(** X3.  When [request_budget] returns, the new mechanism, with the given
    type, sensitivity, weight and count and all lazy fields unset, is the
    last of the registry, nothing else of the accountant changes, and its
    reference is appended to the list of every scope once per occurrence of
    the scope on the stack: scopes off the stack are untouched, and with a
    duplicate-free stack every open scope gets it exactly once. *)
Theorem request_budget_registers k mt s w c nsd h ref h' :
    request_budget k mt s w c nsd h = (Return ref, h') ->
    ref = length (_mechanisms (self h)) /\
    self h'
    = set_mechanisms
        (_mechanisms (self h) ++
         [mkMechanismSpecInternal s w (mkMechanismSpec mt None None None c)])
        (self h) /\
    length (scope_objects h') = length (scope_objects h) /\
    (forall sid sc,
        nth_error (scope_objects h) sid = Some sc ->
        exists sc',
          nth_error (scope_objects h') sid = Some sc' /\
          s_weight sc' = s_weight sc /\
          _index_aggregation_scope sc' = _index_aggregation_scope sc /\
          mechanisms sc'
          = mechanisms sc
            ++ repeat ref (count_occ Nat.eq_dec (_scopes_stack (self h)) sid) /\
          (~ In sid (_scopes_stack (self h)) -> sc' = sc) /\
          (NoDup (_scopes_stack (self h)) -> In sid (_scopes_stack (self h)) ->
           mechanisms sc' = mechanisms sc ++ [ref])).
Proof.
  intros H.
  assert (R : _register_mechanism
                (mkMechanismSpecInternal s w (mkMechanismSpec mt None None None c)) h
              = (Return ref, h')).
  { rewrite request_budget_unfold in H.
    destruct (_finalized (self h)); [discriminate|].
    destruct (match k with
              | NaiveBudgetAccountant => false
              | PLDBudgetAccountant => negb (c =? 1)%Z
              end || match nsd with Some _ => true | None => false end) eqn:N;
      [discriminate|].
    destruct (_ && _); [discriminate|].
    apply orb_false_elim in N. destruct N as [Nc _].
    destruct k; [exact H|].
    apply negb_false_iff, Z.eqb_eq in Nc. subst c. exact H. }
  apply _register_mechanism_returns in R. destruct R as (Hr & Hs & Hobjs).
  split; [exact Hr|]. split; [exact Hs|].
  assert (Hlen : length (scope_objects h') = length (scope_objects h)).
  { destruct (Nat.lt_trichotomy (length (scope_objects h')) (length (scope_objects h)))
      as [L|[L|L]]; auto.
    - specialize (Hobjs (length (scope_objects h'))).
      rewrite (proj2 (nth_error_None _ _)) in Hobjs by lia.
      destruct (nth_error (scope_objects h) (length (scope_objects h'))) eqn:E;
        [discriminate|]. apply nth_error_None in E. lia.
    - specialize (Hobjs (length (scope_objects h))).
      rewrite (proj2 (nth_error_None (scope_objects h) _)) in Hobjs by lia.
      cbn in Hobjs. apply nth_error_None in Hobjs. lia. }
  split; [exact Hlen|].
  intros sid sc N. specialize (Hobjs sid). rewrite N in Hobjs. cbn in Hobjs.
  eexists. split; [exact Hobjs|]. unfold registered. cbn.
  repeat split; auto.
  - intros Hnin.
    rewrite (proj1 (count_occ_not_In Nat.eq_dec _ sid) Hnin). cbn.
    rewrite app_nil_r. now destruct sc.
  - intros ND Hin.
    now rewrite (proj1 (NoDup_count_occ' Nat.eq_dec _) ND sid Hin).
Qed.

End Requests.

Lemma for_mechanisms_shape body h o h' :
  for_mechanisms body h = (o, h') ->
  exists ms', length ms' = length (_mechanisms (self h)) /\
    h' = mkHeap (set_mechanisms ms' (self h)) (scope_objects h).
Proof.
  unfold for_mechanisms.
  pose proof (for_each_object_length body (_mechanisms (self h))) as L.
  destruct (for_each_object body (_mechanisms (self h))) as [o2 ms'].
  intros H; inv H. eauto.
Qed.

Section Shape.
Context {pldlib : PrivacyLossDistributionLib}.

Lemma compute_budgets_shape k fuel h o h' :
  compute_budgets k fuel h = (o, h') ->
  _scopes_stack (self h') = _scopes_stack (self h) /\
  scope_objects h' = scope_objects h /\
  length (_mechanisms (self h')) = length (_mechanisms (self h)).
Proof.
  destruct (_finalize_cases h) as [[e E]|[F E]].
  - destruct k; unfold compute_budgets, Naive.compute_budgets, PLD.compute_budgets;
      unfold bind at 1; rewrite E; intros H; inv H; auto.
  - destruct k; unfold compute_budgets, Naive.compute_budgets, PLD.compute_budgets;
      unfold bind at 1; rewrite E; unfold bind at 1; unfold get_self at 1;
      cbn [self _mechanisms set_finalized _scopes_stack];
      destruct (_mechanisms (self h)) eqn:Ms; unfold_M;
      try (intros H; inv H; cbn; rewrite Ms; auto);
      destruct (_scopes_stack (self h)) eqn:St;
      try (intros H; inv H; cbn; rewrite Ms; auto).
    + intros H. apply for_mechanisms_shape in H. destruct H as (ms' & L & ->).
      cbn in *. rewrite Ms in L. auto.
    + match goal with |- context [PLD.closed_form_or_search ?f ?a] =>
        destruct (PLD.closed_form_or_search f a) end;
        intros H; try (inv H; cbn; rewrite Ms; auto).
      apply for_mechanisms_shape in H. destruct H as (ms' & L & ->).
      cbn in *. rewrite Ms in L. auto.
Qed.

Lemma valid_refs_mono h h' refs :
  (length (_mechanisms (self h)) <= length (_mechanisms (self h')))%nat ->
  valid_refs h refs -> valid_refs h' refs.
Proof.
  unfold valid_refs. intros L V. eapply Forall_impl; [|exact V].
  cbn. intros. lia.
Qed.

Lemma perform_well_formed k c h o h' :
  perform k c h = (o, h') -> well_formed h -> well_formed h'.
Proof.
  unfold well_formed. destruct c; cbn [perform]; intros H [Vs Vo].
  - apply ignore_eq in H. destruct H as [o' H].
    apply scope_shape in H. destruct H as (S & Ms & [O|(sc & O & Em & _)]).
    + rewrite S, O. split; auto.
      eapply Forall_impl; [|exact Vo]. intros a. apply valid_refs_mono. now rewrite Ms.
    + rewrite S, O. split.
      * eapply Forall_impl; [|exact Vs]. cbn. intros. rewrite length_app. lia.
      * apply Forall_app. split.
        -- eapply Forall_impl; [|exact Vo]. intros a. apply valid_refs_mono.
           now rewrite Ms.
        -- constructor; [|constructor]. rewrite Em. constructor.
  - apply ignore_eq in H. destruct H as [o' H].
    apply enter_shape in H. destruct H as (Ms & O & [[_ ->]|(_ & S & L)]); auto.
    rewrite S, O. split.
    + apply Forall_app. split; auto.
    + eapply Forall_impl; [|exact Vo]. intros a. apply valid_refs_mono. now rewrite Ms.
  - apply exit_shape in H. destruct H as (L & O & [[_ ->]|[x P]]); auto.
    rewrite O. split.
    + apply pop_some in P. rewrite P in Vs. apply Forall_app in Vs. tauto.
    + eapply Forall_impl; [|exact Vo]. intros a. apply valid_refs_mono. lia.
  - apply ignore_eq in H. destruct H as [o' H].
    rewrite request_budget_unfold in H.
    repeat match type of H with
           | (if ?b then _ else _) = _ => destruct b
           end; try solve [inv H; auto].
    match type of H with _register_mechanism ?m h = _ =>
      pose proof (_register_mechanism_effect m h o' h' H) as [E _] end.
    unfold _register_mechanism in H.
    unfold bind at 1 in H. unfold get_self at 1 in H.
    unfold bind at 1 in H. unfold modify_self at 1 in H. unfold modify at 1 in H.
    unfold bind at 1 in H.
    match type of H with context [for_each ?l ?b ?x] =>
      destruct (for_each l b x) as [o1 h1] eqn:Lp end.
    assert (h1 = h') by (destruct o1 as [[]| |]; unfold ret in H; now inv H).
    subst h1. apply register_loop_shape in Lp. cbn in Lp.
    destruct Lp as (_ & Len & W).
    rewrite E. cbn [_scopes_stack _mechanisms set_mechanisms]. split.
    + rewrite Len. exact Vs.
    + apply Forall_forall. intros sc' Hin.
      apply In_nth_error in Hin. destruct Hin as [i Hi].
      destruct (W i sc' Hi) as (sc & n & N & Mm).
      unfold valid_refs. rewrite E. cbn [_mechanisms set_mechanisms].
      rewrite Mm, length_app. cbn. apply Forall_app. split.
      * rewrite Forall_forall in Vo. apply nth_error_In in N.
        specialize (Vo sc N). unfold valid_refs in Vo.
        eapply Forall_impl; [|exact Vo]. cbn. intros. lia.
      * apply Forall_forall. intros r Hr. apply repeat_spec in Hr. subst r. lia.
  - apply compute_budgets_shape in H. destruct H as (S & O & L).
    rewrite S, O. split; auto.
    eapply Forall_impl; [|exact Vo]. intros a. apply valid_refs_mono. lia.
Qed.

Lemma run_well_formed k cs : forall h h',
  run k cs h = Some h' -> well_formed h -> well_formed h'.
Proof.
  induction cs as [|c cs IH]; intros h h' H W; cbn in H.
  - now inv H.
  - destruct (perform k c h) as [[[]| |] h1] eqn:E; try discriminate;
      apply (IH h1 h' H); eapply perform_well_formed; eauto.
Qed.

(** X4.  On every heap a caller can reach, the scope stack holds created
    scopes only, and every mechanism listed in a scope is in the registry. *)
Theorem reachable_well_formed k h :
    reachable k h ->
    Forall (fun sid => (sid < length (scope_objects h))%nat)
      (_scopes_stack (self h)) /\
    Forall (fun sc =>
              Forall (fun ref => (ref < length (_mechanisms (self h)))%nat)
                (mechanisms sc))
      (scope_objects h).
Proof.
  intros (e & d & disc & n & ws & h0 & cs & C & R).
  apply (run_well_formed k cs h0 h R).
  apply construct_fresh in C. destruct C as (Ms & St & _ & O & _).
  split; [rewrite St|rewrite O]; constructor.
Qed.

End Shape.

Lemma sum_map_rescaled h h' f refs sub :
  (forall ref, weight_at h' ref
               = weight_at h ref * f ^ count_occ Nat.eq_dec refs ref) ->
  NoDup refs -> incl sub refs ->
  sum (map (weight_at h') sub) = f * sum (map (weight_at h) sub).
Proof.
  intros W ND. induction sub as [|r sub IH]; intros I; cbn [map].
  - rewrite sum_nil. lra.
  - rewrite !sum_cons, IH by (intros x Hx; apply I; now right).
    rewrite W.
    rewrite (proj1 (NoDup_count_occ' Nat.eq_dec refs) ND r) by (apply I; now left).
    cbn. lra.
Qed.

(** X5.  Leaving a scope whose mechanisms are listed once each and have a
    non-zero total weight leaves their weights summing to the weight of the
    scope, and pops the stack. *)
Theorem scope_exit_sums_to_weight h sid sc stack top tsc :
    pop (_scopes_stack (self h)) = Some (stack, top) ->
    nth_error (scope_objects h) top = Some tsc ->
    nth_error (scope_objects h) sid = Some sc ->
    valid_refs h (mechanisms sc) ->
    NoDup (mechanisms sc) ->
    mechanisms sc <> [] ->
    scope_total h sc <> 0 ->
    exists h',
      __exit__ sid h = (Return tt, h') /\
      scope_total h' sc = s_weight sc /\
      _scopes_stack (self h') = stack.
Proof.
  intros P Nt Ns V ND Ne Z.
  destruct (_exit_scope_ok h stack top tsc P Nt) as (h1 & E & Ms & Os).
  assert (Ns1 : nth_error (scope_objects h1) sid = Some sc) by now rewrite Os.
  assert (V1 : valid_refs h1 (mechanisms sc)) by (unfold valid_refs; now rewrite Ms).
  assert (T : scope_total h1 sc = scope_total h sc).
  { unfold scope_total. f_equal. apply map_ext. intros r. unfold weight_at.
    now rewrite Ms. }
  rewrite <- T in Z.
  destruct (normalise_nonzero h1 sid sc Ns1 V1 Ne Z) as (h' & L & W).
  exists h'. split; [|split].
  - unfold __exit__. unfold bind at 1. now rewrite E.
  - pose proof (weight_at_rescaled h1 h' _ _ W) as W'.
    unfold scope_total at 1.
    rewrite (sum_map_rescaled h1 h' _ (mechanisms sc) (mechanisms sc) W' ND)
      by apply incl_refl.
    fold (scope_total h1 sc). now field.
  - apply normalise_shape in L. destruct L as (S' & _).
    rewrite S'. apply _exit_scope_shape in E.
    destruct E as (_ & _ & [[X _]|[x P']]); [discriminate|].
    rewrite P in P'. now inv P'.
Qed.

Lemma aggregation_checks_pure a w i s :
  aggregation_checks a w i s = (Return tt, s) \/
  exists e, aggregation_checks a w i s = (Raise e, s).
Proof.
  unfold aggregation_checks, raise, ret.
  repeat match goal with
         | |- context [match ?x with _ => _ end] => destruct x
         end; eauto.
Qed.

Lemma scope_init_unfold w idx h :
  BudgetAccountantScope__init__ w idx h
  = match match idx with
          | Some i => _compute_budget_for_aggregation_scope (self h) i
          | None => Return (None, None)
          end with
    | Return b =>
        (Return (length (scope_objects h)),
         mkHeap (self h)
           (scope_objects h ++ [mkScope w idx (fst b) (snd b) []]))
    | Raise e => (Raise e, h)
    | Diverge => (Diverge, h)
    end.
Proof.
  unfold BudgetAccountantScope__init__. unfold_M.
  destruct (match idx with Some i => _ | None => _ end); reflexivity.
Qed.

Lemma scope_unfold w agg h :
  scope w agg h
  = if agg && constrained (self h) then
      if _inside_aggregation_scope (self h)
      then (Raise (ValueError nested_msg), h)
      else
        let i := _next_aggregation_index (self h) in
        let h1 := mkHeap (set_next_aggregation_index (i + 1) (self h))
                    (scope_objects h) in
        match aggregation_checks (self h) w i h1 with
        | (Return _, h2) => BudgetAccountantScope__init__ w (Some i) h2
        | (Raise e, h2) => (Raise e, h2)
        | (Diverge, h2) => (Diverge, h2)
        end
    else BudgetAccountantScope__init__ w None h.
Proof.
  unfold scope, constrained. unfold bind at 1. unfold get_self at 1.
  destruct (agg && _); [|reflexivity].
  unfold bind at 1.
  destruct (_inside_aggregation_scope (self h)); [reflexivity|].
  unfold bind at 1. unfold _get_next_aggregation_index.
  unfold bind at 1. unfold modify_self at 1, modify at 1.
  unfold bind at 1. unfold get_self at 1. unfold ret at 1.
  cbn [self set_next_aggregation_index _next_aggregation_index scope_objects].
  replace (_next_aggregation_index (self h) + 1 - 1)%nat
    with (_next_aggregation_index (self h)) by lia.
  unfold bind at 1. fold (aggregation_checks (self h) w (_next_aggregation_index (self h))).
  cbv zeta.
  destruct (aggregation_checks (self h) w (_next_aggregation_index (self h)) _)
    as [[[]| |] h2]; reflexivity.
Qed.

(** What [scope] leaves behind when it returns. *)
Lemma scope_returns w agg h sid h1 :
  scope w agg h = (Return sid, h1) ->
  sid = length (scope_objects h) /\
  exists sc,
    scope_objects h1 = scope_objects h ++ [sc] /\
    s_weight sc = w /\ mechanisms sc = [] /\
    _scopes_stack (self h1) = _scopes_stack (self h) /\
    _inside_aggregation_scope (self h1) = _inside_aggregation_scope (self h) /\
    (is_aggregation_scope sc = true ->
     _inside_aggregation_scope (self h) = false /\ agg = true /\
     constrained (self h) = true /\
     _index_aggregation_scope sc = Some (_next_aggregation_index (self h)) /\
     _next_aggregation_index (self h1) = S (_next_aggregation_index (self h))) /\
    (is_aggregation_scope sc = false -> self h1 = self h).
Proof.
  rewrite scope_unfold.
  destruct (agg && constrained (self h)) eqn:G.
  - apply andb_prop in G. destruct G as [-> C].
    destruct (_inside_aggregation_scope (self h)) eqn:I; [discriminate|].
    cbv zeta.
    match goal with |- context [aggregation_checks ?a ?w ?i ?s] =>
      destruct (aggregation_checks_pure a w i s) as [E|[e E]]; rewrite E end;
      [|discriminate].
    rewrite scope_init_unfold. cbn [self scope_objects].
    destruct (_compute_budget_for_aggregation_scope _ _) as [b| |];
      try discriminate.
    intros H; inv H. split; [reflexivity|]. eexists.
    split; [reflexivity|]. cbn. rewrite Nat.add_1_r.
    repeat split; auto; discriminate.
  - rewrite scope_init_unfold. intros H; inv H.
    split; [reflexivity|]. eexists. split; [reflexivity|]. cbn.
    repeat split; auto; discriminate.
Qed.

(** X6.  A [with] block with an empty body: entering the scope that
    [scope] just returned and leaving it at once gives back the heap as it
    was after [scope]. *)
Theorem empty_scope_block w agg h sid h1 :
    scope w agg h = (Return sid, h1) ->
    exists h2,
      __enter__ sid h1 = (Return sid, h2) /\
      _scopes_stack (self h2) = _scopes_stack (self h) ++ [sid] /\
      __exit__ sid h2 = (Return tt, h1).
Proof.
  intros H. apply scope_returns in H.
  destruct H as (-> & sc & O & _ & Em & St & In1 & Agg & _).
  assert (N : nth_error (scope_objects h1) (length (scope_objects h)) = Some sc).
  { rewrite O, nth_error_app2, Nat.sub_diag by lia. reflexivity. }
  assert (I1 : is_aggregation_scope sc = true ->
               _inside_aggregation_scope (self h1) = false).
  { intros A. rewrite In1. now apply Agg. }
  destruct h1 as [a1 objs1]. cbn in *.
  unfold __enter__, _enter_scope, __exit__, _exit_scope,
    _normalise_mechanism_weights. unfold_M. cbn. rewrite N.
  destruct (is_aggregation_scope sc) eqn:A; cbn;
    (eexists; split; [reflexivity|]); cbn;
    (split; [now rewrite St|]);
    rewrite pop_app; cbn; rewrite N, ?A; cbn; rewrite N; cbn; rewrite Em; cbn.
  - specialize (I1 eq_refl). destruct a1; cbn in I1.
    unfold set_inside_aggregation_scope, set_scopes_stack; cbn.
    rewrite I1. reflexivity.
  - destruct a1; reflexivity.
Qed.

Lemma truthy_int_pos n : (0 < n)%Z -> truthy_int (Some n) = true.
Proof. intros H. cbn. destruct (n =? 0)%Z eqn:E; auto. apply Z.eqb_eq in E. lia. Qed.

Lemma IZR_pos_neq n : (0 < n)%Z -> IZR n <> 0.
Proof. intros H. apply not_0_IZR. lia. Qed.

(** X7.  Under [n_aggregations = n > 0] and outside any aggregation scope,
    asking for an aggregation scope always consumes an aggregation index,
    also when it fails: it raises [ValueError] when [n] indices are used up
    or the weight is not 1, and otherwise returns a scope whose eager budget
    is ([total_epsilon / n], [total_delta / n]). *)
Theorem aggregation_scope_by_count h w n :
    _n_aggregations (self h) = Some n -> (0 < n)%Z ->
    _inside_aggregation_scope (self h) = false ->
    let i := _next_aggregation_index (self h) in
    ((n <= Z.of_nat i)%Z ->
     exists msg, scope w true h = (Raise (ValueError msg), index_consumed h)) /\
    ((Z.of_nat i < n)%Z -> w <> 1 ->
     exists msg, scope w true h = (Raise (ValueError msg), index_consumed h)) /\
    ((Z.of_nat i < n)%Z -> w = 1 ->
     scope w true h
     = (Return (length (scope_objects h)),
        mkHeap (self (index_consumed h))
          (scope_objects h ++
           [mkScope 1 (Some i)
              (Some (_total_epsilon (self h) * (1 / IZR n)))
              (Some (_total_delta (self h) * (1 / IZR n))) []]))).
Proof.
  intros Hn Hpos Hin i.
  assert (C : constrained (self h) = true).
  { unfold constrained. now rewrite Hn, truthy_int_pos. }
  rewrite scope_unfold. cbn [andb]. rewrite C, Hin. cbv zeta. fold i.
  unfold aggregation_checks. rewrite Hn, truthy_int_pos by assumption.
  fold (index_consumed h).
  split; [|split].
  - intros Hi. rewrite (proj2 (Z.leb_le _ _) Hi). unfold raise. eauto.
  - intros Hi Hw. rewrite (proj2 (Z.leb_gt _ _) Hi).
    rewrite Req_bool_false by assumption. unfold raise. eauto.
  - intros Hi Hw. rewrite (proj2 (Z.leb_gt _ _) Hi).
    rewrite Req_bool_true by assumption. unfold ret.
    rewrite scope_init_unfold. unfold _compute_budget_for_aggregation_scope.
    cbn [index_consumed self scope_objects set_next_aggregation_index
           _n_aggregations _total_epsilon _total_delta].
    rewrite Hn. rewrite pdiv_ok by (now apply IZR_pos_neq). cbn. now subst w.
Qed.

(** X8.  Under a non-empty [aggregation_weights] (and no
    [n_aggregations]) and outside any aggregation scope, asking for an
    aggregation scope always consumes an index: it raises [ValueError] when
    the list is used up or the weight differs from the declared one, raises
    [ZeroDivisionError] when the declared weights sum to zero, and otherwise
    returns a scope whose eager budget is the totals times
    [weight / sum(weights)]. *)
Theorem aggregation_scope_by_weights h w ws :
    _n_aggregations (self h) = None ->
    _aggregation_weights (self h) = Some ws -> ws <> [] ->
    _inside_aggregation_scope (self h) = false ->
    let i := _next_aggregation_index (self h) in
    ((length ws <= i)%nat ->
     exists msg, scope w true h = (Raise (ValueError msg), index_consumed h)) /\
    (forall x, nth_error ws i = Some x -> w <> x ->
     exists msg, scope w true h = (Raise (ValueError msg), index_consumed h)) /\
    (nth_error ws i = Some w -> sum ws = 0 ->
     scope w true h = (Raise ZeroDivisionError, index_consumed h)) /\
    (nth_error ws i = Some w -> sum ws <> 0 ->
     scope w true h
     = (Return (length (scope_objects h)),
        mkHeap (self (index_consumed h))
          (scope_objects h ++
           [mkScope w (Some i)
              (Some (_total_epsilon (self h) * (w / sum ws)))
              (Some (_total_delta (self h) * (w / sum ws))) []]))).
Proof.
  intros Hn Hws Hne Hin i.
  assert (C : constrained (self h) = true).
  { unfold constrained. rewrite Hn, Hws. destruct ws; [congruence|reflexivity]. }
  rewrite scope_unfold. cbn [andb]. rewrite C, Hin. cbv zeta. fold i.
  unfold aggregation_checks. rewrite Hn, Hws. cbn [truthy_int].
  fold (index_consumed h).
  assert (B : forall x, nth_error ws i = Some x ->
            (length ws <=? i)%nat = false).
  { intros x Hx. apply Nat.leb_gt. apply nth_error_Some. congruence. }
  split; [|split; [|split]].
  - intros Hi. rewrite (proj2 (Nat.leb_le _ _) Hi). unfold raise. eauto.
  - intros x Hx Hw. rewrite (B x Hx), Hx.
    rewrite Req_bool_false by assumption. unfold raise. eauto.
  - intros Hx Hs. rewrite (B w Hx), Hx.
    rewrite Req_bool_true by reflexivity. unfold ret.
    rewrite scope_init_unfold. unfold _compute_budget_for_aggregation_scope.
    cbn [index_consumed self scope_objects set_next_aggregation_index
           _n_aggregations _aggregation_weights _total_epsilon _total_delta].
    rewrite Hn, Hws, Hx. rewrite pdiv_zero by assumption. reflexivity.
  - intros Hx Hs. rewrite (B w Hx), Hx.
    rewrite Req_bool_true by reflexivity. unfold ret.
    rewrite scope_init_unfold. unfold _compute_budget_for_aggregation_scope.
    cbn [index_consumed self scope_objects set_next_aggregation_index
           _n_aggregations _aggregation_weights _total_epsilon _total_delta].
    rewrite Hn, Hws, Hx. rewrite pdiv_ok by assumption. reflexivity.
Qed.

Lemma sum_constant {A} (l : list A) (c : R) :
  sum (map (fun _ => c) l) = INR (length l) * c.
Proof.
  induction l as [|x l IH]; cbn [map length].
  - rewrite sum_nil. cbn. lra.
  - rewrite sum_cons, IH, S_INR. lra.
Qed.

Lemma map_nth_error_seq {A B} (f : option A -> B) (l : list A) :
  map (fun i => f (nth_error l i)) (seq 0 (length l))
  = map (fun x => f (Some x)) l.
Proof.
  induction l as [|x l IH]; cbn [length seq map]; auto.
  cbn [nth_error]. f_equal.
  rewrite <- seq_shift, map_map. cbn [nth_error]. exact IH.
Qed.

(** X9.  The eager budgets of all the declared aggregation scopes add up to
    the totals: over the [n] indices under [n_aggregations = n > 0], and over
    the indices of [aggregation_weights] when the weights do not sum to
    zero. *)
Theorem aggregation_budgets_add_up a :
    (forall n, _n_aggregations a = Some n -> (0 < n)%Z ->
       sum (map (eager_epsilon a) (seq 0 (Z.to_nat n))) = _total_epsilon a /\
       sum (map (eager_delta a) (seq 0 (Z.to_nat n))) = _total_delta a) /\
    (forall ws, _n_aggregations a = None -> _aggregation_weights a = Some ws ->
       sum ws <> 0 ->
       sum (map (eager_epsilon a) (seq 0 (length ws))) = _total_epsilon a /\
       sum (map (eager_delta a) (seq 0 (length ws))) = _total_delta a).
Proof.
  split.
  - intros n Hn Hpos.
    assert (Hr : INR (Z.to_nat n) = IZR n)
      by (rewrite INR_IZR_INZ, Z2Nat.id by lia; reflexivity).
    pose proof (IZR_pos_neq n Hpos) as Hz.
    split.
    + rewrite (sum_map_ext _ (fun _ => _total_epsilon a * (1 / IZR n))).
      * rewrite sum_constant, length_seq, Hr. now field.
      * intros i _. unfold eager_epsilon, _compute_budget_for_aggregation_scope.
        rewrite Hn, pdiv_ok by assumption. reflexivity.
    + rewrite (sum_map_ext _ (fun _ => _total_delta a * (1 / IZR n))).
      * rewrite sum_constant, length_seq, Hr. now field.
      * intros i _. unfold eager_delta, _compute_budget_for_aggregation_scope.
        rewrite Hn, pdiv_ok by assumption. reflexivity.
  - intros ws Hn Hws Hs. split.
    + rewrite (sum_map_ext _
                 (fun i => match nth_error ws i with
                           | Some x => _total_epsilon a / sum ws * x
                           | None => 0
                           end)).
      * rewrite (map_nth_error_seq
                   (fun o => match o with
                             | Some x => _total_epsilon a / sum ws * x
                             | None => 0
                             end)).
        rewrite (sum_map_scale (fun x => x)), map_id. now field.
      * intros i _. unfold eager_epsilon, _compute_budget_for_aggregation_scope.
        rewrite Hn, Hws. destruct (nth_error ws i); [|reflexivity].
        rewrite pdiv_ok by assumption. cbn. now field.
    + rewrite (sum_map_ext _
                 (fun i => match nth_error ws i with
                           | Some x => _total_delta a / sum ws * x
                           | None => 0
                           end)).
      * rewrite (map_nth_error_seq
                   (fun o => match o with
                             | Some x => _total_delta a / sum ws * x
                             | None => 0
                             end)).
        rewrite (sum_map_scale (fun x => x)), map_id. now field.
      * intros i _. unfold eager_delta, _compute_budget_for_aggregation_scope.
        rewrite Hn, Hws. destruct (nth_error ws i); [|reflexivity].
        rewrite pdiv_ok by assumption. cbn. now field.
Qed.

Lemma compute_budget_some a i b :
  constrained a = true ->
  _compute_budget_for_aggregation_scope a i = Return b ->
  exists e d, b = (Some e, Some d).
Proof.
  unfold constrained, _compute_budget_for_aggregation_scope. intros C.
  destruct (_n_aggregations a) as [n|].
  - destruct (pdiv 1 (IZR n)); cbn; intros H; inv H; eauto.
  - destruct (_aggregation_weights a) as [ws|]; [|discriminate].
    destruct (nth_error ws i); [|discriminate].
    destruct (pdiv r (sum ws)); cbn; intros H; inv H; eauto.
Qed.

(** X10.  A scope returned by [scope] is an aggregation scope exactly when
    an aggregation scope was asked for on a constrained accountant; then its
    [epsilon] and [delta] can be read, and otherwise reading them raises the
    only-aggregation-scopes error.  The could-not-be-computed error never
    occurs on such a scope. *)
Theorem scope_budget_readable w agg h sid h1 :
    scope w agg h = (Return sid, h1) ->
    exists sc,
      nth_error (scope_objects h1) sid = Some sc /\
      (agg && constrained (self h) = true ->
       is_aggregation_scope sc = true /\
       exists e d, scope_epsilon sc = Return (Some e) /\
                   scope_delta sc = Return (Some d)) /\
      (agg && constrained (self h) = false ->
       is_aggregation_scope sc = false /\
       scope_epsilon sc
       = Raise (ValueError "Only aggregation scopes have computed budget.") /\
       scope_delta sc
       = Raise (ValueError "Only aggregation scopes have computed budget.")).
Proof.
  rewrite scope_unfold.
  destruct (agg && constrained (self h)) eqn:G.
  - apply andb_prop in G. destruct G as [-> C].
    destruct (_inside_aggregation_scope (self h)) eqn:I; [discriminate|].
    cbv zeta.
    match goal with |- context [aggregation_checks ?a ?w ?i ?s] =>
      destruct (aggregation_checks_pure a w i s) as [E|[e E]]; rewrite E end;
      [|discriminate].
    rewrite scope_init_unfold. cbn [self scope_objects].
    destruct (_compute_budget_for_aggregation_scope _ _) as [b| |] eqn:B;
      try discriminate.
    apply compute_budget_some in B; [|exact C].
    destruct B as (e & d & ->).
    intros H; inv H. eexists. split.
    + cbn. rewrite nth_error_app2, Nat.sub_diag by lia. reflexivity.
    + split; [|discriminate]. intros _. split; [reflexivity|].
      exists e, d. split; reflexivity.
  - rewrite scope_init_unfold. intros H; inv H. eexists. split.
    + cbn. rewrite nth_error_app2, Nat.sub_diag by lia. reflexivity.
    + split; [discriminate|]. intros _. repeat split.
Qed.

Section Poisoned.
Context {pldlib : PrivacyLossDistributionLib}.

Lemma perform_specs_frozen k c h o h' :
  perform k c h = (o, h') -> _finalized (self h) = true -> specs h' = specs h.
Proof.
  intros H F. apply perform_effect in H.
  destruct H as [[_ S]|[(_ & F' & _)|(_ & F' & _)]]; congruence.
Qed.

Lemma run_specs_frozen k cs : forall h h',
  run k cs h = Some h' -> _finalized (self h) = true -> specs h' = specs h.
Proof.
  induction cs as [|c cs IH]; intros h h' H F; cbn in H.
  - now inv H.
  - destruct (perform k c h) as [[[]| |] h1] eqn:E; try discriminate;
      (rewrite (IH h1 h' H); [eapply perform_specs_frozen; eauto
                             |eapply perform_finalized; eauto]).
Qed.

(** X11.  Calling [compute_budgets] inside an open scope, with a mechanism
    registered and [_finalize] passing, raises and leaves the accountant
    finalized: whatever the caller does next, the descriptors stay as they
    were, all unset, and every further [compute_budgets] raises. *)
Theorem compute_budgets_in_scope_is_final k fuel h hf :
    reachable k h ->
    _scopes_stack (self h) <> [] ->
    _mechanisms (self h) <> [] ->
    _finalize h = (Return tt, hf) ->
    compute_budgets k fuel h = (Raise (Exception_ in_scope_msg), hf) /\
    forall cs h2, run k cs hf = Some h2 ->
      specs h2 = specs h /\
      Forall unset (specs h2) /\
      forall fuel', exists e, compute_budgets k fuel' h2 = (Raise e, h2).
Proof.
  intros Rh S Ms Fz.
  destruct (_finalize_cases h) as [[e E]|[F E]]; [congruence|].
  rewrite E in Fz. inv Fz.
  split.
  - destruct k; unfold compute_budgets, Naive.compute_budgets, PLD.compute_budgets;
      unfold bind at 1; rewrite E; unfold bind at 1; unfold get_self at 1;
      cbn [self _mechanisms set_finalized _scopes_stack];
      destruct (_mechanisms (self h)); try congruence;
      destruct (_scopes_stack (self h)); try congruence; reflexivity.
  - intros cs h2 R.
    assert (S2 : specs h2 = specs h).
    { rewrite (run_specs_frozen _ _ _ _ R) by reflexivity. reflexivity. }
    split; [exact S2|]. split.
    + rewrite S2. apply (reachable_lazy_inv _ _ Rh). exact F.
    + intros fuel'. apply compute_budgets_finalized.
      eapply run_finalized; eauto.
Qed.

End Poisoned.

Lemma set_mechanisms_same a : set_mechanisms (_mechanisms a) a = a.
Proof. now destruct a. Qed.


Lemma div_neq_0 x y : x / y <> 0 -> x <> 0.
Proof. intros H ->. apply H. unfold Rdiv. ring. Qed.

Lemma div_neq_0_intro x y : x <> 0 -> y <> 0 -> x / y <> 0.
Proof.
  intros Hx Hy H. apply Hx.
  replace x with (x / y * y) by (field; assumption). rewrite H. ring.
Qed.

Lemma for_each_object_returns_all {A} (body : M A unit) objs objs' :
  for_each_object body objs = (Return tt, objs') ->
  Forall (fun x => exists x', body x = (Return tt, x')) objs.
Proof.
  revert objs'. induction objs as [|x rest IH]; intros objs' H; cbn in H.
  - constructor.
  - destruct (body x) as [[[]| |] x'] eqn:E; try discriminate.
    destruct (for_each_object body rest) as [o rest'] eqn:E'.
    inv H. constructor; eauto.
Qed.

Section Needs.
Context {pldlib : PrivacyLossDistributionLib}.

Lemma calibrate_returns_iff e d sigma m :
  (exists m', PLD.calibrate e d sigma m = (Return tt, m')) <->
  calibratable e sigma m.
Proof.
  unfold calibratable, PLD.calibrate, call_set_eps_delta, set_eps_delta, pdiv.
  unfold_M. split.
  - intros [m' H]. revert H.
    destruct (Req_dec_T (weight m) 0); [discriminate|].
    split; auto. intros T. revert H. rewrite T. cbn.
    destruct (Req_dec_T (sensitivity m * sigma / weight m) 0) as [|Hn];
      [discriminate|].
    destruct (Req_dec_T e 0) as [|He]; [discriminate|]. intros _.
    apply div_neq_0 in Hn.
    split; [|split; [|exact He]]; intros Hz; apply Hn; rewrite Hz; ring.
  - intros [Hw Hg].
    destruct (Req_dec_T (weight m) 0); [contradiction|].
    destruct (mechanism_type (mechanism_spec m)) eqn:T; cbn; eauto.
    destruct (Hg eq_refl) as (Hs & Hsig & He).
    destruct (Req_dec_T (sensitivity m * sigma / weight m) 0) as [Z|_].
    { exfalso. revert Z. apply div_neq_0_intro; auto. }
    destruct (Req_dec_T e 0); [contradiction|]. cbn. eauto.
Qed.

Lemma for_each_object_ok {A} (body : M A unit) objs :
  Forall (fun x => exists x', body x = (Return tt, x')) objs ->
  exists objs', for_each_object body objs = (Return tt, objs').
Proof.
  induction 1 as [|x rest [x' Hx] _ [rest' IH]]; cbn.
  - eauto.
  - rewrite Hx, IH. eauto.
Qed.


End Needs.

Lemma extends_registry_refl h : extends_registry h h.
Proof. exists []. now rewrite app_nil_r. Qed.

Lemma extends_registry_trans h1 h2 h3 :
  extends_registry h1 h2 -> extends_registry h2 h3 -> extends_registry h1 h3.
Proof.
  intros [s1 E1] [s2 E2]. exists (s1 ++ s2). now rewrite E2, E1, app_assoc.
Qed.

Lemma extends_registry_same h h' :
  map identity_of (_mechanisms (self h'))
  = map identity_of (_mechanisms (self h)) -> extends_registry h h'.
Proof. intros E. exists []. now rewrite app_nil_r. Qed.

Lemma rescale_loop_identity factor refs h o h' :
  for_each refs
    (fun ref => (m <- deref_mechanism ref ;;
                 assign_mechanism ref (set_weight (weight m * factor) m))%py) h
  = (o, h') ->
  map identity_of (_mechanisms (self h'))
  = map identity_of (_mechanisms (self h)).
Proof.
  revert h; induction refs as [|r refs IH]; intros h H; cbn in H.
  - unfold_M. now inv H.
  - unfold bind at 1 in H. unfold bind at 1 in H.
    unfold deref_mechanism at 1 in H.
    destruct (nth_error (_mechanisms (self h)) r) as [m|] eqn:E; cbn in H.
    + apply IH in H. cbn in H. rewrite H.
      eapply update_map_same; eauto.
    + now inv H.
Qed.

Lemma normalise_identity sid h o h' :
  _normalise_mechanism_weights sid h = (o, h') ->
  map identity_of (_mechanisms (self h'))
  = map identity_of (_mechanisms (self h)).
Proof.
  unfold _normalise_mechanism_weights.
  unfold bind at 1. unfold deref_scope.
  destruct (nth_error (scope_objects h) sid) as [sc|]; cbn.
  2:{ intros H; now inv H. }
  destruct (mechanisms sc) as [|r refs] eqn:Em.
  - unfold_M. intros H; now inv H.
  - unfold bind at 1.
    destruct (comprehension (r :: refs) _ h) as [[ws| |] h1] eqn:E;
      apply comprehension_weights in E; subst h1;
      try solve [intros H; now inv H].
    unfold bind at 1. unfold lift.
    destruct (pdiv (s_weight sc) (sum ws)) as [f| |];
      try solve [intros H; now inv H].
    apply rescale_loop_identity.
Qed.

Lemma for_each_object_preserves {A B} (key : A -> B) (body : M A unit) objs :
  (forall x o x', body x = (o, x') -> key x' = key x) ->
  map key (snd (for_each_object body objs)) = map key objs.
Proof.
  intros Hb. induction objs as [|x rest IH]; cbn; auto.
  destruct (body x) as [[[]| |] x'] eqn:E; cbn;
    try (rewrite (Hb _ _ _ E); reflexivity).
  destruct (for_each_object body rest) as [o rest']. cbn in *.
  now rewrite (Hb _ _ _ E), IH.
Qed.

Lemma assign_budget_identity e d we wd m o m' :
  Naive.assign_budget e d we wd m = (o, m') -> identity_of m' = identity_of m.
Proof.
  unfold Naive.assign_budget, call_set_eps_delta, set_eps_delta, truthy, pdiv.
  unfold_M.
  destruct (Req_dec_T we 0); destruct (use_delta (mechanism_spec m));
    try destruct (Req_dec_T wd 0); intros H; inv H; reflexivity.
Qed.

Section Registry.
Context {pldlib : PrivacyLossDistributionLib}.

Lemma calibrate_identity e d sigma m o m' :
  PLD.calibrate e d sigma m = (o, m') -> identity_of m' = identity_of m.
Proof.
  unfold PLD.calibrate, call_set_eps_delta, set_eps_delta, pdiv.
  unfold_M.
  destruct (Req_dec_T (weight m) 0); [intros H; now inv H|].
  destruct (mechanism_type (mechanism_spec m)) eqn:T; cbn;
    try (intros H; inv H; unfold identity_of; cbn; now rewrite ?T).
  destruct (Req_dec_T (sensitivity m * sigma / weight m) 0);
    [intros H; inv H; unfold identity_of; cbn; now rewrite ?T|].
  destruct (Req_dec_T e 0);
    intros H; inv H; unfold identity_of; cbn; now rewrite ?T.
Qed.

Lemma for_mechanisms_identity body h o h' :
  (forall x o x', body x = (o, x') -> identity_of x' = identity_of x) ->
  for_mechanisms body h = (o, h') ->
  map identity_of (_mechanisms (self h'))
  = map identity_of (_mechanisms (self h)).
Proof.
  intros Hb. unfold for_mechanisms.
  pose proof (for_each_object_preserves identity_of body (_mechanisms (self h)) Hb)
    as P.
  destruct (for_each_object body (_mechanisms (self h))) as [o2 ms'].
  intros H; inv H. exact P.
Qed.

Lemma compute_budgets_identity k fuel h o h' :
  compute_budgets k fuel h = (o, h') ->
  map identity_of (_mechanisms (self h'))
  = map identity_of (_mechanisms (self h)).
Proof.
  destruct (_finalize_cases h) as [[e E]|[F E]].
  - destruct k; unfold compute_budgets, Naive.compute_budgets, PLD.compute_budgets;
      unfold bind at 1; rewrite E; intros H; now inv H.
  - destruct k; unfold compute_budgets, Naive.compute_budgets, PLD.compute_budgets;
      unfold bind at 1; rewrite E; unfold bind at 1; unfold get_self at 1;
      cbn [self _mechanisms set_finalized _scopes_stack];
      destruct (_mechanisms (self h)) eqn:Ms; unfold_M;
      try solve [intros H; inv H; cbn; now rewrite Ms];
      destruct (_scopes_stack (self h)) eqn:St;
      try solve [intros H; inv H; cbn; now rewrite Ms].
    + intros H. apply for_mechanisms_identity in H.
      * cbn in H. now rewrite Ms in H.
      * apply assign_budget_identity.
    + match goal with |- context [PLD.closed_form_or_search ?f ?a] =>
        destruct (PLD.closed_form_or_search f a) end;
        intros H; try solve [inv H; cbn; now rewrite Ms].
      apply for_mechanisms_identity in H.
      * cbn in H. now rewrite Ms in H.
      * apply calibrate_identity.
Qed.

Lemma perform_extends_registry k c h o h' :
  perform k c h = (o, h') -> extends_registry h h'.
Proof.
  destruct c; cbn [perform]; intros H.
  - apply ignore_eq in H. destruct H as [o' H].
    apply scope_shape in H. destruct H as (_ & Ms & _).
    apply extends_registry_same. now rewrite Ms.
  - apply ignore_eq in H. destruct H as [o' H].
    apply enter_shape in H. destruct H as (Ms & _).
    apply extends_registry_same. now rewrite Ms.
  - unfold __exit__ in H. unfold bind at 1 in H.
    destruct (_exit_scope h) as [[[]| |] h1] eqn:E;
      apply _exit_scope_shape in E; destruct E as (Ms & _).
    + apply normalise_identity in H.
      apply extends_registry_same. now rewrite H, Ms.
    + inv H. apply extends_registry_same. now rewrite Ms.
    + inv H. apply extends_registry_same. now rewrite Ms.
  - apply ignore_eq in H. destruct H as [o' H].
    apply request_budget_effect in H. destruct H as [[_ ->]|(_ & _ & c & E)].
    + apply extends_registry_refl.
    + eexists. rewrite E. cbn. rewrite map_app. reflexivity.
  - apply compute_budgets_identity in H. now apply extends_registry_same.
Qed.

(** X14.  The registry is append-only: after any sequence of calls every
    mechanism is still at its position, with the same sensitivity, type and
    count. *)
Theorem registry_is_append_only k cs : forall h h',
    run k cs h = Some h' ->
    (length (_mechanisms (self h)) <= length (_mechanisms (self h')))%nat /\
    forall ref m,
      nth_error (_mechanisms (self h)) ref = Some m ->
      exists m',
        nth_error (_mechanisms (self h')) ref = Some m' /\
        sensitivity m' = sensitivity m /\
        mechanism_type (mechanism_spec m') = mechanism_type (mechanism_spec m) /\
        count (mechanism_spec m') = count (mechanism_spec m).
Proof.
  assert (R : forall h h', run k cs h = Some h' -> extends_registry h h').
  { induction cs as [|c cs IH]; intros h h' H; cbn in H.
    - inv H. apply extends_registry_refl.
    - destruct (perform k c h) as [[[]| |] h1] eqn:E; try discriminate;
        (eapply extends_registry_trans;
         [eapply perform_extends_registry; eauto|apply IH; exact H]). }
  intros h h' H. destruct (R h h' H) as [suffix E].
  assert (L : (length (_mechanisms (self h)) <= length (_mechanisms (self h')))%nat).
  { apply (f_equal (@length _)) in E. rewrite length_app, !length_map in E. lia. }
  split; [exact L|].
  intros ref m N.
  assert (Hlt : (ref < length (_mechanisms (self h)))%nat)
    by (apply nth_error_Some; congruence).
  destruct (nth_error (_mechanisms (self h')) ref) as [m'|] eqn:N'.
  2:{ apply nth_error_None in N'. lia. }
  exists m'. split; [reflexivity|].
  assert (K : nth_error (map identity_of (_mechanisms (self h'))) ref
              = Some (identity_of m)).
  { rewrite E, nth_error_app1 by (rewrite length_map; exact Hlt).
    rewrite nth_error_map, N. reflexivity. }
  rewrite nth_error_map, N' in K. cbn in K. inv K.
  unfold count. repeat split; congruence.
Qed.

End Registry.

Lemma W_eps_counts_one ms :
  Forall (fun m => count (mechanism_spec m) = 1%Z) ms ->
  W_eps ms = sum (map weight ms).
Proof.
  intros H. unfold W_eps. apply sum_map_ext. intros m Hin.
  rewrite Forall_forall in H. unfold weighted_count. rewrite (H m Hin). lra.
Qed.

Section Agreement.
Context {pldlib : PrivacyLossDistributionLib}.

Lemma pld_returns_calibratable fuel h h' :
  PLD.compute_budgets fuel h = (Return tt, h') ->
  _mechanisms (self h) <> [] ->
  exists sigma,
    PLD.closed_form_or_search fuel (set_finalized true (self h)) = Return sigma /\
    _mechanisms (self h')
    = map (calibrated (_total_epsilon (self h)) (_total_delta (self h)) sigma)
        (_mechanisms (self h)) /\
    Forall (calibratable (_total_epsilon (self h)) sigma) (_mechanisms (self h)).
Proof.
  intros H Ne.
  destruct (pld_compute_budgets_returns fuel h h' H Ne) as (_ & _ & sigma & S & E).
  exists sigma. split; [exact S|]. split; [subst h'; reflexivity|].
  rewrite pld_compute_budgets_unfold in H.
  destruct (_finalize_cases h) as [[e E']|[F E']]; rewrite E' in H; [discriminate|].
  cbn [self _mechanisms set_finalized _scopes_stack _total_epsilon _total_delta
         scope_objects] in H.
  destruct (_mechanisms (self h)) as [|m ms] eqn:Ms; [congruence|].
  destruct (_scopes_stack (self h)); [|discriminate].
  rewrite S in H. unfold for_mechanisms in H.
  cbn [self _mechanisms set_finalized set_minimum_noise_std scope_objects] in H.
  rewrite Ms in H.
  destruct (for_each_object _ (m :: ms)) as [o ms'] eqn:L.
  inv H. apply for_each_object_returns_all in L.
  eapply Forall_impl; [|exact L]. intros x Hx.
  exact (proj1 (calibrate_returns_iff _ _ _ _) Hx).
Qed.

(** X15.  The closed form of the PLD accountant agrees with the naive
    split: under [total_delta = 0], with all counts 1 and a non-zero sum of
    weights, the noise of every mechanism is
    [sqrt 2 * sensitivity / eps], for the [eps] the naive accountant would
    assign to it. *)
Theorem pld_closed_form_matches_naive_split fuel h h' :
    PLD.compute_budgets fuel h = (Return tt, h') ->
    _total_delta (self h) = 0 ->
    Forall (fun m => count (mechanism_spec m) = 1%Z) (_mechanisms (self h)) ->
    sum (map weight (_mechanisms (self h))) <> 0 ->
    forall i m,
      nth_error (_mechanisms (self h)) i = Some m ->
      exists m',
        nth_error (_mechanisms (self h')) i = Some m' /\
        spec_eps (_total_epsilon (self h)) (_mechanisms (self h)) m <> 0 /\
        noise_standard_deviation (mechanism_spec m')
        = Return (sqrt 2 * sensitivity m
                  / spec_eps (_total_epsilon (self h)) (_mechanisms (self h)) m).
Proof.
  intros H D C1 Sw i m N.
  assert (Ne : _mechanisms (self h) <> []).
  { intros X. rewrite X in N. destruct i; discriminate. }
  destruct (pld_returns_calibratable fuel h h' H Ne) as (sigma & S & E & Cal).
  unfold PLD.closed_form_or_search in S.
  cbn [_total_delta _total_epsilon set_finalized _mechanisms] in S.
  rewrite D, Req_bool_true in S by reflexivity.
  unfold obind, pdiv in S.
  destruct (Req_dec_T (_total_epsilon (self h)) 0) as [|He]; [discriminate|].
  inv S. rewrite sum_of_weights_spec in *.
  rewrite Forall_forall in Cal.
  destruct (Cal m (nth_error_In _ _ N)) as [Hw _].
  exists (calibrated (_total_epsilon (self h)) (_total_delta (self h))
            (sum (map weight (_mechanisms (self h)))
             / _total_epsilon (self h) * sqrt 2) m).
  split; [rewrite E, nth_error_map, N; reflexivity|].
  unfold spec_eps. rewrite (W_eps_counts_one _ C1).
  destruct (Req_dec_T (sum (map weight (_mechanisms (self h)))) 0);
    [contradiction|].
  split.
  - apply div_neq_0_intro; auto.
  - unfold calibrated, noise_standard_deviation.
    destruct (mechanism_type (mechanism_spec m)); cbn; f_equal; now field.
Qed.

End Agreement.

Lemma construct_validates_witness :
  construct NaiveBudgetAccountant 1 0 0 None None = Return fresh_heap.
Proof.
  apply (proj1 (construct_validates NaiveBudgetAccountant 1 0 0 None None)).
  unfold valid_arguments. repeat split; try lra; auto; discriminate.
Defined.


Lemma request_budget_registers_witness :
  exists h' sc',
    request_budget NaiveBudgetAccountant LAPLACE 1 1 1 None two_in_scope_heap
    = (Return 2%nat, h') /\
    nth_error (scope_objects h') 0 = Some sc' /\
    mechanisms sc' = [0%nat; 1%nat] ++ [2%nat].
Proof.
  assert (E : exists h',
             request_budget NaiveBudgetAccountant LAPLACE 1 1 1 None
               two_in_scope_heap = (Return 2%nat, h')).
  { eexists. eval_method. reflexivity. }
  destruct E as [h' E].
  destruct (request_budget_registers _ _ _ _ _ _ _ _ _ E) as (_ & _ & _ & W).
  destruct (W 0%nat (plain_scope 1 [0%nat; 1%nat]) eq_refl)
    as (sc' & N & _ & _ & _ & _ & M).
  exists h', sc'. split; [exact E|]. split; [exact N|].
  apply M.
  - repeat constructor. intros X; inv X.
  - left. reflexivity.
Defined.

Lemma one_in_scope_heap_reachable k :
  reachable (pldlib := constant_lib) k one_in_scope_heap.
Proof.
  exists 1, 0, 0, None, None, fresh_heap,
    [call_scope 1 false; call_enter 0; call_request_budget LAPLACE 1 1 1 None].
  split.
  - destruct k; eval_method; reflexivity.
  - destruct k; cbn [run]; eval_method; reflexivity.
Defined.

Lemma reachable_well_formed_witness :
  _scopes_stack (self one_in_scope_heap) = [0%nat] /\
  map mechanisms (scope_objects one_in_scope_heap) = [[0%nat]] /\
  Forall (fun sid => (sid < length (scope_objects one_in_scope_heap))%nat)
    (_scopes_stack (self one_in_scope_heap)) /\
  Forall (fun sc =>
            Forall (fun ref =>
                      (ref < length (_mechanisms (self one_in_scope_heap)))%nat)
              (mechanisms sc))
    (scope_objects one_in_scope_heap).
Proof.
  split; [reflexivity|]. split; [reflexivity|].
  apply (reachable_well_formed (pldlib := constant_lib) NaiveBudgetAccountant
           one_in_scope_heap (one_in_scope_heap_reachable NaiveBudgetAccountant)).
Defined.

Lemma scope_exit_sums_to_weight_witness :
  exists h',
    __exit__ 0 two_in_scope_heap = (Return tt, h') /\
    scope_total h' (plain_scope 1 [0%nat; 1%nat]) = 1 /\
    _scopes_stack (self h') = [].
Proof.
  apply (scope_exit_sums_to_weight two_in_scope_heap 0
           (plain_scope 1 [0%nat; 1%nat]) [] 0%nat (plain_scope 1 [0%nat; 1%nat]));
    try reflexivity.
  - repeat constructor.
  - repeat constructor; cbn; intuition discriminate.
  - discriminate.
  - unfold scope_total, sum. cbn. lra.
Defined.

Lemma empty_scope_block_witness :
  exists h2,
    __enter__ 0 scope_created_heap = (Return 0%nat, h2) /\
    _scopes_stack (self h2) = _scopes_stack (self fresh_heap) ++ [0%nat] /\
    __exit__ 0 h2 = (Return tt, scope_created_heap).
Proof.
  apply (empty_scope_block 1 false fresh_heap 0 scope_created_heap).
  eval_method. reflexivity.
Defined.

Lemma aggregation_scope_by_count_witness :
  scope 1 true two_aggregations_heap
  = (Return 0%nat,
     mkHeap (self (index_consumed two_aggregations_heap))
       [mkScope 1 (Some 0%nat) (Some (1 * (1 / 2))) (Some (0 * (1 / 2))) []]).
Proof.
  apply (proj2 (proj2 (aggregation_scope_by_count two_aggregations_heap 1 2%Z
                         eq_refl eq_refl eq_refl)));
    reflexivity.
Defined.

Lemma aggregation_scope_by_weights_witness :
  scope 1 true weighted_aggregations_heap
  = (Return 0%nat,
     mkHeap (self (index_consumed weighted_aggregations_heap))
       [mkScope 1 (Some 0%nat) (Some (1 * (1 / sum [1; 3])))
          (Some (0 * (1 / sum [1; 3]))) []]).
Proof.
  apply (proj2 (proj2 (proj2
           (aggregation_scope_by_weights weighted_aggregations_heap 1 [1; 3]
              eq_refl eq_refl ltac:(discriminate) eq_refl))));
    [reflexivity|].
  unfold sum. cbn. lra.
Defined.

Lemma aggregation_budgets_add_up_witness :
  sum (map (eager_epsilon (self two_aggregations_heap)) (seq 0 (Z.to_nat 2))) = 1 /\
  sum (map (eager_delta (self two_aggregations_heap)) (seq 0 (Z.to_nat 2))) = 0.
Proof.
  apply (proj1 (aggregation_budgets_add_up (self two_aggregations_heap)) 2%Z);
    reflexivity.
Defined.

Lemma scope_budget_readable_witness :
  exists h1 sc e d,
    scope 1 true two_aggregations_heap = (Return 0%nat, h1) /\
    nth_error (scope_objects h1) 0 = Some sc /\
    scope_epsilon sc = Return (Some e) /\
    scope_delta sc = Return (Some d).
Proof.
  assert (E : exists h1, scope 1 true two_aggregations_heap = (Return 0%nat, h1)).
  { eexists. eval_method. reflexivity. }
  destruct E as [h1 E].
  destruct (scope_budget_readable _ _ _ _ _ E) as (sc & N & A & _).
  destruct (A eq_refl) as (_ & e & d & He & Hd).
  exists h1, sc, e, d. auto.
Defined.

Lemma compute_budgets_in_scope_is_final_witness :
  compute_budgets (pldlib := constant_lib) NaiveBudgetAccountant 0 one_in_scope_heap
  = (Raise (Exception_ in_scope_msg),
     mkHeap (set_finalized true (self one_in_scope_heap))
       (scope_objects one_in_scope_heap)).
Proof.
  apply (compute_budgets_in_scope_is_final (pldlib := constant_lib)
           NaiveBudgetAccountant 0 one_in_scope_heap _
           (one_in_scope_heap_reachable NaiveBudgetAccountant)).
  - discriminate.
  - discriminate.
  - reflexivity.
Defined.



Lemma registry_is_append_only_witness :
  exists h' m',
    run (pldlib := constant_lib) NaiveBudgetAccountant
      [call_compute_budgets 0; call_scope 1 false] counted_heap = Some h' /\
    nth_error (_mechanisms (self h')) 0 = Some m' /\
    sensitivity m' = 1 /\
    mechanism_type (mechanism_spec m') = LAPLACE /\
    count (mechanism_spec m') = 2%Z.
Proof.
  assert (E : exists h',
             run (pldlib := constant_lib) NaiveBudgetAccountant
               [call_compute_budgets 0; call_scope 1 false] counted_heap
             = Some h').
  { eexists. cbn [run]. eval_method. reflexivity. }
  destruct E as [h' E].
  destruct (proj2 (registry_is_append_only (pldlib := constant_lib) _ _ _ _ E)
              0%nat (mechanism LAPLACE 1 2) eq_refl)
    as (m' & N & Hs & Ht & Hc).
  exists h', m'. auto.
Defined.

Lemma pld_closed_form_matches_naive_split_witness :
  exists h' m',
    PLD.compute_budgets (pldlib := constant_lib) 0 laplace_heap = (Return tt, h') /\
    nth_error (_mechanisms (self h')) 0 = Some m' /\
    noise_standard_deviation (mechanism_spec m')
    = Return (sqrt 2 * 1
              / spec_eps 2 (_mechanisms (self laplace_heap))
                  (mechanism LAPLACE 1 1)).
Proof.
  assert (E : exists h',
             PLD.compute_budgets (pldlib := constant_lib) 0 laplace_heap
             = (Return tt, h')).
  { eexists. eval_method. reflexivity. }
  destruct E as [h' E].
  destruct (pld_closed_form_matches_naive_split (pldlib := constant_lib) 0
              laplace_heap h' E eq_refl) with (i := 0%nat) (m := mechanism LAPLACE 1 1)
    as (m' & N & _ & Hn).
  - repeat constructor.
  - unfold sum. cbn. lra.
  - reflexivity.
  - exists h', m'. auto.
Defined.

Lemma normalise_keeps_scopes sid h o h' :
  _normalise_mechanism_weights sid h = (o, h') ->
  scope_objects h' = scope_objects h /\
  length (_mechanisms (self h')) = length (_mechanisms (self h)).
Proof. intros H. apply normalise_shape in H. tauto. Qed.

(** X18.  Normalising a scope (mechanisms listed once each, non-zero total
    weight) makes the weights sum to the weight of the scope; normalising
    it again changes no weight when that weight is non-zero, and raises
    [ZeroDivisionError] when it is zero. *)
Theorem normalise_twice h sid sc :
    nth_error (scope_objects h) sid = Some sc ->
    valid_refs h (mechanisms sc) ->
    NoDup (mechanisms sc) ->
    mechanisms sc <> [] ->
    scope_total h sc <> 0 ->
    exists h1,
      _normalise_mechanism_weights sid h = (Return tt, h1) /\
      scope_total h1 sc = s_weight sc /\
      (s_weight sc <> 0 ->
       exists h2,
         _normalise_mechanism_weights sid h1 = (Return tt, h2) /\
         forall ref, weight_at h2 ref = weight_at h1 ref) /\
      (s_weight sc = 0 ->
       _normalise_mechanism_weights sid h1 = (Raise ZeroDivisionError, h1)).
Proof.
  intros N V ND Ne Z.
  destruct (normalise_nonzero h sid sc N V Ne Z) as (h1 & L & W).
  pose proof (weight_at_rescaled h h1 _ _ W) as W'.
  assert (T1 : scope_total h1 sc = s_weight sc).
  { unfold scope_total at 1.
    rewrite (sum_map_rescaled h h1 _ (mechanisms sc) (mechanisms sc) W' ND)
      by apply incl_refl.
    fold (scope_total h sc). now field. }
  destruct (normalise_keeps_scopes _ _ _ _ L) as (O1 & L1).
  assert (N1 : nth_error (scope_objects h1) sid = Some sc) by now rewrite O1.
  assert (V1 : valid_refs h1 (mechanisms sc)) by (unfold valid_refs; now rewrite L1).
  exists h1. split; [exact L|]. split; [exact T1|]. split.
  - intros Hw.
    destruct (normalise_nonzero h1 sid sc N1 V1 Ne) as (h2 & L2 & W2).
    { now rewrite T1. }
    exists h2. split; [exact L2|].
    intros ref. rewrite (weight_at_rescaled h1 h2 _ _ W2 ref).
    rewrite T1. replace (s_weight sc / s_weight sc) with 1 by (now field).
    rewrite pow1. lra.
  - intros Hw. apply normalise_zero with sc; auto. now rewrite T1.
Qed.

Lemma eps_counted_at_assigned h h' e d ref :
  _mechanisms (self h')
  = map (assigned e d (_mechanisms (self h))) (_mechanisms (self h)) ->
  W_eps (_mechanisms (self h)) <> 0 ->
  eps_counted_at h' ref
  = e / W_eps (_mechanisms (self h)) * weighted_count_at h ref.
Proof.
  intros E Z. unfold eps_counted_at, weighted_count_at.
  rewrite E, nth_error_map.
  destruct (nth_error (_mechanisms (self h)) ref) as [m|]; cbn; [|lra].
  unfold spec_eps, weighted_count, count.
  destruct (Req_dec_T (W_eps (_mechanisms (self h))) 0); [contradiction|].
  now field.
Qed.

(** X19.  When [compute_budgets] of the naive accountant returns with
    [W_eps <> 0], the eps received by any group of mechanisms, each counted
    [count] times, is [total_epsilon] times the share of the group's
    weighted counts in [W_eps]. *)
Theorem naive_group_share h h' refs :
    Naive.compute_budgets h = (Return tt, h') ->
    W_eps (_mechanisms (self h)) <> 0 ->
    sum (map (eps_counted_at h') refs)
    = _total_epsilon (self h)
      * (sum (map (weighted_count_at h) refs) / W_eps (_mechanisms (self h))).
Proof.
  intros H Z.
  assert (Ne : _mechanisms (self h) <> []).
  { intros X. apply Z. rewrite X. reflexivity. }
  destruct (naive_compute_budgets_returns h h' H Ne) as (_ & _ & E).
  assert (Ems : _mechanisms (self h')
                = map (assigned (_total_epsilon (self h)) (_total_delta (self h))
                         (_mechanisms (self h))) (_mechanisms (self h)))
    by (rewrite E; reflexivity).
  rewrite (sum_map_ext _
             (fun ref => _total_epsilon (self h) / W_eps (_mechanisms (self h))
                         * weighted_count_at h ref)).
  - rewrite sum_map_scale. now field.
  - intros ref _. now apply eps_counted_at_assigned with (d := _total_delta (self h)).
Qed.

Lemma normalise_twice_witness :
  exists h1,
    _normalise_mechanism_weights 0 two_in_scope_heap = (Return tt, h1) /\
    scope_total h1 (plain_scope 1 [0%nat; 1%nat]) = 1.
Proof.
  destruct (normalise_twice two_in_scope_heap 0 (plain_scope 1 [0%nat; 1%nat]))
    as (h1 & L & T & _); try reflexivity.
  - repeat constructor.
  - repeat constructor; cbn; intuition discriminate.
  - discriminate.
  - unfold scope_total, sum. cbn. lra.
  - exists h1. split; [exact L|exact T].
Defined.

Lemma naive_group_share_witness :
  exists h',
    Naive.compute_budgets split_heap = (Return tt, h') /\
    sum (map (eps_counted_at h') [1%nat])
    = 1 * (sum (map (weighted_count_at split_heap) [1%nat])
           / W_eps (_mechanisms (self split_heap))).
Proof.
  assert (E : exists h', Naive.compute_budgets split_heap = (Return tt, h')).
  { eexists. eval_method. reflexivity. }
  destruct E as [h' E]. exists h'. split; [exact E|].
  apply (naive_group_share split_heap h' [1%nat] E).
  unfold W_eps, sum, weighted_count. cbn. lra.
Defined.

(** ** Aggregation scopes in [with] blocks *)

(** The kind of a scope, read off the list of kinds. *)
Lemma aggregation_scope_at_kinds h sid :
  aggregation_scope_at h sid = nth sid (map is_aggregation_scope (scope_objects h)) false.
Proof.
  unfold aggregation_scope_at.
  destruct (nth_error (scope_objects h) sid) as [sc|] eqn:E.
  - symmetry. apply nth_error_nth with (d := false) . rewrite nth_error_map, E. reflexivity.
  - symmetry. apply nth_overflow. rewrite length_map. now apply nth_error_None.
Qed.

(** The invariant reads the stack, the flag and the kinds of the scopes
    only. *)
Lemma same_nesting_inv h h' : same_nesting h h' -> nesting_inv h -> nesting_inv h'.
Proof.
  intros (S & I & K & _) [V C]. unfold nesting_inv, open_aggregation_scopes.
  rewrite S, I. split.
  - replace (length (scope_objects h')) with (length (scope_objects h)); auto.
    rewrite <- (length_map is_aggregation_scope (scope_objects h)), <- K.
    apply length_map.
  - rewrite <- C. unfold open_aggregation_scopes. f_equal.
    apply filter_ext. intros sid. now rewrite !aggregation_scope_at_kinds, K.
Qed.

Lemma same_nesting_refl h : same_nesting h h.
Proof. repeat split. Qed.

Lemma same_nesting_trans h1 h2 h3 :
  same_nesting h1 h2 -> same_nesting h2 h3 -> same_nesting h1 h3.
Proof. intros (A & B & C & G) (D & E & F & I). repeat split; congruence. Qed.

Lemma same_nesting_mechanisms h ms :
  same_nesting h (mkHeap (set_mechanisms ms (self h)) (scope_objects h)).
Proof. repeat split. Qed.

(** The methods that touch neither the stack, the flag nor the kind of a
    scope: normalisation, registration, [request_budget],
    [compute_budgets]. *)
Lemma rescale_loop_nesting factor refs h o h' :
  for_each refs
    (fun ref => (m <- deref_mechanism ref ;;
                 assign_mechanism ref (set_weight (weight m * factor) m))%py) h
  = (o, h') ->
  same_nesting h h'.
Proof.
  revert h; induction refs as [|r refs IH]; intros h H; cbn in H.
  - unfold_M. inv H. apply same_nesting_refl.
  - unfold bind at 1 in H. unfold bind at 1 in H.
    unfold deref_mechanism at 1 in H.
    destruct (nth_error (_mechanisms (self h)) r) as [m|] eqn:E; cbn in H.
    + apply IH in H. exact H.
    + inv H. apply same_nesting_refl.
Qed.

Lemma normalise_nesting sid h o h' :
  _normalise_mechanism_weights sid h = (o, h') -> same_nesting h h'.
Proof.
  unfold _normalise_mechanism_weights.
  unfold bind at 1. unfold deref_scope.
  destruct (nth_error (scope_objects h) sid) as [sc|]; cbn.
  2:{ intros H; inv H. apply same_nesting_refl. }
  destruct (mechanisms sc) as [|r refs] eqn:Em.
  - unfold_M. intros H; inv H. apply same_nesting_refl.
  - unfold bind at 1.
    destruct (comprehension (r :: refs) _ h) as [[ws| |] h1] eqn:E;
      apply comprehension_weights in E; subst h1;
      try solve [intros H; inv H; apply same_nesting_refl].
    unfold bind at 1. unfold lift.
    destruct (pdiv (s_weight sc) (sum ws)) as [f| |];
      try solve [intros H; inv H; apply same_nesting_refl].
    apply rescale_loop_nesting.
Qed.

Lemma register_loop_nesting ref stack : forall h o h',
  for_each stack
    (fun sid => (sc <- deref_scope sid ;;
                 assign_scope sid
                   (set_scope_mechanisms (mechanisms sc ++ [ref]) sc))%py) h
  = (o, h') ->
  same_nesting h h'.
Proof.
  induction stack as [|s stack IH]; intros h o h' H; cbn in H.
  - unfold_M. inv H. apply same_nesting_refl.
  - unfold bind at 1 in H. unfold bind at 1 in H.
    unfold deref_scope at 1 in H.
    destruct (nth_error (scope_objects h) s) as [sc|] eqn:E; cbn in H.
    + apply IH in H. eapply same_nesting_trans; [|exact H].
      repeat split. cbn. eapply update_map_same; eauto.
    + inv H. apply same_nesting_refl.
Qed.

Lemma _register_mechanism_nesting m h o h' :
  _register_mechanism m h = (o, h') -> same_nesting h h'.
Proof.
  unfold _register_mechanism. intros H.
  unfold bind at 1 in H. unfold get_self at 1 in H.
  unfold bind at 1 in H. unfold modify_self at 1 in H. unfold modify at 1 in H.
  unfold bind at 1 in H.
  match type of H with context [for_each ?l ?b ?x] =>
    destruct (for_each l b x) as [o1 h1] eqn:Lp end.
  assert (h1 = h') by (destruct o1 as [[]| |]; unfold ret in H; now inv H).
  subst h1. apply register_loop_nesting in Lp.
  eapply same_nesting_trans; [|exact Lp]. apply same_nesting_mechanisms.
Qed.

Section BlockEffects.
Context {pldlib : PrivacyLossDistributionLib}.

Lemma request_budget_nesting k mt s w c nsd h o h' :
  request_budget k mt s w c nsd h = (o, h') -> same_nesting h h'.
Proof.
  rewrite request_budget_unfold. intros H.
  repeat match type of H with
         | (if ?b then _ else _) = _ => destruct b
         end; try solve [inv H; apply same_nesting_refl].
  eapply _register_mechanism_nesting; eauto.
Qed.

Lemma for_mechanisms_nesting body h o h' :
  for_mechanisms body h = (o, h') -> same_nesting h h'.
Proof.
  intros H. apply for_mechanisms_shape in H. destruct H as (ms' & _ & ->).
  apply same_nesting_mechanisms.
Qed.

Lemma compute_budgets_nesting k fuel h o h' :
  compute_budgets k fuel h = (o, h') -> same_nesting h h'.
Proof.
  assert (Fn : same_nesting h (mkHeap (set_finalized true (self h)) (scope_objects h)))
    by (repeat split).
  destruct (_finalize_cases h) as [[e E]|[F E]].
  - destruct k; unfold compute_budgets, Naive.compute_budgets, PLD.compute_budgets;
      unfold bind at 1; rewrite E; intros H; inv H; apply same_nesting_refl.
  - destruct k; unfold compute_budgets, Naive.compute_budgets, PLD.compute_budgets;
      unfold bind at 1; rewrite E; unfold bind at 1; unfold get_self at 1;
      cbn [self _mechanisms set_finalized _scopes_stack];
      destruct (_mechanisms (self h)) eqn:Ms; unfold_M;
      try solve [intros H; inv H; exact Fn];
      destruct (_scopes_stack (self h)) eqn:St;
      try solve [intros H; inv H; exact Fn].
    + intros H. apply for_mechanisms_nesting in H.
      eapply same_nesting_trans; [exact Fn|exact H].
    + match goal with |- context [PLD.closed_form_or_search ?f ?a] =>
        destruct (PLD.closed_form_or_search f a) end;
        intros H; try solve [inv H; exact Fn].
      apply for_mechanisms_nesting in H.
      eapply same_nesting_trans; [exact Fn|]. 
      eapply same_nesting_trans; [|exact H]. repeat split.
Qed.

End BlockEffects.

Lemma open_aggregation_scopes_in h :
  in_open_aggregation_scope h <-> open_aggregation_scopes h <> [].
Proof.
  unfold in_open_aggregation_scope, open_aggregation_scopes. split.
  - intros (sid & sc & I & N & A) E.
    assert (X : In sid (filter (aggregation_scope_at h) (_scopes_stack (self h)))).
    { apply filter_In. split; auto. unfold aggregation_scope_at. now rewrite N. }
    rewrite E in X. destruct X.
  - intros Ne.
    destruct (filter (aggregation_scope_at h) (_scopes_stack (self h))) as [|sid l] eqn:E;
      [congruence|].
    assert (X : In sid (filter (aggregation_scope_at h) (_scopes_stack (self h))))
      by (rewrite E; now left).
    apply filter_In in X. destruct X as [I A]. unfold aggregation_scope_at in A.
    destruct (nth_error (scope_objects h) sid) as [sc|] eqn:N; [|discriminate].
    eauto.
Qed.

(** Under the invariant: the flag is set exactly inside an open aggregation scope. *)
Lemma nesting_inv_flag h :
  nesting_inv h ->
  (_inside_aggregation_scope (self h) = true <-> in_open_aggregation_scope h).
Proof.
  intros [_ C]. rewrite open_aggregation_scopes_in. split.
  - intros I. rewrite I in C. intros E. rewrite E in C. discriminate.
  - intros Ne. destruct (_inside_aggregation_scope (self h)); auto.
    destruct (open_aggregation_scopes h); [congruence|discriminate].
Qed.

(** [scope], whatever its outcome: it changes nothing of the nesting, or it
    returns a new scope, which is an aggregation scope only if the flag was
    unset. *)
Lemma scope_nesting w agg h o h' :
  scope w agg h = (o, h') ->
  (same_nesting h h' /\ forall sid, o <> Return sid) \/
  (exists sc, o = Return (length (scope_objects h)) /\
     scope_objects h' = scope_objects h ++ [sc] /\
     _scopes_stack (self h') = _scopes_stack (self h) /\
     _inside_aggregation_scope (self h') = _inside_aggregation_scope (self h) /\
     (is_aggregation_scope sc = true -> _inside_aggregation_scope (self h) = false)).
Proof.
  intros H. destruct o as [sid| |].
  - right. apply scope_returns in H.
    destruct H as (-> & sc & O & _ & _ & S & I & A & _).
    exists sc. repeat split; auto. intros X. now apply A.
  - left. split; [|discriminate].
    revert H. rewrite scope_unfold.
    destruct (agg && constrained (self h)) eqn:G.
    + destruct (_inside_aggregation_scope (self h)) eqn:I.
      * intros H; inv H. apply same_nesting_refl.
      * cbv zeta.
        match goal with |- context [aggregation_checks ?a ?w ?i ?s] =>
          destruct (aggregation_checks_pure a w i s) as [E|[e' E]]; rewrite E end.
        -- rewrite scope_init_unfold. cbn [self scope_objects].
           destruct (_compute_budget_for_aggregation_scope _ _) as [b| |];
             intros H; inv H. repeat split; auto.
        -- intros H; inv H. repeat split; auto.
    + rewrite scope_init_unfold. discriminate.
  - left. split; [|discriminate].
    revert H. rewrite scope_unfold.
    destruct (agg && constrained (self h)) eqn:G.
    + destruct (_inside_aggregation_scope (self h)) eqn:I.
      * intros H; inv H.
      * cbv zeta.
        match goal with |- context [aggregation_checks ?a ?w ?i ?s] =>
          destruct (aggregation_checks_pure a w i s) as [E|[e' E]]; rewrite E end.
        -- rewrite scope_init_unfold. cbn [self scope_objects].
           destruct (_compute_budget_for_aggregation_scope _ _) as [b| |];
             intros H; inv H. repeat split; auto.
        -- intros H; inv H.
    + rewrite scope_init_unfold. discriminate.
Qed.

(** The invariant holds of a constructed accountant, and every call of a
    block keeps it. *)
Lemma construct_nesting k e d disc n ws h0 :
  construct k e d disc n ws = Return h0 -> nesting_inv h0.
Proof.
  destruct k; cbn [construct]; unfold Naive.__init__, PLD.__init__, obind;
    destruct (BudgetAccountant__init__ n ws) as [a| |] eqn:E; try discriminate;
    apply BudgetAccountant__init___fresh in E; subst a;
    destruct (_validate_epsilon_delta e d); try discriminate;
    intros H; inv H; split; cbn; auto.
Qed.

Lemma filter_app_last {A} (f : A -> bool) l x :
  filter f (l ++ [x]) = filter f l ++ (if f x then [x] else []).
Proof. rewrite filter_app. cbn. now destruct (f x). Qed.

Lemma enter_unfold sid h sc :
  nth_error (scope_objects h) sid = Some sc ->
  __enter__ sid h
  = (Return sid,
     mkHeap (set_scopes_stack (_scopes_stack (self h) ++ [sid])
               (if is_aggregation_scope sc
                then set_inside_aggregation_scope true (self h)
                else self h))
       (scope_objects h)).
Proof.
  intros N. unfold __enter__, _enter_scope. unfold_M. rewrite N.
  destruct (is_aggregation_scope sc); reflexivity.
Qed.

Lemma enter_new_scope_nesting h1 h sc o h' :
  nesting_inv h ->
  scope_objects h1 = scope_objects h ++ [sc] ->
  _scopes_stack (self h1) = _scopes_stack (self h) ->
  _inside_aggregation_scope (self h1) = _inside_aggregation_scope (self h) ->
  (is_aggregation_scope sc = true -> _inside_aggregation_scope (self h) = false) ->
  __enter__ (length (scope_objects h)) h1 = (o, h') ->
  nesting_inv h'.
Proof.
  intros [V C] O S I A.
  assert (N : nth_error (scope_objects h1) (length (scope_objects h)) = Some sc).
  { rewrite O, nth_error_app2, Nat.sub_diag by lia. reflexivity. }
  rewrite (enter_unfold _ _ _ N). intros H. inv H.
  assert (F : filter (aggregation_scope_at h1) (_scopes_stack (self h))
              = filter (aggregation_scope_at h) (_scopes_stack (self h))).
  { apply filter_ext_in. intros sid Hin.
    rewrite Forall_forall in V. specialize (V sid Hin).
    unfold aggregation_scope_at. rewrite O. now rewrite nth_error_app1. }
  assert (K : forall a l,
            open_aggregation_scopes (mkHeap (set_scopes_stack l a) (scope_objects h1))
            = filter (aggregation_scope_at h1) l).
  { intros a l. unfold open_aggregation_scopes. cbn. reflexivity. }
  unfold open_aggregation_scopes in C.
  split.
  - cbn [self scope_objects _scopes_stack set_scopes_stack].
    rewrite S, O, length_app. cbn. apply Forall_app. split.
    + eapply Forall_impl; [|exact V]. cbn. intros. lia.
    + constructor; [lia|constructor].
  - rewrite K, S, filter_app_last, F, length_app, C.
    unfold aggregation_scope_at at 1. rewrite N.
    destruct (is_aggregation_scope sc) eqn:Ag; cbn.
    + rewrite (A eq_refl). reflexivity.
    + rewrite I. lia.
Qed.

Lemma open_block_nesting w agg h o h' :
  open_block w agg h = (o, h') -> nesting_inv h -> nesting_inv h'.
Proof.
  unfold open_block. unfold bind at 1.
  destruct (scope w agg h) as [[sid| |] h1] eqn:E; intros H J.
  - apply scope_nesting in E. destruct E as [[_ X]|(sc & R & O & S & I & A)].
    + now destruct (X sid).
    + inv R. apply ignore_eq in H. destruct H as [o' H].
      eapply enter_new_scope_nesting; eauto.
  - inv H. apply scope_nesting in E. destruct E as [[X _]|(sc & R & _)]; [|discriminate].
    eapply same_nesting_inv; eauto.
  - inv H. apply scope_nesting in E. destruct E as [[X _]|(sc & R & _)]; [|discriminate].
    eapply same_nesting_inv; eauto.
Qed.

Lemma _exit_scope_unfold h stack sid sc :
  pop (_scopes_stack (self h)) = Some (stack, sid) ->
  nth_error (scope_objects h) sid = Some sc ->
  _exit_scope h
  = (Return tt,
     mkHeap (if is_aggregation_scope sc
             then set_inside_aggregation_scope false (set_scopes_stack stack (self h))
             else set_scopes_stack stack (self h))
       (scope_objects h)).
Proof.
  intros P N. unfold _exit_scope. unfold_M. rewrite P. cbn. rewrite N.
  destruct (is_aggregation_scope sc); reflexivity.
Qed.

Lemma _exit_scope_nesting h o h' :
  _exit_scope h = (o, h') -> nesting_inv h -> nesting_inv h'.
Proof.
  intros H [V C].
  destruct (pop (_scopes_stack (self h))) as [[stack sid]|] eqn:P.
  2:{ unfold _exit_scope in H. unfold bind at 1 in H. unfold get_self at 1 in H.
      rewrite P in H. unfold raise in H. inv H. split; assumption. }
  pose proof (pop_some _ _ _ P) as St.
  unfold open_aggregation_scopes in C. rewrite St in V, C.
  apply Forall_app in V. destruct V as [V Vs]. inv Vs.
  rewrite filter_app_last, length_app in C.
  unfold aggregation_scope_at in C at 2.
  destruct (nth_error (scope_objects h) sid) as [sc|] eqn:N.
  2:{ apply nth_error_None in N. lia. }
  rewrite (_exit_scope_unfold _ _ _ _ P N) in H. inv H.
  assert (K : forall a,
            filter (aggregation_scope_at (mkHeap a (scope_objects h))) stack
            = filter (aggregation_scope_at h) stack) by reflexivity.
  destruct (is_aggregation_scope sc) eqn:Ag;
    (split; [exact V|]); unfold open_aggregation_scopes;
    cbn [self scope_objects _scopes_stack set_scopes_stack
           set_inside_aggregation_scope _inside_aggregation_scope];
    rewrite K; cbn in C.
  - destruct (_inside_aggregation_scope (self h)); lia.
  - rewrite Nat.add_0_r in C. exact C.
Qed.

Lemma close_block_nesting h o h' :
  close_block h = (o, h') -> nesting_inv h -> nesting_inv h'.
Proof.
  unfold close_block. unfold bind at 1. unfold get_self at 1.
  destruct (pop (_scopes_stack (self h))) as [[stack sid]|].
  2:{ unfold ret. intros H; now inv H. }
  unfold __exit__. unfold bind at 1.
  destruct (_exit_scope h) as [[[]| |] h1] eqn:E; intros H J;
    apply _exit_scope_nesting in E; auto; try solve [inv H; auto].
  apply normalise_nesting in H. eapply same_nesting_inv; eauto.
Qed.

Section BlockRuns.
Context {pldlib : PrivacyLossDistributionLib}.

Lemma perform_block_nesting k c h o h' :
  perform_block k c h = (o, h') -> nesting_inv h -> nesting_inv h'.
Proof.
  destruct c; cbn [perform_block]; intros H J.
  - eapply open_block_nesting; eauto.
  - eapply close_block_nesting; eauto.
  - apply ignore_eq in H. destruct H as [o' H].
    apply request_budget_nesting in H. eapply same_nesting_inv; eauto.
  - apply compute_budgets_nesting in H. eapply same_nesting_inv; eauto.
Qed.

Lemma run_blocks_nesting k cs : forall h h',
  run_blocks k cs h = Some h' -> nesting_inv h -> nesting_inv h'.
Proof.
  induction cs as [|c cs IH]; intros h h' H J; cbn in H.
  - now inv H.
  - destruct (perform_block k c h) as [[[]| |] h1] eqn:E; try discriminate;
      apply (IH h1 h' H); eapply perform_block_nesting; eauto.
Qed.

(** No call changes the constraint given to the constructor. *)
Lemma scope_constrained w agg h o h' :
  scope w agg h = (o, h') -> constrained (self h') = constrained (self h).
Proof.
  destruct h as [a objs].
  unfold scope, BudgetAccountantScope__init__, _get_next_aggregation_index.
  unfold_M. intros H.
  simp_M; reflexivity.
Qed.

Lemma enter_constrained sid h o h' :
  __enter__ sid h = (o, h') -> constrained (self h') = constrained (self h).
Proof.
  destruct h as [a objs].
  unfold __enter__, _enter_scope. unfold_M. intros H.
  simp_M; reflexivity.
Qed.

Lemma _exit_scope_constrained h o h' :
  _exit_scope h = (o, h') -> constrained (self h') = constrained (self h).
Proof.
  destruct h as [a objs].
  unfold _exit_scope. unfold_M. intros H.
  simp_M; reflexivity.
Qed.

Lemma perform_block_constrained k c h o h' :
  perform_block k c h = (o, h') -> constrained (self h') = constrained (self h).
Proof.
  destruct c as [w agg| |mt sn w n nsd|fuel]; cbn [perform_block]; intros H.
  - unfold open_block in H. unfold bind at 1 in H.
    destruct (scope w agg h) as [[sid| |] h1] eqn:E;
      apply scope_constrained in E; try solve [inv H; exact E].
    apply ignore_eq in H. destruct H as [o' H].
    apply enter_constrained in H. congruence.
  - unfold close_block in H. unfold bind at 1 in H. unfold get_self at 1 in H.
    destruct (pop (_scopes_stack (self h))) as [[stack sid]|].
    2:{ unfold ret in H. now inv H. }
    unfold __exit__ in H. unfold bind at 1 in H.
    destruct (_exit_scope h) as [[[]| |] h1] eqn:E;
      apply _exit_scope_constrained in E; try solve [inv H; exact E].
    apply normalise_nesting in H. destruct H as (_ & _ & _ & H). congruence.
  - apply ignore_eq in H. destruct H as [o' H].
    apply request_budget_nesting in H. apply H.
  - apply compute_budgets_nesting in H. apply H.
Qed.

Lemma run_blocks_constrained k cs : forall h h',
  run_blocks k cs h = Some h' -> constrained (self h') = constrained (self h).
Proof.
  induction cs as [|c cs IH]; intros h h' H; cbn in H.
  - now inv H.
  - destruct (perform_block k c h) as [[[]| |] h1] eqn:E; try discriminate;
      rewrite (IH h1 h' H); eapply perform_block_constrained; eauto.
Qed.

(** C4, as amended.  On an accountant constructed with [n_aggregations] or
    with a non-empty [aggregation_weights] and used through [with] blocks
    (each scope entered as soon as [scope] returned it, the blocks left
    innermost first), asking for an aggregation scope while an aggregation
    scope is open, that is on the scope stack, raises the no-nesting error
    and changes nothing.  On an accountant without such a constraint the
    call never fails: it returns a new scope without aggregation index and
    leaves the accountant as it is. *)
Theorem nested_aggregation_scope k h w :
    (forall e d disc n ws h0 cs,
       construct k e d disc n ws = Return h0 ->
       constrained (self h0) = true ->
       run_blocks k cs h0 = Some h ->
       in_open_aggregation_scope h ->
       scope w true h = (Raise (ValueError nested_msg), h)) /\
    (constrained (self h) = false ->
     scope w true h
     = (Return (length (scope_objects h)),
        mkHeap (self h) (scope_objects h ++ [mkScope w None None None []]))).
Proof.
  split.
  - intros e d disc n ws h0 cs C C0 R I.
    pose proof (run_blocks_constrained _ _ _ _ R) as Ec.
    pose proof (run_blocks_nesting _ _ _ _ R (construct_nesting _ _ _ _ _ _ _ C)) as J.
    apply scope_nested_raises; [congruence|].
    now apply (nesting_inv_flag h J).
  - unfold constrained. intros C0.
    unfold scope. unfold bind at 1. unfold get_self at 1. cbn [andb]. rewrite C0.
    unfold BudgetAccountantScope__init__. unfold_M. cbn. destruct h; reflexivity.
Qed.

End BlockRuns.

(** C4, as stated, fails.  On an accountant built without [n_aggregations]
    and without [aggregation_weights], asking for an aggregation scope inside
    an entered aggregation scope returns a second scope.  And on an
    accountant built with [n_aggregations = 3], when two aggregation scopes
    are created ahead, entered one inside the other, and the inner one is
    left, asking for an aggregation scope inside the outer one, still open,
    returns a third scope. *)
Lemma nested_aggregation_scope_undetected :
  (exists h0 h1 h2 h3,
     Naive.__init__ 1 0 None None = Return h0 /\
     scope 1 true h0 = (Return 0%nat, h1) /\
     __enter__ 0 h1 = (Return 0%nat, h2) /\
     _scopes_stack (self h2) = [0%nat] /\
     scope 1 true h2 = (Return 1%nat, h3)) /\
  (exists h0 h sc h',
     Naive.__init__ 1 0 (Some 3%Z) None = Return h0 /\
     run (pldlib := constant_lib) NaiveBudgetAccountant
       [call_scope 1 true; call_scope 1 true; call_enter 0; call_enter 1;
        call_exit 1] h0 = Some h /\
     _scopes_stack (self h) = [0%nat] /\
     nth_error (scope_objects h) 0 = Some sc /\
     is_aggregation_scope sc = true /\
     scope 1 true h = (Return 2%nat, h')).
Proof.
  split.
  - eexists. eexists. eexists. eexists.
    split; [eval_method; reflexivity|].
    split; [eval_method; reflexivity|].
    split; [eval_method; reflexivity|].
    split; [reflexivity|].
    eval_method; reflexivity.
  - eexists. eexists. eexists. eexists.
    split; [eval_method; reflexivity|].
    split; [cbn [run]; eval_method; reflexivity|].
    split; [reflexivity|].
    split; [reflexivity|].
    split; [reflexivity|].
    eval_method; reflexivity.
Qed.

(** C4 inside the first of three declared aggregations, a nested plain
    block with a request having been opened and left; and, without
    constraint, on an open plain scope. *)
Lemma nested_aggregation_scope_witness :
  (exists h0 h,
     construct NaiveBudgetAccountant 1 0 0 (Some 3%Z) None = Return h0 /\
     constrained (self h0) = true /\
     run_blocks (pldlib := constant_lib) NaiveBudgetAccountant
       [block_open 1 true; block_open (1/2) false;
        block_request_budget LAPLACE 1 1 1 None; block_close] h0 = Some h /\
     _scopes_stack (self h) = [0%nat] /\
     in_open_aggregation_scope h /\
     scope 1 true h = (Raise (ValueError nested_msg), h)) /\
  constrained (self open_scope_heap) = false /\
  scope 1 true open_scope_heap
  = (Return 1%nat,
     mkHeap (self open_scope_heap)
       (scope_objects open_scope_heap ++ [mkScope 1 None None None []])).
Proof.
  split.
  - assert (C : exists h0,
               construct NaiveBudgetAccountant 1 0 0 (Some 3%Z) None = Return h0).
    { eexists. eval_method. reflexivity. }
    destruct C as [h0 C].
    assert (C0 : constrained (self h0) = true).
    { revert C. eval_method. intros C. inv C. reflexivity. }
    assert (R : exists h,
               run_blocks (pldlib := constant_lib) NaiveBudgetAccountant
                 [block_open 1 true; block_open (1/2) false;
                  block_request_budget LAPLACE 1 1 1 None; block_close] h0 = Some h /\
               _scopes_stack (self h) = [0%nat] /\
               in_open_aggregation_scope h).
    { revert C. eval_method. intros C. inv C.
      eexists. split.
      - cbn [run_blocks perform_block]. unfold open_block, close_block.
        eval_method. reflexivity.
      - split; [reflexivity|].
        eexists 0%nat, _. split; [now left|]. split; reflexivity. }
    destruct R as (h & R & S & I).
    exists h0, h. split; [exact C|]. split; [exact C0|]. split; [exact R|].
    split; [exact S|]. split; [exact I|].
    exact (proj1 (nested_aggregation_scope (pldlib := constant_lib)
                    NaiveBudgetAccountant h 1)
             1 0 0 (Some 3%Z) None h0 _ C C0 R I).
  - split; [reflexivity|].
    apply (proj2 (nested_aggregation_scope (pldlib := constant_lib)
                    NaiveBudgetAccountant open_scope_heap 1)).
    reflexivity.
Defined.
